(** * ApplicationSet controller: reconciliation, progressive sync, conditions

    A shallow embedding of
    [applicationset/controllers/applicationset_controller.go].  Go strings
    are [string], Go [int] and instants are [Z], a slice that the code
    compares with [reflect.DeepEqual] is an [option (list _)] ([None] is the
    nil slice), maps are [gmap], pointers that may be nil are [option].
    Calls on the Kubernetes client thread a [World] (the object store, a
    clock, a schedule of injected failures and a trace of the writes). *)

From Stdlib Require Import ZArith String Ascii DecimalString DecimalZ DecimalPos.
From stdpp Require Import base strings gmap list sorting.

Local Open Scope string_scope.
Local Open Scope list_scope.
Local Open Scope Z_scope.

(** ** Data model *)

Definition Time := Z.

(** [intstr.IntOrString]: [Type] is [Int] or [String]. *)
Inductive IntstrKind := Int | String_.

Record IntOrString := {
  Kind : IntstrKind;
  IntVal : Z;
  StrVal : string;
}.

Record ApplicationMatchExpression := {
  Key : string;
  Operator : string;
  Values : list string;
}.

Record ApplicationSetRolloutStep := {
  MatchExpressions : list ApplicationMatchExpression;
  MaxUpdate : option IntOrString;
}.

Record ApplicationSetRolloutStrategy := {
  Steps : list ApplicationSetRolloutStep;
}.

Record ApplicationSetStrategy := {
  StrategyType : string;
  RollingSync : option ApplicationSetRolloutStrategy;
  DeletionOrder : string;
}.

(** The fields of the spec that the controller only hands on or compares
    (generators, template, sync policy, preserved fields) are kept as one
    opaque value. *)
Record ApplicationSetSpec := {
  Strategy : option ApplicationSetStrategy;
  SpecRest : string;
}.

Record ApplicationSetCondition := {
  ConditionType : string;
  ConditionMessage : string;
  ConditionLastTransitionTime : option Time;
  ConditionStatus : string;
  ConditionReason : string;
}.

Record ApplicationSetApplicationStatus := {
  AppName : string;
  LastTransitionTime : option Time;
  Message : string;
  Status : string;
  Step : string;
  TargetRevisions : option (list string);
}.

Record ObjectMeta := {
  Name : string;
  Namespace : string;
  Labels : gmap string string;
  Annotations : gmap string string;
  Finalizers : list string;
  OwnerReferences : list string;
  DeletionTimestamp : option Time;
}.

Record OperationState := {
  Phase : string;
  StartedAt : Time;
}.

(** [Revisions] is the value of [app.Status.GetRevisions()]. *)
Record Application := {
  Meta : ObjectMeta;
  AppSpec : string;
  Operation : option string;
  HealthStatus : string;
  SyncStatus : string;
  OpState : option OperationState;
  Revisions : option (list string);
}.

Record ApplicationSet := {
  SetMeta : ObjectMeta;
  Spec : ApplicationSetSpec;
  Conditions : list ApplicationSetCondition;
  ApplicationStatus : list ApplicationSetApplicationStatus;
}.

#[global] Instance IntstrKind_eq_dec : EqDecision IntstrKind.
Proof. solve_decision. Defined.
#[global] Instance IntOrString_eq_dec : EqDecision IntOrString.
Proof. solve_decision. Defined.
#[global] Instance ApplicationMatchExpression_eq_dec :
  EqDecision ApplicationMatchExpression.
Proof. solve_decision. Defined.
#[global] Instance ApplicationSetRolloutStep_eq_dec :
  EqDecision ApplicationSetRolloutStep.
Proof. solve_decision. Defined.
#[global] Instance ApplicationSetRolloutStrategy_eq_dec :
  EqDecision ApplicationSetRolloutStrategy.
Proof. solve_decision. Defined.
#[global] Instance ApplicationSetStrategy_eq_dec :
  EqDecision ApplicationSetStrategy.
Proof. solve_decision. Defined.
#[global] Instance ApplicationSetSpec_eq_dec : EqDecision ApplicationSetSpec.
Proof. solve_decision. Defined.
#[global] Instance ApplicationSetCondition_eq_dec :
  EqDecision ApplicationSetCondition.
Proof. solve_decision. Defined.
#[global] Instance ApplicationSetApplicationStatus_eq_dec :
  EqDecision ApplicationSetApplicationStatus.
Proof. solve_decision. Defined.

Definition appName (app : Application) : string := app.(Meta).(Name).

(** ** Strategy predicates *)

Definition isRollingSyncStrategy (appset : ApplicationSet) : bool :=
  match appset.(Spec).(Strategy) with
  | Some s =>
      bool_decide (s.(StrategyType) = "RollingSync")
      && bool_decide (is_Some s.(RollingSync))
  | None => false
  end.

(** The steps of the RollingSync strategy; [[]] when there is none. *)
Definition rollingSyncSteps (appset : ApplicationSet)
  : list ApplicationSetRolloutStep :=
  match appset.(Spec).(Strategy) with
  | Some s => match s.(RollingSync) with
              | Some rs => rs.(Steps)
              | None => []
              end
  | None => []
  end.

Definition progressiveSyncsRollingSyncStrategyEnabled
    (appset : ApplicationSet) : bool :=
  isRollingSyncStrategy appset
  && bool_decide (0 < length (rollingSyncSteps appset))%nat.

(** ** Step assignment *)

Definition labelMatchedExpression (val : string)
    (matchExpression : ApplicationMatchExpression) : bool :=
  if bool_decide (matchExpression.(Operator) ≠ "In")
     && bool_decide (matchExpression.(Operator) ≠ "NotIn")
  then false
  else
    if bool_decide (val ∈ matchExpression.(Values))
    then bool_decide (matchExpression.(Operator) = "In")
    else bool_decide (matchExpression.(Operator) = "NotIn").

(** The inner loop over [step.MatchExpressions]: [selected] starts true and
    the first failing expression clears it. *)
Fixpoint stepSelects (labels : gmap string string)
    (exprs : list ApplicationMatchExpression) : bool :=
  match exprs with
  | [] => true
  | matchExpression :: rest =>
      match labels !! matchExpression.(Key) with
      | Some val =>
          if labelMatchedExpression val matchExpression
          then stepSelects labels rest
          else false
      | None =>
          if bool_decide (matchExpression.(Operator) = "In")
          then false
          else stepSelects labels rest
      end
  end.

(** One application against the steps [i, i+1, ...]: the names appended to
    [appDependencyList[i]] and the first assignment kept in [appStepMap]. *)
Fixpoint assignApp (app : Application) (i : nat)
    (steps : list ApplicationSetRolloutStep)
    (acc : list (list string) * gmap string Z)
  : list (list string) * gmap string Z :=
  match steps with
  | [] => acc
  | step :: rest =>
      let acc' :=
        if stepSelects app.(Meta).(Labels) step.(MatchExpressions)
        then (alter (λ names, names ++ [appName app]) i acc.1,
              match acc.2 !! appName app with
              | Some _ => acc.2
              | None => <[appName app := Z.of_nat i]> acc.2
              end)
        else acc in
      assignApp app (S i) rest acc'
  end.

Definition buildAppDependencyList (applicationSet : ApplicationSet)
    (applications : list Application) : list (list string) * gmap string Z :=
  match applicationSet.(Spec).(Strategy) with
  | None => ([], ∅)
  | Some s =>
      if bool_decide (s.(StrategyType) = "")
         || bool_decide (s.(StrategyType) = "AllAtOnce")
      then ([], ∅)
      else
        let steps :=
          if progressiveSyncsRollingSyncStrategyEnabled applicationSet
          then rollingSyncSteps applicationSet else [] in
        foldl (λ acc app, assignApp app 0 steps acc)
              (replicate (length steps) [], ∅) applications
  end.

Definition Itoa (z : Z) : string := NilZero.string_of_int (Z.to_int z).

Definition getAppStep (appName : string) (appStepMap : gmap string Z) : Z :=
  match appStepMap !! appName with
  | Some appStep => appStep + 1
  | None => -1
  end.

(** ** Per-application rollout status *)

Definition statusStrings (app : Application) : string * string * string :=
  (app.(HealthStatus), app.(SyncStatus),
   match app.(OpState) with Some os => os.(Phase) | None => "" end).

Definition isApplicationHealthy (app : Application) : bool :=
  let '(healthStatusString, syncStatusString, operationPhaseString) :=
    statusStrings app in
  bool_decide (healthStatusString = "Healthy")
  && bool_decide (syncStatusString ≠ "OutOfSync")
  && (bool_decide (operationPhaseString = "Succeeded")
      || bool_decide (operationPhaseString = "")).

(** Index of the first entry for [application]; Go's [-1] is [None]. *)
Fixpoint findApplicationStatusIndex
    (appStatuses : list ApplicationSetApplicationStatus)
    (application : string) : option nat :=
  match appStatuses with
  | [] => None
  | s :: rest =>
      if bool_decide (s.(AppName) = application) then Some 0%nat
      else S <$> findApplicationStatusIndex rest application
  end.

(** The four assignments every transition makes. *)
Definition transitionTo (now : Time) (status message : string)
    (appStepMap : gmap string Z) (cur : ApplicationSetApplicationStatus)
  : ApplicationSetApplicationStatus :=
  {| AppName := cur.(AppName);
     LastTransitionTime := Some now;
     Message := message;
     Status := status;
     Step := Itoa (getAppStep cur.(AppName) appStepMap);
     TargetRevisions := cur.(TargetRevisions) |}.

Definition setMessage (message : string)
    (cur : ApplicationSetApplicationStatus) : ApplicationSetApplicationStatus :=
  {| AppName := cur.(AppName);
     LastTransitionTime := cur.(LastTransitionTime);
     Message := message;
     Status := cur.(Status);
     Step := cur.(Step);
     TargetRevisions := cur.(TargetRevisions) |}.

(** The body of the loop of [updateApplicationSetApplicationStatus] for one
    application, block by block.  First the entry the loop starts from: a
    fresh Waiting entry, or the recorded one with its message replaced when
    the revisions differ. *)
Definition startingStatus (now : Time) (applicationSet : ApplicationSet)
    (appStepMap : gmap string Z) (app : Application)
  : ApplicationSetApplicationStatus :=
  let idx :=
    findApplicationStatusIndex applicationSet.(ApplicationStatus) (appName app) in
  match idx ≫= (λ i, applicationSet.(ApplicationStatus) !! i) with
  | None =>
      {| AppName := appName app;
         LastTransitionTime := Some now;
         Message := "No Application status found, defaulting status to Waiting.";
         Status := "Waiting";
         Step := Itoa (getAppStep (appName app) appStepMap);
         TargetRevisions := None |}
  | Some existing =>
      if bool_decide (existing.(TargetRevisions) ≠ app.(Revisions))
      then setMessage
             "Application has pending changes, setting status to Waiting."
             existing
      else existing
  end.

(** [reflect.DeepEqual] on the revisions fails: back to Waiting. *)
Definition observeRevisions (now : Time) (appStepMap : gmap string Z)
    (app : Application) (cur : ApplicationSetApplicationStatus)
  : ApplicationSetApplicationStatus :=
  if bool_decide (cur.(TargetRevisions) ≠ app.(Revisions))
  then {| AppName := cur.(AppName);
          LastTransitionTime := Some now;
          Message := cur.(Message);
          Status := "Waiting";
          Step := Itoa (getAppStep cur.(AppName) appStepMap);
          TargetRevisions := app.(Revisions) |}
  else cur.

Definition appOutdated (applicationSet : ApplicationSet) (app : Application)
  : bool :=
  if progressiveSyncsRollingSyncStrategyEnabled applicationSet
  then bool_decide ((statusStrings app).1.2 = "OutOfSync") else false.

Definition outdatedToWaiting (now : Time) (appStepMap : gmap string Z)
    (outdated : bool) (cur : ApplicationSetApplicationStatus)
  : ApplicationSetApplicationStatus :=
  if outdated && bool_decide (cur.(Status) ≠ "Waiting")
     && bool_decide (cur.(Status) ≠ "Pending")
  then transitionTo now "Waiting"
         "Application has pending changes, setting status to Waiting."
         appStepMap cur
  else cur.

Definition pendingToProgressing (now : Time) (appStepMap : gmap string Z)
    (outdated : bool) (app : Application)
    (cur : ApplicationSetApplicationStatus) : ApplicationSetApplicationStatus :=
  let '(healthStatusString, _, operationPhaseString) := statusStrings app in
  if bool_decide (cur.(Status) = "Pending")
  then
    if negb outdated && bool_decide (operationPhaseString = "Succeeded")
    then transitionTo now "Progressing"
           "Application resource completed a sync successfully, updating status from Pending to Progressing."
           appStepMap cur
    else if bool_decide (operationPhaseString = "Running")
            || bool_decide (healthStatusString = "Progressing")
    then transitionTo now "Progressing"
           "Application resource became Progressing, updating status from Pending to Progressing."
           appStepMap cur
    else cur
  else cur.

Definition waitingToHealthy (now : Time) (appStepMap : gmap string Z)
    (app : Application) (cur : ApplicationSetApplicationStatus)
  : ApplicationSetApplicationStatus :=
  if bool_decide (cur.(Status) = "Waiting") && isApplicationHealthy app
  then transitionTo now (statusStrings app).1.1
         "Application resource is already Healthy, updating status from Waiting to Healthy."
         appStepMap cur
  else cur.

Definition progressingToHealthy (now : Time) (appStepMap : gmap string Z)
    (app : Application) (cur : ApplicationSetApplicationStatus)
  : ApplicationSetApplicationStatus :=
  if bool_decide (cur.(Status) = "Progressing") && isApplicationHealthy app
  then transitionTo now (statusStrings app).1.1
         "Application resource became Healthy, updating status from Progressing to Healthy."
         appStepMap cur
  else cur.

Definition updatedApplicationStatus (now : Time) (applicationSet : ApplicationSet)
    (appStepMap : gmap string Z) (app : Application)
  : ApplicationSetApplicationStatus :=
  let outdated := appOutdated applicationSet app in
  progressingToHealthy now appStepMap app
    (waitingToHealthy now appStepMap app
       (pendingToProgressing now appStepMap outdated app
          (outdatedToWaiting now appStepMap outdated
             (observeRevisions now appStepMap app
                (startingStatus now applicationSet appStepMap app))))).

(** The list [appStatuses] built by the loop. *)
Definition updatedApplicationStatuses (now : Time)
    (applicationSet : ApplicationSet) (applications : list Application)
    (appStepMap : gmap string Z) : list ApplicationSetApplicationStatus :=
  updatedApplicationStatus now applicationSet appStepMap <$> applications.

(** ** maxUpdate and the Waiting → Pending promotion *)

(** [strings.HasSuffix(s, "%")] with [strings.TrimSuffix]: the text before
    the final percent sign. *)
Fixpoint trimPercent (s : string) : option string :=
  match s with
  | "" => None
  | String a rest =>
      match rest with
      | "" => if bool_decide (a = "%"%char) then Some "" else None
      | _ => String a <$> trimPercent rest
      end
  end.

(** [strconv.Atoi]: an optional sign, then decimal digits, within int64. *)
Definition Atoi (s : string) : option Z :=
  let parsed :=
    match s with
    | String "+" digits =>
        Z.of_int <$> (Decimal.Pos <$> NilZero.uint_of_string digits)
    | _ => Z.of_int <$> NilZero.int_of_string s
    end in
  v ← parsed;
  if bool_decide (- 2 ^ 63 ≤ v < 2 ^ 63) then Some v else None.

(** Modelled from the spec: [intstr.GetScaledValueFromIntOrPercent] of
    k8s.io/apimachinery, called with [roundUp = false].  An integer is used
    directly, a percentage of [total] is rounded down, anything else is an
    error returned with the value 0.  The second component is [true] when an
    error is returned. *)
Definition GetScaledValueFromIntOrPercent (intOrPercent : IntOrString)
    (total : Z) : Z * bool :=
  match intOrPercent.(Kind) with
  | Int => (intOrPercent.(IntVal), false)
  | String_ =>
      match trimPercent intOrPercent.(StrVal) ≫= Atoi with
      | Some value => (value * total / 100, false)
      | None => (0, true)
      end
  end.

(** [appStepMap[name]]: a missing key reads as 0. *)
Definition stepIndex (appStepMap : gmap string Z) (name : string) : Z :=
  default 0 (appStepMap !! name).

(** [xs[i]]; [None] is the run-time panic of an index out of range. *)
Definition index {A} (xs : list A) (i : Z) : option A :=
  if bool_decide (0 ≤ i) then xs !! Z.to_nat i else None.

(** [counts[i]++]. *)
Definition increment (counts : list Z) (i : Z) : option (list Z) :=
  c ← index counts i; Some (<[Z.to_nat i := c + 1]> counts).

Definition inFlight (appStatus : ApplicationSetApplicationStatus) : bool :=
  bool_decide (appStatus.(Status) = "Pending")
  || bool_decide (appStatus.(Status) = "Progressing").

(** The first loop: [totalCountMap] and [updateCountMap]. *)
Fixpoint countStatuses (appStepMap : gmap string Z)
    (statuses : list ApplicationSetApplicationStatus)
    (updateCountMap totalCountMap : list Z) : option (list Z * list Z) :=
  match statuses with
  | [] => Some (updateCountMap, totalCountMap)
  | appStatus :: rest =>
      let i := stepIndex appStepMap appStatus.(AppName) in
      totalCountMap' ← increment totalCountMap i;
      updateCountMap' ←
        (if inFlight appStatus then increment updateCountMap i
         else Some updateCountMap);
      countStatuses appStepMap rest updateCountMap' totalCountMap'
  end.

(** [maxUpdateVal] as the promotion loop computes it from a non-nil
    [maxUpdate]. *)
Definition maxUpdateVal (maxUpdate : IntOrString) (total : Z) : Z :=
  let '(val, _) := GetScaledValueFromIntOrPercent maxUpdate total in
  if bool_decide (maxUpdate.(Kind) = String_)
     && bool_decide (maxUpdate.(StrVal) ≠ "0%")
     && bool_decide (val < 1)
  then 1 else val.

Definition maxUpdateAllowed (maxUpdate : option IntOrString)
    (total count : Z) : bool :=
  match maxUpdate with
  | None => true
  | Some maxUpdate => negb (bool_decide (maxUpdateVal maxUpdate total ≤ count))
  end.

(** The second loop: the entries appended to [appStatuses]. *)
Fixpoint promoteStatuses (now : Time) (steps : list ApplicationSetRolloutStep)
    (appSyncMap : gmap string bool) (appStepMap : gmap string Z)
    (totalCountMap : list Z)
    (statuses : list ApplicationSetApplicationStatus)
    (updateCountMap : list Z)
  : option (list ApplicationSetApplicationStatus) :=
  match statuses with
  | [] => Some []
  | appStatus :: rest =>
      let i := stepIndex appStepMap appStatus.(AppName) in
      step ← index steps i;
      total ← index totalCountMap i;
      count ← index updateCountMap i;
      if bool_decide (appStatus.(Status) = "Waiting")
         && default false (appSyncMap !! appStatus.(AppName))
         && maxUpdateAllowed step.(MaxUpdate) total count
      then
        updateCountMap' ← increment updateCountMap i;
        rest' ← promoteStatuses now steps appSyncMap appStepMap
                  totalCountMap rest updateCountMap';
        Some (transitionTo now "Pending"
                "Application moved to Pending status, watching for the Application resource to start Progressing."
                appStepMap appStatus :: rest')
      else
        rest' ← promoteStatuses now steps appSyncMap appStepMap
                  totalCountMap rest updateCountMap;
        Some (appStatus :: rest')
  end.

(** The list [appStatuses] of [updateApplicationSetApplicationStatusProgress];
    [None] is a run-time panic. *)
Definition progressedApplicationStatuses (now : Time)
    (applicationSet : ApplicationSet) (appSyncMap : gmap string bool)
    (appStepMap : gmap string Z)
  : option (list ApplicationSetApplicationStatus) :=
  if progressiveSyncsRollingSyncStrategyEnabled applicationSet then
    let steps := rollingSyncSteps applicationSet in
    let zeros := replicate (length steps) 0 in
    '(updateCountMap, totalCountMap) ←
      countStatuses appStepMap applicationSet.(ApplicationStatus) zeros zeros;
    promoteStatuses now steps appSyncMap appStepMap totalCountMap
      applicationSet.(ApplicationStatus) updateCountMap
  else Some [].

(** ** Errors *)

Inductive error :=
| NotFound (what : string)
| Conflict (what : string)
| Failure (msg : string)
| Wrapped (msg : string) (cause : error)
| Panic (msg : string).

#[global] Instance error_eq_dec : EqDecision error.
Proof. solve_decision. Defined.

(** [apierrors.IsNotFound] and [apierrors.IsConflict] look through [%w]. *)
Fixpoint IsNotFound (err : error) : bool :=
  match err with
  | NotFound _ => true
  | Wrapped _ cause => IsNotFound cause
  | _ => false
  end.

Fixpoint IsConflict (err : error) : bool :=
  match err with
  | Conflict _ => true
  | Wrapped _ cause => IsConflict cause
  | _ => false
  end.

(** [client.IgnoreNotFound]. *)
Definition IgnoreNotFound (err : error) : option error :=
  if IsNotFound err then None else Some err.

(** ** The object store *)

(** A failure injected into one call on the client: a conflict on the
    resource version or any other failure of the call. *)
Inductive Fault := FaultConflict | FaultFailure (msg : string).

Definition faultError (f : Fault) : error :=
  match f with
  | FaultConflict => Conflict "the object has been modified"
  | FaultFailure msg => Failure msg
  end.

(** The calls that changed the store, oldest first. *)
Inductive Write :=
| WUpdateApplication (app : Application)
| WPatchApplication (app : Application)
| WDeleteApplication (name : string)
| WUpdateApplicationSet (appset : ApplicationSet)
| WUpdateStatus (appset : ApplicationSet).

(** The store holds one parent and its namespace of children, keyed by
    name.  Every call on the client consumes the head of [faults]: [Some f]
    makes the call fail with [f] and leaves the store alone. *)
Record World := {
  parent : option ApplicationSet;
  children : gmap string Application;
  clock : Time;
  faults : list (option Fault);
  writes : list Write;
}.

Definition M (A : Type) : Type := World → A * World.

#[global] Instance M_ret : MRet M := λ A a w, (a, w).
#[global] Instance M_bind : MBind M :=
  λ A B k m w, let '(a, w') := m w in k a w'.

Definition nextFault : M (option Fault) := λ w,
  match w.(faults) with
  | [] => (None, w)
  | f :: rest =>
      (f, {| parent := w.(parent); children := w.(children);
             clock := w.(clock); faults := rest; writes := w.(writes) |})
  end.

Definition Now : M Time := λ w, (w.(clock), w).

Definition setChildren (cs : gmap string Application) (wr : Write) : M unit :=
  λ w, (tt, {| parent := w.(parent); children := cs; clock := w.(clock);
               faults := w.(faults); writes := w.(writes) ++ [wr] |}).

Definition setParent (p : option ApplicationSet) (wr : Write) : M unit :=
  λ w, (tt, {| parent := p; children := w.(children); clock := w.(clock);
               faults := w.(faults); writes := w.(writes) ++ [wr] |}).

Definition withMeta (app : Application) (meta : ObjectMeta) : Application :=
  {| Meta := meta; AppSpec := app.(AppSpec); Operation := app.(Operation);
     HealthStatus := app.(HealthStatus); SyncStatus := app.(SyncStatus);
     OpState := app.(OpState); Revisions := app.(Revisions) |}.

Definition withDeletionTimestamp (t : option Time) (meta : ObjectMeta)
  : ObjectMeta :=
  {| Name := meta.(Name); Namespace := meta.(Namespace);
     Labels := meta.(Labels); Annotations := meta.(Annotations);
     Finalizers := meta.(Finalizers);
     OwnerReferences := meta.(OwnerReferences);
     DeletionTimestamp := t |}.

Definition withFinalizers (fs : list string) (meta : ObjectMeta) : ObjectMeta :=
  {| Name := meta.(Name); Namespace := meta.(Namespace);
     Labels := meta.(Labels); Annotations := meta.(Annotations);
     Finalizers := fs;
     OwnerReferences := meta.(OwnerReferences);
     DeletionTimestamp := meta.(DeletionTimestamp) |}.

Definition withOwnerReferences (os : list string) (meta : ObjectMeta)
  : ObjectMeta :=
  {| Name := meta.(Name); Namespace := meta.(Namespace);
     Labels := meta.(Labels); Annotations := meta.(Annotations);
     Finalizers := meta.(Finalizers);
     OwnerReferences := os;
     DeletionTimestamp := meta.(DeletionTimestamp) |}.

(** An object being deleted goes away with its last finalizer. *)
Definition storeChild (app : Application) (cs : gmap string Application)
  : gmap string Application :=
  if bool_decide (is_Some app.(Meta).(DeletionTimestamp))
     && bool_decide (app.(Meta).(Finalizers) = [])
  then delete (appName app) cs
  else <[appName app := app]> cs.

(** [r.Get] of a child. *)
Definition GetApplication (name : string) : M (error + Application) :=
  f ← nextFault;
  match f with
  | Some fault => mret (inl (faultError fault))
  | None => λ w,
      (match w.(children) !! name with
       | Some app => inr app
       | None => inl (NotFound name)
       end, w)
  end.

(** [r.List] of the children whose controller is [owner], in the order the
    store yields them. *)
Definition ListApplications (owner : string) : M (error + list Application) :=
  f ← nextFault;
  match f with
  | Some fault => mret (inl (faultError fault))
  | None => λ w,
      (inr (filter (λ app, owner ∈ app.(Meta).(OwnerReferences))
                   (map_to_list w.(children)).*2), w)
  end.

(** [r.Delete]: an object with finalizers is marked, one without is
    removed. *)
Definition DeleteApplication (name : string) : M (option error) :=
  f ← nextFault;
  match f with
  | Some fault => mret (Some (faultError fault))
  | None => λ w,
      match w.(children) !! name with
      | None => (Some (NotFound name), w)
      | Some app =>
          let cs :=
            if bool_decide (app.(Meta).(Finalizers) = [])
            then delete name w.(children)
            else match app.(Meta).(DeletionTimestamp) with
                 | Some _ => w.(children)
                 | None =>
                     <[name := withMeta app (withDeletionTimestamp
                                  (Some w.(clock)) app.(Meta))]> w.(children)
                 end in
          (None, (setChildren cs (WDeleteApplication name) w).2)
      end
  end.

(** [r.Update] and [r.Patch] of a child. *)
Definition writeApplication (wr : Application → Write) (app : Application)
  : M (option error) :=
  f ← nextFault;
  match f with
  | Some fault => mret (Some (faultError fault))
  | None => λ w,
      match w.(children) !! appName app with
      | None => (Some (NotFound (appName app)), w)
      | Some _ => (None, (setChildren (storeChild app w.(children)) (wr app) w).2)
      end
  end.

Definition UpdateApplication := writeApplication WUpdateApplication.
Definition PatchApplication := writeApplication WPatchApplication.

(** [r.Get] of the parent. *)
Definition GetApplicationSet : M (error + ApplicationSet) :=
  f ← nextFault;
  match f with
  | Some fault => mret (inl (faultError fault))
  | None => λ w,
      (match w.(parent) with
       | Some appset => inr appset
       | None => inl (NotFound "applicationset")
       end, w)
  end.

(** [r.Update] of the parent. *)
Definition UpdateApplicationSet (appset : ApplicationSet) : M (option error) :=
  f ← nextFault;
  match f with
  | Some fault => mret (Some (faultError fault))
  | None => λ w,
      match w.(parent) with
      | None => (Some (NotFound "applicationset"), w)
      | Some _ =>
          let p :=
            if bool_decide (is_Some appset.(SetMeta).(DeletionTimestamp))
               && bool_decide (appset.(SetMeta).(Finalizers) = [])
            then None else Some appset in
          (None, (setParent p (WUpdateApplicationSet appset) w).2)
      end
  end.

(** [r.Client.Status().Update]: only the status of the stored parent
    changes. *)
Definition UpdateStatus (appset : ApplicationSet) : M (option error) :=
  f ← nextFault;
  match f with
  | Some fault => mret (Some (faultError fault))
  | None => λ w,
      match w.(parent) with
      | None => (Some (NotFound "applicationset"), w)
      | Some stored =>
          let p := {| SetMeta := stored.(SetMeta); Spec := stored.(Spec);
                      Conditions := appset.(Conditions);
                      ApplicationStatus := appset.(ApplicationStatus) |} in
          (None, (setParent (Some p) (WUpdateStatus appset) w).2)
      end
  end.

(** [retry.RetryOnConflict(retry.DefaultRetry, fn)]: [fn] runs again while
    it returns a conflict, five times at most.  [fn] yields, next to its
    error, what it stored in the variables it captured. *)
Fixpoint retryOnConflict {A} (more : nat) (fn : M (A * option error))
  : M (A * option error) :=
  r ← fn;
  match r.2 with
  | None => mret r
  | Some e =>
      if IsConflict e
      then match more with O => mret r | S n => retryOnConflict n fn end
      else mret r
  end.

Definition RetryOnConflict {A} (fn : M (A * option error))
  : M (A * option error) :=
  retryOnConflict 4 fn.

(** ** Writing the per-application status list *)

Definition withApplicationStatus
    (statuses : list ApplicationSetApplicationStatus)
    (appset : ApplicationSet) : ApplicationSet :=
  {| SetMeta := appset.(SetMeta); Spec := appset.(Spec);
     Conditions := appset.(Conditions); ApplicationStatus := statuses |}.

Definition withConditions (conditions : list ApplicationSetCondition)
    (appset : ApplicationSet) : ApplicationSet :=
  {| SetMeta := appset.(SetMeta); Spec := appset.(Spec);
     Conditions := conditions;
     ApplicationStatus := appset.(ApplicationStatus) |}.

(** The recorded entry that [findApplicationStatusIndex] selects. *)
Definition recordedStatus (recorded : list ApplicationSetApplicationStatus)
    (application : string) : option ApplicationSetApplicationStatus :=
  findApplicationStatusIndex recorded application ≫= (recorded !!.).

(** One round of the comparison loop: [true] sets [needToUpdateStatus]. *)
Definition statusChanged (recorded : list ApplicationSetApplicationStatus)
    (appStatus : ApplicationSetApplicationStatus) : bool :=
  match recordedStatus recorded appStatus.(AppName) with
  | None => true
  | Some currentStatus =>
      bool_decide (currentStatus.(Message) ≠ appStatus.(Message))
      || bool_decide (currentStatus.(Status) ≠ appStatus.(Status))
      || bool_decide (currentStatus.(Step) ≠ appStatus.(Step))
  end.

Definition needToUpdateStatus
    (recorded applicationStatuses : list ApplicationSetApplicationStatus)
  : bool :=
  if bool_decide (length applicationStatuses ≠ length recorded) then true
  else existsb (statusChanged recorded) applicationStatuses.

(** The order [sort.Slice] is given: ascending application name. *)
Definition nameLe (a b : ApplicationSetApplicationStatus) : Prop :=
  String.leb a.(AppName) b.(AppName).

#[global] Instance nameLe_dec : RelDecision nameLe.
Proof. intros a b. unfold nameLe. apply _. Defined.

Definition sortByName (statuses : list ApplicationSetApplicationStatus)
  : list ApplicationSetApplicationStatus :=
  merge_sort nameLe statuses.

(** The function handed to [retry.RetryOnConflict]: the parent is read
    again, given the list and written.  It yields the parent it copied into
    [applicationSet], if any. *)
Definition statusUpdateAttempt
    (statuses : list ApplicationSetApplicationStatus)
  : M (option ApplicationSet * option error) :=
  got ← GetApplicationSet;
  match got with
  | inl err =>
      match IgnoreNotFound err with
      | Some _ => mret (None, None)
      | None =>
          mret (None,
                Some (Wrapped "error fetching updated application set" err))
      end
  | inr updatedAppset =>
      let updatedAppset1 := withApplicationStatus statuses updatedAppset in
      err ← UpdateStatus updatedAppset1;
      match err with
      | Some e => mret (None, Some e)
      | None => mret (Some updatedAppset1, None)
      end
  end.

Definition setAppSetApplicationStatus (applicationSet : ApplicationSet)
    (applicationStatuses : list ApplicationSetApplicationStatus)
  : M (ApplicationSet * option error) :=
  if needToUpdateStatus applicationSet.(ApplicationStatus) applicationStatuses
  then
    let applicationSet1 :=
      withApplicationStatus (sortByName applicationStatuses) applicationSet in
    r ← RetryOnConflict
          (statusUpdateAttempt applicationSet1.(ApplicationStatus));
    let applicationSet2 := default applicationSet1 r.1 in
    match r.2 with
    | Some err =>
        mret (applicationSet2,
              Some (Wrapped "unable to set application set status" err))
    | None => mret (applicationSet2, None)
    end
  else mret (applicationSet, None).

Definition updateApplicationSetApplicationStatus
    (applicationSet : ApplicationSet) (applications : list Application)
    (appStepMap : gmap string Z)
  : M (ApplicationSet * (list ApplicationSetApplicationStatus + error)) :=
  now ← Now;
  let appStatuses :=
    updatedApplicationStatuses now applicationSet applications appStepMap in
  r ← setAppSetApplicationStatus applicationSet appStatuses;
  match r.2 with
  | Some err =>
      mret (r.1, inr (Wrapped "failed to set AppSet application statuses" err))
  | None => mret (r.1, inl appStatuses)
  end.

Definition updateApplicationSetApplicationStatusProgress
    (applicationSet : ApplicationSet) (appSyncMap : gmap string bool)
    (appStepMap : gmap string Z)
  : M (ApplicationSet * (list ApplicationSetApplicationStatus + error)) :=
  now ← Now;
  match progressedApplicationStatuses now applicationSet appSyncMap appStepMap
  with
  | None => mret (applicationSet, inr (Panic "index out of range"))
  | Some appStatuses =>
      r ← setAppSetApplicationStatus applicationSet appStatuses;
      match r.2 with
      | Some err =>
          mret (r.1, inr (Wrapped "failed to set AppSet app status" err))
      | None => mret (r.1, inl appStatuses)
      end
  end.

(** ** Conditions *)

Definition ApplicationSetConditionErrorOccurred : string := "ErrorOccurred".
Definition ApplicationSetConditionParametersGenerated : string :=
  "ParametersGenerated".
Definition ApplicationSetConditionResourcesUpToDate : string :=
  "ResourcesUpToDate".
Definition ApplicationSetConditionRolloutProgressing : string :=
  "RolloutProgressing".
Definition ApplicationSetConditionStatusTrue : string := "True".
Definition ApplicationSetConditionStatusFalse : string := "False".
Definition ApplicationSetReasonErrorOccurred : string := "ErrorOccurred".
Definition ApplicationSetReasonParametersGenerated : string :=
  "ParametersGenerated".

Definition getParametersGeneratedCondition (parametersGenerated : bool)
    (message : string) : ApplicationSetCondition :=
  if parametersGenerated then
    {| ConditionType := ApplicationSetConditionParametersGenerated;
       ConditionMessage :=
         "Successfully generated parameters for all Applications";
       ConditionLastTransitionTime := None;
       ConditionStatus := ApplicationSetConditionStatusTrue;
       ConditionReason := ApplicationSetReasonParametersGenerated |}
  else
    {| ConditionType := ApplicationSetConditionParametersGenerated;
       ConditionMessage := message;
       ConditionLastTransitionTime := None;
       ConditionStatus := ApplicationSetConditionStatusFalse;
       ConditionReason := ApplicationSetReasonErrorOccurred |}.

Fixpoint findConditionIndex (conditions : list ApplicationSetCondition)
    (t : string) : option nat :=
  match conditions with
  | [] => None
  | c :: rest =>
      if bool_decide (c.(ConditionType) = t) then Some 0%nat
      else S <$> findConditionIndex rest t
  end.

Definition isEvaluated (evaluatedTypes : gmap string bool) (t : string) : bool :=
  default false (evaluatedTypes !! t).

Definition sameCondition (a b : ApplicationSetCondition) : bool :=
  bool_decide (a.(ConditionType) = b.(ConditionType))
  && bool_decide (a.(ConditionReason) = b.(ConditionReason))
  && bool_decide (a.(ConditionStatus) = b.(ConditionStatus))
  && bool_decide (a.(ConditionMessage) = b.(ConditionMessage)).

(** The record kept for a supplied condition: the prior one of its type when
    message, reason and status are unchanged, the supplied one stamped with
    the time otherwise. *)
Definition keptCondition (now : Time)
    (existing : list ApplicationSetCondition)
    (condition : ApplicationSetCondition) : ApplicationSetCondition :=
  let stamped :=
    {| ConditionType := condition.(ConditionType);
       ConditionMessage := condition.(ConditionMessage);
       ConditionLastTransitionTime :=
         Some (default now condition.(ConditionLastTransitionTime));
       ConditionStatus := condition.(ConditionStatus);
       ConditionReason := condition.(ConditionReason) |} in
  match findConditionIndex existing condition.(ConditionType)
        ≫= (existing !!.) with
  | Some old => if sameCondition old condition then old else stamped
  | None => stamped
  end.

(** Modelled from the spec: [ApplicationSetStatus.SetConditions], declared in
    pkg/apis/application/v1alpha1 and not under src/.  §4.5: the routine
    maintains the set of condition records; a type that is evaluated is
    replaced by the supplied condition of that type and removed when none is
    supplied, a type that is not evaluated keeps its prior records and a
    supplied condition of that type is ignored.  The prior records kept come
    first, in their order, then the supplied conditions in theirs. *)
Definition SetConditions (now : Time)
    (existing conditions : list ApplicationSetCondition)
    (evaluatedTypes : gmap string bool) : list ApplicationSetCondition :=
  filter (λ c, ¬ isEvaluated evaluatedTypes c.(ConditionType)) existing
  ++ (keptCondition now existing
        <$> filter (λ c, isEvaluated evaluatedTypes c.(ConditionType))
              conditions).

(** The loop that sets [needToUpdateConditions], the lengths being equal. *)
Fixpoint conditionsDiffer (conditions previousConditions
    : list ApplicationSetCondition) : bool :=
  match conditions, previousConditions with
  | c :: cs, previous :: ps =>
      negb (sameCondition c previous) || conditionsDiffer cs ps
  | _, _ => false
  end.

Definition needToUpdateConditions (conditions previousConditions
    : list ApplicationSetCondition) : bool :=
  bool_decide (length conditions ≠ length previousConditions)
  || conditionsDiffer conditions previousConditions.

(** [evaluatedTypes] and [newConditions] as they stand before the update. *)
Definition evaluatedConditions (applicationSet : ApplicationSet)
    (condition : ApplicationSetCondition) (parametersGenerated : bool)
  : gmap string bool * list ApplicationSetCondition :=
  let evaluatedTypes0 : gmap string bool :=
    {[ ApplicationSetConditionParametersGenerated := true;
       ApplicationSetConditionErrorOccurred := false;
       ApplicationSetConditionResourcesUpToDate := false;
       ApplicationSetConditionRolloutProgressing := false ]} in
  let evaluatedTypes1 := <[condition.(ConditionType) := true]> evaluatedTypes0 in
  let newConditions0 := [condition] in
  let evaluatedTypes2 :=
    if negb (isRollingSyncStrategy applicationSet)
    then <[ApplicationSetConditionRolloutProgressing := true]> evaluatedTypes1
    else evaluatedTypes1 in
  let newConditions1 :=
    if bool_decide (condition.(ConditionType)
                    ≠ ApplicationSetConditionParametersGenerated)
    then newConditions0
         ++ [getParametersGeneratedCondition parametersGenerated
               condition.(ConditionMessage)]
    else newConditions0 in
  if bool_decide (condition.(ConditionType)
                  = ApplicationSetConditionResourcesUpToDate)
  then
    if bool_decide (condition.(ConditionStatus)
                    = ApplicationSetConditionStatusTrue)
    then (<[ApplicationSetConditionErrorOccurred := true]> evaluatedTypes2,
          newConditions1
          ++ [{| ConditionType := ApplicationSetConditionErrorOccurred;
                 ConditionMessage := condition.(ConditionMessage);
                 ConditionLastTransitionTime := None;
                 ConditionStatus := ApplicationSetConditionStatusFalse;
                 ConditionReason := condition.(ConditionReason) |}])
    else (evaluatedTypes2, newConditions1)
  else if bool_decide (condition.(ConditionType)
                       = ApplicationSetConditionErrorOccurred)
  then
    if bool_decide (condition.(ConditionStatus)
                    = ApplicationSetConditionStatusTrue)
    then (<[ApplicationSetConditionResourcesUpToDate := true]> evaluatedTypes2,
          newConditions1
          ++ [{| ConditionType := ApplicationSetConditionResourcesUpToDate;
                 ConditionMessage := condition.(ConditionMessage);
                 ConditionLastTransitionTime := None;
                 ConditionStatus := ApplicationSetConditionStatusFalse;
                 ConditionReason := ApplicationSetReasonErrorOccurred |}])
    else (evaluatedTypes2, newConditions1)
  else if bool_decide (condition.(ConditionType)
                       = ApplicationSetConditionRolloutProgressing)
  then
    if negb (isRollingSyncStrategy applicationSet)
    then (<[condition.(ConditionType) := false]> evaluatedTypes2, newConditions1)
    else (evaluatedTypes2, newConditions1)
  else (evaluatedTypes2, newConditions1).

(** The function handed to [retry.RetryOnConflict]: the parent is read
    again, its conditions are set and its status is written. *)
Definition conditionUpdateAttempt
    (newConditions : list ApplicationSetCondition)
    (evaluatedTypes : gmap string bool)
  : M (option ApplicationSet * option error) :=
  got ← GetApplicationSet;
  match got with
  | inl err =>
      match IgnoreNotFound err with
      | Some _ => mret (None, None)
      | None =>
          mret (None,
                Some (Wrapped "error fetching updated application set" err))
      end
  | inr updatedAppset =>
      now ← Now;
      let updatedAppset1 :=
        withConditions
          (SetConditions now updatedAppset.(Conditions) newConditions
             evaluatedTypes)
          updatedAppset in
      err ← UpdateStatus updatedAppset1;
      match err with
      | Some e => mret (None, Some e)
      | None => mret (Some updatedAppset1, None)
      end
  end.

Definition setApplicationSetStatusCondition (applicationSet : ApplicationSet)
    (condition : ApplicationSetCondition) (parametersGenerated : bool)
  : M (ApplicationSet * option error) :=
  let '(evaluatedTypes, newConditions) :=
    evaluatedConditions applicationSet condition parametersGenerated in
  let previousConditions := applicationSet.(Conditions) in
  now ← Now;
  let applicationSet1 :=
    withConditions
      (SetConditions now previousConditions newConditions evaluatedTypes)
      applicationSet in
  if negb (needToUpdateConditions applicationSet1.(Conditions)
             previousConditions)
  then mret (applicationSet1, None)
  else
    r ← RetryOnConflict (conditionUpdateAttempt newConditions evaluatedTypes);
    let applicationSet2 := default applicationSet1 r.1 in
    match r.2 with
    | Some err =>
        if negb (IsNotFound err)
        then mret (applicationSet2,
                   Some (Wrapped "unable to set application set condition" err))
        else mret (applicationSet2, None)
    | None => mret (applicationSet2, None)
    end.

(** ** Deletion of the parent *)

Definition Second : Z := 1000000000.
Definition Minute : Z := 60 * Second.

Definition ReverseDeletionOrder : string := "Reverse".
Definition ResourcesFinalizerName : string :=
  "resources-finalizer.argocd.argoproj.io".

Definition lowerAscii (a : ascii) : ascii :=
  let n := nat_of_ascii a in
  if bool_decide (65 ≤ n ≤ 90)%nat then ascii_of_nat (n + 32) else a.

(** The simple case folding of Unicode on the bytes of a UTF-8 string, for
    the code points that fold to an ASCII letter: the letters A to Z fold to
    a to z, U+017F (the long s, bytes C5 BF) folds to s and U+212A (the
    Kelvin sign, bytes E2 84 AA) to k.  Every other byte is kept. *)
Fixpoint foldCase (s : string) : string :=
  match s with
  | "" => ""
  | String a rest =>
      let plain := String (lowerAscii a) (foldCase rest) in
      match rest with
      | "" => plain
      | String b rest1 =>
          if bool_decide (nat_of_ascii a = 197%nat)
             && bool_decide (nat_of_ascii b = 191%nat)
          then String "s" (foldCase rest1)
          else
            match rest1 with
            | "" => plain
            | String c rest2 =>
                if bool_decide (nat_of_ascii a = 226%nat)
                   && bool_decide (nat_of_ascii b = 132%nat)
                   && bool_decide (nat_of_ascii c = 170%nat)
                then String "k" (foldCase rest2)
                else plain
            end
      end
  end.

(** [strings.EqualFold] with one string of ASCII characters, as
    [ReverseDeletionOrder] is: the strings are equal under the simple case
    folding of Unicode.  The only code points outside ASCII that fold to an
    ASCII character are U+017F and U+212A, so no other folding can make a
    string equal to an ASCII one. *)
Definition EqualFold (s t : string) : bool :=
  bool_decide (foldCase s = foldCase t).

Definition isProgressiveSyncDeletionOrderReversed (appset : ApplicationSet)
  : bool :=
  progressiveSyncsRollingSyncStrategyEnabled appset
  && match appset.(Spec).(Strategy) with
     | Some s => EqualFold s.(DeletionOrder) ReverseDeletionOrder
     | None => false
     end.

Definition getCurrentApplications (applicationSet : ApplicationSet)
  : M (error + list Application) :=
  r ← ListApplications applicationSet.(SetMeta).(Name);
  match r with
  | inl err => mret (inl (Wrapped "error retrieving applications" err))
  | inr items => mret (inr items)
  end.

(** The loop of [removeOwnerReferencesOnDeleteAppSet]. *)
Fixpoint removeOwnerReferences (applications : list Application)
  : M (option error) :=
  match applications with
  | [] => mret None
  | app :: rest =>
      err ← UpdateApplication (withMeta app (withOwnerReferences [] app.(Meta)));
      match err with
      | Some e => mret (Some (Wrapped "error updating application" e))
      | None => removeOwnerReferences rest
      end
  end.

Definition removeOwnerReferencesOnDeleteAppSet (applicationSet : ApplicationSet)
  : M (option error) :=
  r ← getCurrentApplications applicationSet;
  match r with
  | inl err =>
      mret (Some (Wrapped
                    "error getting current applications for ApplicationSet" err))
  | inr applications => removeOwnerReferences applications
  end.

Record deleteInOrder := {
  OrderAppName : string;
  OrderStep : Z;
}.

Definition stepLe (a b : deleteInOrder) : Prop := a.(OrderStep) ≤ b.(OrderStep).

#[global] Instance stepLe_dec : RelDecision stepLe.
Proof. intros a b. unfold stepLe. apply _. Defined.

(** [reverseDeleteAppSteps] before it is sorted. *)
Definition reversedSteps (stepLength : Z) (appStepMap : gmap string Z)
  : list deleteInOrder :=
  (λ entry, {| OrderAppName := entry.1;
               OrderStep := stepLength - entry.2 - 1 |})
    <$> map_to_list appStepMap.

(** What Go leaves open, the order of the map iteration and of equal steps
    under [sort.Slice]: any arrangement of the entries with ascending
    [Step]. *)
Definition reverseDeletionOrder (stepLength : Z) (appStepMap : gmap string Z)
    (order : list deleteInOrder) : Prop :=
  order ≡ₚ reversedSteps stepLength appStepMap ∧ Sorted stepLe order.

Definition zeroApplication : Application :=
  {| Meta := {| Name := ""; Namespace := ""; Labels := ∅; Annotations := ∅;
                Finalizers := []; OwnerReferences := [];
                DeletionTimestamp := None |};
     AppSpec := ""; Operation := None; HealthStatus := ""; SyncStatus := "";
     OpState := None; Revisions := None |}.

(** The end of the loop body, from the check of the deletion timestamp. *)
Definition deleteRetrieved (requeueTime : Z) (retrievedApp : Application)
  : M (Z * option error) :=
  now ← Now;
  if match retrievedApp.(Meta).(DeletionTimestamp) with
     | Some t => bool_decide (now - t > 2 * Minute)
     | None => false
     end
  then mret (0, Some (Failure "application has not been deleted in over 2 minutes"))
  else
    err ← DeleteApplication (appName retrievedApp);
    match err with
    | Some e => mret (0, Some e)
    | None => mret (requeueTime, None)
    end.

(** The loop over [reverseDeleteAppSteps]. *)
Fixpoint reverseDeletionWalk (requeueTime : Z)
    (appMap : gmap string Application) (order : list deleteInOrder)
  : M (Z * option error) :=
  match order with
  | [] => mret (0, None)
  | step :: rest =>
      match appMap !! step.(OrderAppName) with
      | None => mret (0, Some (Panic "nil pointer dereference"))
      | Some app =>
          got ← GetApplication (appName app);
          match got with
          | inl err =>
              if IsNotFound err
              then reverseDeletionWalk requeueTime appMap rest
              else deleteRetrieved requeueTime zeroApplication
          | inr retrievedApp => deleteRetrieved requeueTime retrievedApp
          end
      end
  end.

Definition applicationsByName (apps : list Application)
  : gmap string Application :=
  foldl (λ m app, <[appName app := app]> m) ∅ apps.

(** [performReverseDeletion] once the order of the walk is fixed. *)
Definition performReverseDeletionIn (order : list deleteInOrder)
    (currentApps : list Application) : M (Z * option error) :=
  reverseDeletionWalk (10 * Second) (applicationsByName currentApps) order.

Definition performReverseDeletion (appset : ApplicationSet)
    (currentApps : list Application) : M (Z * option error) :=
  let stepLength := Z.of_nat (length (rollingSyncSteps appset)) in
  let appStepMap := (buildAppDependencyList appset currentApps).2 in
  performReverseDeletionIn
    (merge_sort stepLe (reversedSteps stepLength appStepMap)) currentApps.

Record Result := { RequeueAfter : Z }.

Definition RemoveFinalizer (appset : ApplicationSet) (finalizer : string)
  : ApplicationSet :=
  {| SetMeta :=
       withFinalizers
         (filter (λ f, f ≠ finalizer) appset.(SetMeta).(Finalizers))
         appset.(SetMeta);
     Spec := appset.(Spec); Conditions := appset.(Conditions);
     ApplicationStatus := appset.(ApplicationStatus) |}.

(** The block of [Reconcile] guarded by [DeletionTimestamp != nil].
    [deleteAllowed] is the value of
    [utils.DefaultPolicy(...).AllowDelete()]. *)
Definition reconcileDeletion (deleteAllowed : bool)
    (applicationSetInfo : ApplicationSet) : M (Result * option error) :=
  err ← (if negb deleteAllowed
         then removeOwnerReferencesOnDeleteAppSet applicationSetInfo
         else mret None);
  match err with
  | Some e => mret ({| RequeueAfter := 0 |}, Some e)
  | None =>
      r ← (if isProgressiveSyncDeletionOrderReversed applicationSetInfo
           then
             current ← getCurrentApplications applicationSetInfo;
             match current with
             | inl e => mret (0, Some e)
             | inr currentApplications =>
                 performReverseDeletion applicationSetInfo currentApplications
             end
           else mret (0, None));
      match r.2 with
      | Some e => mret ({| RequeueAfter := 0 |}, Some e)
      | None =>
          if bool_decide (r.1 > 0)
          then mret ({| RequeueAfter := r.1 |}, None)
          else
            err ← UpdateApplicationSet
                    (RemoveFinalizer applicationSetInfo ResourcesFinalizerName);
            mret ({| RequeueAfter := 0 |}, err)
      end
  end.

(** ** Creating, updating and deleting children *)

Record ClusterSpecifier := {
  ClusterName : string;
  Server : string;
}.

Section Materializer.
(** [utils.CreateOrUpdate] applied to the mutation of
    [createOrUpdateInCluster]: the action taken and the error. *)
Variable CreateOrUpdate :
  ApplicationSet → Application → M (string * option error).
(** [utils.ListClusters]. *)
Variable ListClusters : M (error + list ClusterSpecifier).
(** [argoutil.GetDestinationCluster] on the destination of a spec. *)
Variable GetDestinationCluster : string → error + ClusterSpecifier.

(** The loop of [createOrUpdateInCluster]. *)
Fixpoint createOrUpdateLoop (applicationSet : ApplicationSet)
    (desiredApplications : list Application) (firstError : option error)
  : M (option error) :=
  match desiredApplications with
  | [] => mret firstError
  | generatedApp :: rest =>
      r ← CreateOrUpdate applicationSet generatedApp;
      match r.2 with
      | Some err =>
          createOrUpdateLoop applicationSet rest
            (match firstError with None => Some err | Some _ => firstError end)
      | None => createOrUpdateLoop applicationSet rest firstError
      end
  end.

Definition createOrUpdateInCluster (applicationSet : ApplicationSet)
    (desiredApplications : list Application) : M (option error) :=
  createOrUpdateLoop applicationSet desiredApplications None.

Definition removeFinalizerOnInvalidDestination (app : Application)
    (clusterList : list ClusterSpecifier) : M (Application * option error) :=
  if bool_decide (length app.(Meta).(Finalizers) = 0%nat)
  then mret (app, None)
  else
    let validDestination :=
      match GetDestinationCluster app.(AppSpec) with
      | inl _ => false
      | inr destCluster =>
          existsb (λ cluster,
                     bool_decide (destCluster.(Server) = cluster.(Server))
                     && bool_decide (destCluster.(ClusterName)
                                     = cluster.(ClusterName)))
                  clusterList
      end in
    if negb validDestination then
      let newFinalizers :=
        filter (λ f, f ≠ ResourcesFinalizerName) app.(Meta).(Finalizers) in
      if bool_decide (length newFinalizers ≠ length app.(Meta).(Finalizers))
      then
        let updated := withMeta app (withFinalizers newFinalizers app.(Meta)) in
        err ← PatchApplication updated;
        match err with
        | Some e => mret (app, Some (Wrapped "error updating finalizers" e))
        | None => mret (updated, None)
        end
      else mret (app, None)
    else mret (app, None).

(** The loop of [deleteInCluster] over [current]; [m] holds the desired
    names. *)
Fixpoint deleteLoop (m : gset string) (clusterList : list ClusterSpecifier)
    (current : list Application) (firstError : option error)
  : M (option error) :=
  match current with
  | [] => mret firstError
  | app :: rest =>
      if bool_decide (appName app ∈ m)
      then deleteLoop m clusterList rest firstError
      else
        r ← removeFinalizerOnInvalidDestination app clusterList;
        match r.2 with
        | Some err =>
            deleteLoop m clusterList rest
              (match firstError with Some _ => Some err | None => firstError end)
        | None =>
            err ← DeleteApplication (appName r.1);
            match err with
            | Some e =>
                deleteLoop m clusterList rest
                  (match firstError with Some _ => Some e | None => firstError end)
            | None => deleteLoop m clusterList rest firstError
            end
        end
  end.

Definition deleteInCluster (applicationSet : ApplicationSet)
    (desiredApplications : list Application) : M (option error) :=
  listed ← ListClusters;
  match listed with
  | inl err => mret (Some (Wrapped "error listing clusters" err))
  | inr clusterList =>
      r ← getCurrentApplications applicationSet;
      match r with
      | inl err =>
          mret (Some (Wrapped "error getting current applications" err))
      | inr current =>
          deleteLoop (list_to_set (appName <$> desiredApplications))
            clusterList current None
      end
  end.
End Materializer.

(** ** Watch predicate of the parent *)

Definition AnnotationApplicationSetRefresh : string :=
  "argocd.argoproj.io/application-set-refresh".

(** [cmp.Equal] with [cmpopts.EquateEmpty] on two entries of the status
    list: a nil and an empty [TargetRevisions] are equal. *)
Definition applicationStatusEqual (a b : ApplicationSetApplicationStatus)
  : bool :=
  bool_decide (a.(AppName) = b.(AppName))
  && bool_decide (a.(LastTransitionTime) = b.(LastTransitionTime))
  && bool_decide (a.(Message) = b.(Message))
  && bool_decide (a.(Status) = b.(Status))
  && bool_decide (a.(Step) = b.(Step))
  && bool_decide (default [] a.(TargetRevisions) = default [] b.(TargetRevisions)).

Fixpoint applicationStatusesEqual
    (xs ys : list ApplicationSetApplicationStatus) : bool :=
  match xs, ys with
  | [], [] => true
  | x :: xs', y :: ys' =>
      applicationStatusEqual x y && applicationStatusesEqual xs' ys'
  | _, _ => false
  end.

Definition shouldRequeueForApplicationSet
    (appSetOld appSetNew : option ApplicationSet)
    (enableProgressiveSyncs : bool) : bool :=
  match appSetOld, appSetNew with
  | Some appSetOld, Some appSetNew =>
      if enableProgressiveSyncs
         && negb (applicationStatusesEqual appSetOld.(ApplicationStatus)
                    appSetNew.(ApplicationStatus))
      then true
      else if negb (bool_decide (appSetOld.(Spec) = appSetNew.(Spec)))
              || negb (bool_decide (appSetOld.(SetMeta).(Labels)
                                    = appSetNew.(SetMeta).(Labels)))
              || negb (bool_decide (appSetOld.(SetMeta).(Finalizers)
                                    = appSetNew.(SetMeta).(Finalizers)))
              || negb (bool_decide (appSetOld.(SetMeta).(DeletionTimestamp)
                                    = appSetNew.(SetMeta).(DeletionTimestamp)))
      then true
      else if negb (bool_decide (appSetOld.(SetMeta).(Annotations)
                                 = appSetNew.(SetMeta).(Annotations)))
      then
        let oldHasRefreshAnnotation :=
          bool_decide (is_Some (appSetOld.(SetMeta).(Annotations)
                                !! AnnotationApplicationSetRefresh)) in
        let newHasRefreshAnnotation :=
          bool_decide (is_Some (appSetNew.(SetMeta).(Annotations)
                                !! AnnotationApplicationSetRefresh)) in
        if oldHasRefreshAnnotation && negb newHasRefreshAnnotation
        then false else true
      else false
  | _, _ => false
  end.

(** ** Sample objects *)

Definition sampleMeta (name : string) : ObjectMeta :=
  {| Name := name; Namespace := "argocd"; Labels := ∅; Annotations := ∅;
     Finalizers := []; OwnerReferences := ["fleet"];
     DeletionTimestamp := None |}.

Definition sampleApp (name health sync : string) (labels : gmap string string)
  : Application :=
  {| Meta := {| Name := name; Namespace := "argocd"; Labels := labels;
                Annotations := ∅; Finalizers := [];
                OwnerReferences := ["fleet"]; DeletionTimestamp := None |};
     AppSpec := "in-cluster"; Operation := None;
     HealthStatus := health; SyncStatus := sync;
     OpState := None; Revisions := Some ["abc"] |}.

Definition withPhase (phase : string) (app : Application) : Application :=
  {| Meta := app.(Meta); AppSpec := app.(AppSpec);
     Operation := app.(Operation); HealthStatus := app.(HealthStatus);
     SyncStatus := app.(SyncStatus);
     OpState := Some {| Phase := phase; StartedAt := 0 |};
     Revisions := app.(Revisions) |}.

Definition sampleEntry (name status step : string)
  : ApplicationSetApplicationStatus :=
  {| AppName := name; LastTransitionTime := Some 0; Message := "";
     Status := status; Step := step; TargetRevisions := Some ["abc"] |}.

Definition sampleStep (key : string) (values : list string)
    (maxUpdate : option IntOrString) : ApplicationSetRolloutStep :=
  {| MatchExpressions :=
       [{| Key := key; Operator := "In"; Values := values |}];
     MaxUpdate := maxUpdate |}.

Definition sampleSet (order : string) (steps : list ApplicationSetRolloutStep)
    (statuses : list ApplicationSetApplicationStatus) : ApplicationSet :=
  {| SetMeta := {| Name := "fleet"; Namespace := "argocd"; Labels := ∅;
                   Annotations := ∅;
                   Finalizers := [ResourcesFinalizerName];
                   OwnerReferences := []; DeletionTimestamp := Some 0 |};
     Spec := {| Strategy :=
                  Some {| StrategyType := "RollingSync";
                          RollingSync := Some {| Steps := steps |};
                          DeletionOrder := order |};
                SpecRest := "" |};
     Conditions := [];
     ApplicationStatus := statuses |}.

Definition envStep : ApplicationSetRolloutStep :=
  sampleStep "env" ["dev"] None.

Definition cappedStep : ApplicationSetRolloutStep :=
  sampleStep "env" ["dev"] (Some {| Kind := Int; IntVal := 1; StrVal := "" |}).

Definition sampleStepMap : gmap string Z := {[ "a" := 0; "b" := 0; "c" := 0 ]}.

Definition sampleSyncMap : gmap string bool :=
  {[ "a" := true; "b" := true; "c" := true ]}.

(** A step whose only expression has an operator that is neither [In] nor
    [NotIn]. *)
Definition existsStep : ApplicationSetRolloutStep :=
  {| MatchExpressions :=
       [{| Key := "env"; Operator := "Exists"; Values := [] |}];
     MaxUpdate := None |}.

Definition sampleWorld (p : option ApplicationSet) (apps : list Application)
    (fs : list (option Fault)) : World :=
  {| parent := p;
     children := list_to_map ((λ app, (appName app, app)) <$> apps);
     clock := 100 * Minute; faults := fs; writes := [] |}.

Definition sampleCondition (type status reason message : string)
  : ApplicationSetCondition :=
  {| ConditionType := type; ConditionMessage := message;
     ConditionLastTransitionTime := None; ConditionStatus := status;
     ConditionReason := reason |}.

(** A parent without a strategy. *)
Definition plainSet (conditions : list ApplicationSetCondition) : ApplicationSet :=
  {| SetMeta := {| Name := "fleet"; Namespace := "argocd"; Labels := ∅;
                   Annotations := ∅;
                   Finalizers := [ResourcesFinalizerName];
                   OwnerReferences := []; DeletionTimestamp := None |};
     Spec := {| Strategy := None; SpecRest := "" |};
     Conditions := conditions;
     ApplicationStatus := [] |}.

Definition noAnnotations : gmap string string := ∅.

Definition refreshAnnotation : gmap string string :=
  {[ "argocd.argoproj.io/application-set-refresh" := "true" ]}.

Definition annotatedSet (annotations : gmap string string) : ApplicationSet :=
  {| SetMeta := {| Name := "fleet"; Namespace := "argocd"; Labels := ∅;
                   Annotations := annotations;
                   Finalizers := [ResourcesFinalizerName];
                   OwnerReferences := []; DeletionTimestamp := None |};
     Spec := {| Strategy := None; SpecRest := "" |};
     Conditions := [];
     ApplicationStatus := [] |}.

Definition devLabel : gmap string string := {[ "env" := "dev" ]}.
Definition prodLabel : gmap string string := {[ "env" := "prod" ]}.
Definition noLabels : gmap string string := ∅.

Definition prodStep : ApplicationSetRolloutStep :=
  sampleStep "env" ["prod"] None.

Definition markedApp (name : string) (labels : gmap string string)
    (t : Time) : Application :=
  {| Meta := {| Name := name; Namespace := "argocd"; Labels := labels;
                Annotations := ∅; Finalizers := [ResourcesFinalizerName];
                OwnerReferences := ["fleet"]; DeletionTimestamp := Some t |};
     AppSpec := "in-cluster"; Operation := None;
     HealthStatus := "Healthy"; SyncStatus := "Synced";
     OpState := None; Revisions := Some ["abc"] |}.

(** ** Vocabulary of the statements *)

(** The status of the recorded entry once the revisions are compared. *)
Definition startStatus (applicationSet : ApplicationSet) (app : Application)
  : string :=
  match recordedStatus applicationSet.(ApplicationStatus) (appName app) with
  | Some e =>
      if bool_decide (e.(TargetRevisions) ≠ app.(Revisions))
      then "Waiting" else e.(Status)
  | None => "Waiting"
  end.

(** The final status from the one the comparison of revisions leaves. *)
Definition statusCascade (outdated : bool) (start : string) (app : Application)
  : string :=
  let s2 :=
    if outdated && bool_decide (start ≠ "Waiting")
       && bool_decide (start ≠ "Pending")
    then "Waiting" else start in
  let s3 :=
    if bool_decide (s2 = "Pending")
       && ((negb outdated && bool_decide ((statusStrings app).2 = "Succeeded"))
           || bool_decide ((statusStrings app).2 = "Running")
           || bool_decide (app.(HealthStatus) = "Progressing"))
    then "Progressing" else s2 in
  let s4 :=
    if bool_decide (s3 = "Waiting") && isApplicationHealthy app
    then app.(HealthStatus) else s3 in
  if bool_decide (s4 = "Progressing") && isApplicationHealthy app
  then app.(HealthStatus) else s4.

(** The entries that the promotion pass counts for step [i], and those of
    them that are Pending or Progressing.  The pass reads the step of an
    entry from the step map, where a name without a step reads as the first
    step. *)
Definition inStep (appStepMap : gmap string Z) (i : nat)
    (appStatus : ApplicationSetApplicationStatus) : bool :=
  bool_decide (stepIndex appStepMap appStatus.(AppName) = Z.of_nat i).

Definition totalCount (appStepMap : gmap string Z) (i : nat)
    (statuses : list ApplicationSetApplicationStatus) : Z :=
  Z.of_nat (length (filter (λ s, inStep appStepMap i s) statuses)).

Definition inFlightCount (appStepMap : gmap string Z) (i : nat)
    (statuses : list ApplicationSetApplicationStatus) : Z :=
  Z.of_nat (length (filter (λ s, inStep appStepMap i s && inFlight s)
                      statuses)).

(** The first step from [i] on that the loop of [buildAppDependencyList]
    selects for the labels. *)
Fixpoint firstSelected (labels : gmap string string) (i : nat)
    (steps : list ApplicationSetRolloutStep) : option nat :=
  match steps with
  | [] => None
  | step :: rest =>
      if stepSelects labels step.(MatchExpressions) then Some i
      else firstSelected labels (S i) rest
  end.

(** Step assignment as §4.4.1 words it: [In] matches iff the key exists and
    its value is allowed, [NotIn] iff the key is absent or its value is not
    excluded, any other operator makes the expression non-matching; the
    expressions of a step are ANDed and the first matching step wins. *)
Definition specExpressionMatches (labels : gmap string string)
    (e : ApplicationMatchExpression) : bool :=
  if bool_decide (e.(Operator) = "In") then
    match labels !! e.(Key) with
    | Some val => bool_decide (val ∈ e.(Values))
    | None => false
    end
  else if bool_decide (e.(Operator) = "NotIn") then
    match labels !! e.(Key) with
    | Some val => bool_decide (val ∉ e.(Values))
    | None => true
    end
  else false.

Definition specStepMatches (labels : gmap string string)
    (step : ApplicationSetRolloutStep) : bool :=
  forallb (specExpressionMatches labels) step.(MatchExpressions).

Fixpoint specFirstStep (labels : gmap string string) (n : Z)
    (steps : list ApplicationSetRolloutStep) : Z :=
  match steps with
  | [] => -1
  | step :: rest =>
      if specStepMatches labels step then n
      else specFirstStep labels (n + 1) rest
  end.

Definition specStep (applicationSet : ApplicationSet)
    (labels : gmap string string) : Z :=
  if progressiveSyncsRollingSyncStrategyEnabled applicationSet
  then specFirstStep labels 1 (rollingSyncSteps applicationSet)
  else -1.

Definition validOperator (e : ApplicationMatchExpression) : Prop :=
  e.(Operator) = "In" ∨ e.(Operator) = "NotIn".

(** The step map after the loop over the applications. *)
Definition assignedStepMap (steps : list ApplicationSetRolloutStep)
    (applications : list Application) (acc : list (list string) * gmap string Z)
  : gmap string Z :=
  (foldl (λ acc app, assignApp app 0 steps acc) acc applications).2.

(** A call that left the store, the clock and the trace alone. *)
Definition sameStore (w w' : World) : Prop :=
  w'.(parent) = w.(parent) ∧ w'.(children) = w.(children)
  ∧ w'.(clock) = w.(clock) ∧ w'.(writes) = w.(writes).

(** The outcome of the attempts to write a status: nothing was written, or
    one status update, of a parent that satisfies [P], was traced and
    stored. *)
Definition writtenOnce (P : ApplicationSet → Prop) (w : World)
    (r : option ApplicationSet * option error) (w' : World) : Prop :=
  (r.1 = None ∧ sameStore w w')
  ∨ (∃ a p, r = (Some a, None) ∧ P a
      ∧ w'.(writes) = w.(writes) ++ [WUpdateStatus a]
      ∧ w'.(parent) = Some p
      ∧ p.(ApplicationStatus) = a.(ApplicationStatus)
      ∧ p.(Conditions) = a.(Conditions)).

(** The supplied entry agrees with the recorded entry of its application. *)
Definition recordedAlike (recorded : list ApplicationSetApplicationStatus)
    (s : ApplicationSetApplicationStatus) : Prop :=
  ∃ c, recordedStatus recorded s.(AppName) = Some c
       ∧ c.(Status) = s.(Status) ∧ c.(Message) = s.(Message)
       ∧ c.(Step) = s.(Step).

(** The prior condition that [findConditionIndex] selects. *)
Definition findCondition (conditions : list ApplicationSetCondition)
    (t : string) : option ApplicationSetCondition :=
  findConditionIndex conditions t ≫= (conditions !!.).

(** Equal in the four fields that the routine compares. *)
Definition sameFields (a b : ApplicationSetCondition) : Prop :=
  a.(ConditionType) = b.(ConditionType)
  ∧ a.(ConditionReason) = b.(ConditionReason)
  ∧ a.(ConditionStatus) = b.(ConditionStatus)
  ∧ a.(ConditionMessage) = b.(ConditionMessage).


(** The parent that an attempt writes: the stored one with the conditions
    set. *)
Definition conditionsSetOn (newConditions : list ApplicationSetCondition)
    (evaluatedTypes : gmap string bool) (w : World) (a : ApplicationSet)
  : Prop :=
  ∃ now stored,
    w.(parent) = Some stored
    ∧ a = withConditions
            (SetConditions now stored.(Conditions) newConditions evaluatedTypes)
            stored.

(** The first entry of the walk whose application is still in the store,
    as the store holds it. *)
Fixpoint firstLive (cs : gmap string Application)
    (appMap : gmap string Application) (order : list deleteInOrder)
  : option Application :=
  match order with
  | [] => None
  | step :: rest =>
      match appMap !! step.(OrderAppName) ≫= (λ app, cs !! appName app) with
      | Some live => Some live
      | None => firstLive cs appMap rest
      end
  end.

(** Marked for deletion more than two minutes before [now]. *)
Definition deletionOverdue (now : Time) (app : Application) : Prop :=
  ∃ t, app.(Meta).(DeletionTimestamp) = Some t ∧ now - t > 2 * Minute.

(** Every child is stored under its own name. *)
Definition storeNamed (w : World) : Prop :=
  ∀ name app, w.(children) !! name = Some app → appName app = name.

(** Every desired child is handed to [CreateOrUpdate] in turn, whatever the
    earlier ones returned; the errors are collected in that order. *)
Fixpoint createOrUpdateAll
    (CreateOrUpdate : ApplicationSet → Application → M (string * option error))
    (applicationSet : ApplicationSet) (desiredApplications : list Application)
  : M (list error) :=
  match desiredApplications with
  | [] => mret []
  | generatedApp :: rest =>
      r ← CreateOrUpdate applicationSet generatedApp;
      errs ← createOrUpdateAll CreateOrUpdate applicationSet rest;
      mret (match r.2 with Some err => err :: errs | None => errs end)
  end.

(** A materializer whose cluster list is empty and whose destinations all
    resolve, and one that fails on the child named [bad]. *)
Definition noClusters : M (error + list ClusterSpecifier) := mret (inr []).

Definition inCluster (_ : string) : error + ClusterSpecifier :=
  inr {| ClusterName := "in-cluster";
         Server := "https://kubernetes.default.svc" |}.

Definition failingOn (bad : string) (_ : ApplicationSet) (app : Application)
  : M (string * option error) :=
  if bool_decide (appName app = bad)
  then mret ("unchanged", Some (Failure "rejected"))
  else mret ("created", None).

(** Evaluate the comparisons of string literals in the goal. *)
Ltac literals :=
  repeat match goal with
  | |- context [bool_decide ?P] =>
      let v := eval vm_compute in (bool_decide P) in
      match v with
      | true => change (bool_decide P) with true
      | false => change (bool_decide P) with false
      end
  end;
  cbn [andb orb negb].


(** ** Which steps may sync *)

Definition appSyncEnabledForNextStep (appset : ApplicationSet)
    (app : Application) (appStatus : ApplicationSetApplicationStatus) : bool :=
  if progressiveSyncsRollingSyncStrategyEnabled appset
  then isApplicationHealthy app && bool_decide (appStatus.(Status) = "Healthy")
  else true.

(** The second inner loop of [buildAppSyncMap] over the names of one step:
    the value of [syncEnabled] when the loop is left.  A name without a
    recorded status or without an application clears it and leaves the
    loop, and so does the first application that is not ready. *)
Fixpoint haltBeforeNextStep (applicationSet : ApplicationSet)
    (appMap : gmap string Application) (names : list string)
    (syncEnabled : bool) : bool :=
  match names with
  | [] => syncEnabled
  | name :: rest =>
      match recordedStatus applicationSet.(ApplicationStatus) name with
      | None => false
      | Some appStatus =>
          match appMap !! name with
          | None => false
          | Some app =>
              let syncEnabled' :=
                appSyncEnabledForNextStep applicationSet app appStatus in
              if negb syncEnabled' then false
              else haltBeforeNextStep applicationSet appMap rest syncEnabled'
          end
      end
  end.

(** The outer loop of [buildAppSyncMap] from one step on. *)
Fixpoint buildAppSyncMapFrom (applicationSet : ApplicationSet)
    (appMap : gmap string Application) (appDependencyList : list (list string))
    (syncEnabled : bool) (appSyncMap : gmap string bool) : gmap string bool :=
  match appDependencyList with
  | [] => appSyncMap
  | names :: rest =>
      let appSyncMap' :=
        foldl (λ m name, <[name := syncEnabled]> m) appSyncMap names in
      buildAppSyncMapFrom applicationSet appMap rest
        (haltBeforeNextStep applicationSet appMap names syncEnabled)
        appSyncMap'
  end.

Definition buildAppSyncMap (applicationSet : ApplicationSet)
    (appDependencyList : list (list string))
    (appMap : gmap string Application) : gmap string bool :=
  buildAppSyncMapFrom applicationSet appMap appDependencyList true ∅.

(** ** Watch predicate of the children *)

(** [cmp.Equal] with [cmpopts.EquateEmpty] is the equality of the model: a
    nil and an empty map, or slice, are one value here. *)
Definition shouldRequeueForApplication (appOld appNew : option Application)
    (enableProgressiveSyncs : bool) : bool :=
  match appOld, appNew with
  | Some appOld, Some appNew =>
      if negb (bool_decide (appOld.(AppSpec) = appNew.(AppSpec)))
         || negb (bool_decide (appOld.(Meta).(Annotations)
                               = appNew.(Meta).(Annotations)))
         || negb (bool_decide (appOld.(Meta).(Labels)
                               = appNew.(Meta).(Labels)))
         || negb (bool_decide (appOld.(Meta).(Finalizers)
                               = appNew.(Meta).(Finalizers)))
      then true
      else if enableProgressiveSyncs then
        if bool_decide (appOld.(HealthStatus) ≠ appNew.(HealthStatus))
           || bool_decide (appOld.(SyncStatus) ≠ appNew.(SyncStatus))
        then true
        else
          match appOld.(OpState), appNew.(OpState) with
          | Some stateOld, Some stateNew =>
              if bool_decide (stateOld.(Phase) ≠ stateNew.(Phase))
                 || bool_decide (stateOld.(StartedAt) ≠ stateNew.(StartedAt))
              then true else false
          | _, _ => false
          end
      else false
  | _, _ => false
  end.

(** ** Requeue interval of the generators *)

Section Generators.
(** A generator as the spec requests it, and one that is registered. *)
Variables (ApplicationSetGenerator Generator : Type).
(** [applicationSetInfo.Spec.Generators], held in the opaque part of the
    spec. *)
Variable SpecGenerators : ApplicationSetSpec → list ApplicationSetGenerator.
(** [generators.GetRelevantGenerators] against [r.Generators]. *)
Variable GetRelevantGenerators : ApplicationSetGenerator → list Generator.
(** [g.GetRequeueAfter]. *)
Variable GetRequeueAfter : Generator → ApplicationSetGenerator → Z.

(** The body of the inner loop: [res] after one [t]. *)
Definition minRequeueAfter (res t : Z) : Z :=
  if bool_decide (res = 0) then t
  else if bool_decide (t ≠ 0) && bool_decide (t < res) then t
  else res.

Definition getMinRequeueAfter (applicationSetInfo : ApplicationSet) : Z :=
  foldl (λ res requestedGenerator,
           foldl (λ res g,
                    minRequeueAfter res (GetRequeueAfter g requestedGenerator))
                 res (GetRelevantGenerators requestedGenerator))
        0 (SpecGenerators applicationSetInfo.(Spec)).
End Generators.

Arguments getMinRequeueAfter {_ _} _ _ _ _.

(** ** Validation of the generated applications *)

Section Validation.
(** [app.QualifiedName()]. *)
Variable QualifiedName : Application → string.
(** [app.Spec.Project], read from the spec. *)
Variable Project : string → string.
(** [r.Get] of the project of that name in the Argo CD namespace. *)
Variable GetAppProject : string → M (option error).
(** [argoutil.GetDestinationCluster] on the destination of a spec. *)
Variable GetDestinationCluster : string → error + ClusterSpecifier.
(** [err.Error()]. *)
Variable Error : error → string.

(** The loop of [validateGeneratedApplications]; [inl] is the error
    returned with a nil map. *)
Fixpoint validateLoop (applicationSetInfo : ApplicationSet)
    (desiredApplications : list Application)
    (errorsByApp : gmap string error) (namesSet : gset string)
  : M (error + gmap string error) :=
  match desiredApplications with
  | [] => mret (inr errorsByApp)
  | app :: rest =>
      if bool_decide (appName app ∈ namesSet)
      then
        validateLoop applicationSetInfo rest
          (<[QualifiedName app :=
               Failure ("ApplicationSet " ++ applicationSetInfo.(SetMeta).(Name)
                        ++ " contains applications with duplicate name: "
                        ++ appName app)]> errorsByApp)
          namesSet
      else
        let namesSet' := {[appName app]} ∪ namesSet in
        err ← GetAppProject (Project app.(AppSpec));
        match err with
        | Some e =>
            if IsNotFound e
            then
              validateLoop applicationSetInfo rest
                (<[QualifiedName app :=
                     Failure ("application references project "
                              ++ Project app.(AppSpec)
                              ++ " which does not exist")]> errorsByApp)
                namesSet'
            else mret (inl e)
        | None =>
            match GetDestinationCluster app.(AppSpec) with
            | inl e =>
                validateLoop applicationSetInfo rest
                  (<[QualifiedName app :=
                       Failure ("application destination spec is invalid: "
                                ++ Error e)]> errorsByApp)
                  namesSet'
            | inr _ =>
                validateLoop applicationSetInfo rest errorsByApp namesSet'
            end
        end
  end.

Definition validateGeneratedApplications
    (desiredApplications : list Application)
    (applicationSetInfo : ApplicationSet) : M (error + gmap string error) :=
  validateLoop applicationSetInfo desiredApplications ∅ ∅.

(** The loop of [Reconcile] that keeps the generated applications for which
    [validateErrors] holds no error. *)
Definition validApplications (validateErrors : gmap string error)
    (generatedApplications : list Application) : list Application :=
  filter (λ app, validateErrors !! QualifiedName app = None)
         generatedApplications.
End Validation.

(** ** The RolloutProgressing condition *)

Definition ApplicationSetReasonApplicationSetModified : string :=
  "ApplicationSetModified".
Definition ApplicationSetReasonApplicationSetRolloutComplete : string :=
  "ApplicationSetRolloutComplete".

(** The first loop of [updateApplicationSetApplicationStatusConditions]:
    a step is completed while every entry recorded for it is Healthy. *)
Definition completedWaves (statuses : list ApplicationSetApplicationStatus)
  : gmap string bool :=
  foldl (λ waves appStatus,
           match waves !! appStatus.(Step) with
           | None =>
               <[appStatus.(Step) :=
                   bool_decide (appStatus.(Status) = "Healthy")]> waves
           | Some v =>
               <[appStatus.(Step) :=
                   v && bool_decide (appStatus.(Status) = "Healthy")]> waves
           end)
        ∅ statuses.

(** The second loop, from the step of index [i] on: the step it stops at
    ([isProgressing] with [progressingStep]), if any. *)
Fixpoint progressingStepFrom (waves : gmap string bool) (i : nat)
    (steps : list ApplicationSetRolloutStep) : option string :=
  match steps with
  | [] => None
  | _ :: rest =>
      let step := Itoa (Z.of_nat i + 1) in
      match waves !! step with
      | None => progressingStepFrom waves (S i) rest
      | Some isCompleted =>
          if negb isCompleted then Some step
          else progressingStepFrom waves (S i) rest
      end
  end.

Definition progressingStep (applicationSet : ApplicationSet) : option string :=
  progressingStepFrom (completedWaves applicationSet.(ApplicationStatus)) 0
    (rollingSyncSteps applicationSet).

(** The condition handed to [setApplicationSetStatusCondition]. *)
Definition rolloutCondition (applicationSet : ApplicationSet)
  : ApplicationSetCondition :=
  match progressingStep applicationSet with
  | Some step =>
      {| ConditionType := ApplicationSetConditionRolloutProgressing;
         ConditionMessage :=
           "ApplicationSet is performing rollout of step " ++ step;
         ConditionLastTransitionTime := None;
         ConditionStatus := ApplicationSetConditionStatusTrue;
         ConditionReason := ApplicationSetReasonApplicationSetModified |}
  | None =>
      {| ConditionType := ApplicationSetConditionRolloutProgressing;
         ConditionMessage := "ApplicationSet Rollout has completed";
         ConditionLastTransitionTime := None;
         ConditionStatus := ApplicationSetConditionStatusFalse;
         ConditionReason :=
           ApplicationSetReasonApplicationSetRolloutComplete |}
  end.

(** The error of the call is dropped; the conditions of the parent as the
    call left it are returned. *)
Definition updateApplicationSetApplicationStatusConditions
    (applicationSet : ApplicationSet)
  : M (ApplicationSet * list ApplicationSetCondition) :=
  if negb (isRollingSyncStrategy applicationSet)
  then mret (applicationSet, applicationSet.(Conditions))
  else
    r ← setApplicationSetStatusCondition applicationSet
          (rolloutCondition applicationSet) true;
    mret (r.1, r.1.(Conditions)).

(** ** Migration of the status *)

Definition withTargetRevisions (revisions : option (list string))
    (s : ApplicationSetApplicationStatus) : ApplicationSetApplicationStatus :=
  {| AppName := s.(AppName); LastTransitionTime := s.(LastTransitionTime);
     Message := s.(Message); Status := s.(Status); Step := s.(Step);
     TargetRevisions := revisions |}.

(** The loop of [migrateStatus]: the list it leaves in the parent and the
    value of [update]. *)
Fixpoint migrateTargetRevisions
    (statusList : list ApplicationSetApplicationStatus) (update : bool)
  : list ApplicationSetApplicationStatus * bool :=
  match statusList with
  | [] => ([], update)
  | s :: rest =>
      match s.(TargetRevisions) with
      | None =>
          let r := migrateTargetRevisions rest true in
          (withTargetRevisions (Some []) s :: r.1, r.2)
      | Some _ =>
          let r := migrateTargetRevisions rest update in
          (s :: r.1, r.2)
      end
  end.

(** The function handed to [retry.RetryOnConflict] is the one of
    [setAppSetApplicationStatus]. *)
Definition migrateStatus (appset : ApplicationSet)
  : M (ApplicationSet * option error) :=
  let '(statusList, update) :=
    migrateTargetRevisions appset.(ApplicationStatus) false in
  let appset1 := withApplicationStatus statusList appset in
  if update then
    r ← RetryOnConflict (statusUpdateAttempt appset1.(ApplicationStatus));
    let appset2 := default appset1 r.1 in
    match r.2 with
    | Some err =>
        if negb (IsNotFound err)
        then mret (appset2,
                   Some (Wrapped "unable to set application set condition" err))
        else mret (appset2, None)
    | None => mret (appset2, None)
    end
  else mret (appset1, None).

(** ** Creating only *)

Definition createInCluster
    (CreateOrUpdate : ApplicationSet → Application → M (string * option error))
    (applicationSet : ApplicationSet) (desiredApplications : list Application)
  : M (option error) :=
  r ← getCurrentApplications applicationSet;
  match r with
  | inl err => mret (Some (Wrapped "error getting current applications" err))
  | inr current =>
      let m : gset string := list_to_set (appName <$> current) in
      let createApps :=
        filter (λ app, appName app ∉ m) desiredApplications in
      createOrUpdateInCluster CreateOrUpdate applicationSet createApps
  end.

(** ** Triggering the syncs of a rollout *)

Section RollingSyncTrigger.
(** [Spec.SyncPolicy != nil && Spec.SyncPolicy.IsAutomatedSyncEnabled()] on a
    spec, with the value of [Spec.SyncPolicy.Automated.Prune]. *)
Variable automatedPrune : string → option bool.
(** The spec with [SyncPolicy.Automated] set to nil. *)
Variable withoutAutomated : string → string.
(** The operation that [syncApplication] builds from the spec of the
    application and [prune]. *)
Variable syncOperation : string → bool → string.

Definition withSpec (spec : string) (app : Application) : Application :=
  {| Meta := app.(Meta); AppSpec := spec; Operation := app.(Operation);
     HealthStatus := app.(HealthStatus); SyncStatus := app.(SyncStatus);
     OpState := app.(OpState); Revisions := app.(Revisions) |}.

Definition syncApplication (application : Application) (prune : bool)
  : Application :=
  {| Meta := application.(Meta); AppSpec := application.(AppSpec);
     Operation := Some (syncOperation application.(AppSpec) prune);
     HealthStatus := application.(HealthStatus);
     SyncStatus := application.(SyncStatus);
     OpState := application.(OpState);
     Revisions := application.(Revisions) |}.

(** The body of the loop of [syncValidApplications] for one application. *)
Definition syncValidApplication (applicationSet : ApplicationSet)
    (appSyncMap : gmap string bool) (appMap : gmap string Application)
    (validApp : Application) : Application :=
  let '(pruneEnabled, validApp1) :=
    match automatedPrune validApp.(AppSpec) with
    | Some prune => (prune, withSpec (withoutAutomated validApp.(AppSpec)) validApp)
    | None => (false, validApp)
    end in
  let appSetStatusPending :=
    match recordedStatus applicationSet.(ApplicationStatus) (appName validApp1)
    with
    | Some s => bool_decide (s.(Status) = "Pending")
    | None => false
    end in
  if default false (appSyncMap !! appName validApp1)
     && bool_decide ((default zeroApplication (appMap !! appName validApp1))
                       .(SyncStatus) = "OutOfSync")
     && appSetStatusPending
  then syncApplication validApp1 pruneEnabled
  else validApp1.

Definition syncValidApplications (applicationSet : ApplicationSet)
    (appSyncMap : gmap string bool) (appMap : gmap string Application)
    (validApps : list Application) : list Application :=
  syncValidApplication applicationSet appSyncMap appMap <$> validApps.
End RollingSyncTrigger.

(** ** Vocabulary of the further statements *)

(** The step map and the dependency list agree: a name with a step is in
    the list of that step, and a listed name has a step. *)
Definition stepMapListed (acc : list (list string) * gmap string Z) : Prop :=
  (∀ name i, acc.2 !! name = Some i →
     0 ≤ i ∧ ∃ names, acc.1 !! Z.to_nat i = Some names ∧ name ∈ names)
  ∧ (∀ names name, names ∈ acc.1 → name ∈ names → is_Some (acc.2 !! name)).

(** An application of a step lets the next step sync: it has a recorded
    status and an application, and [appSyncEnabledForNextStep] holds of
    them. *)
Definition readyForNextStep (applicationSet : ApplicationSet)
    (appMap : gmap string Application) (name : string) : bool :=
  match recordedStatus applicationSet.(ApplicationStatus) name,
        appMap !! name with
  | Some appStatus, Some app =>
      appSyncEnabledForNextStep applicationSet app appStatus
  | _, _ => false
  end.

(** Whether the step of index [i] syncs.  The first step does.  A later
    step does when the nearest step before it that lists a name lists only
    names that are ready; when no step before it lists a name, it does. *)
Fixpoint stepSyncEnabled (applicationSet : ApplicationSet)
    (appMap : gmap string Application) (appDependencyList : list (list string))
    (i : nat) : bool :=
  match i with
  | O => true
  | S j =>
      match appDependencyList !! j with
      | Some (name :: names) =>
          forallb (readyForNextStep applicationSet appMap) (name :: names)
      | _ => stepSyncEnabled applicationSet appMap appDependencyList j
      end
  end.

(** The values of [t] that the loops of [getMinRequeueAfter] go through. *)
Definition requestedRequeue {ApplicationSetGenerator Generator : Type}
    (SpecGenerators : ApplicationSetSpec → list ApplicationSetGenerator)
    (GetRelevantGenerators : ApplicationSetGenerator → list Generator)
    (GetRequeueAfter : Generator → ApplicationSetGenerator → Z)
    (applicationSetInfo : ApplicationSet) (t : Z) : Prop :=
  ∃ requestedGenerator g,
    requestedGenerator ∈ SpecGenerators applicationSetInfo.(Spec)
    ∧ g ∈ GetRelevantGenerators requestedGenerator
    ∧ t = GetRequeueAfter g requestedGenerator.

(** A validation in which every project exists and every destination
    resolves; the qualified name is the namespace and the name. *)
Definition sampleQualifiedName (app : Application) : string :=
  app.(Meta).(Namespace) ++ "/" ++ appName app.

Definition sampleProject (_ : string) : string := "default".

Definition projectFound (_ : string) : M (option error) := mret None.

Definition sampleErrorText (_ : error) : string := "unknown cluster".

(** What an attempt to write the status comes to when the parent is gone:
    nothing is written, nothing is copied back, and the error, if any, is a
    not-found error. *)
Definition parentMissing (w : World)
    (r : option ApplicationSet * option error) (w' : World) : Prop :=
  w.(parent) = None →
  sameStore w w' ∧ r.1 = None
  ∧ (∀ e, r.2 = Some e → IsNotFound e = true)
  ∧ (w.(faults) = [] → is_Some r.2 ∧ w'.(faults) = []).

(** A write that [deleteInCluster] may issue: the delete or the patch of an
    application whose name is not among [names]. *)
Definition sparesNames (names : list string) (x : Write) : Prop :=
  match x with
  | WDeleteApplication name => name ∉ names
  | WPatchApplication app => appName app ∉ names
  | _ => False
  end.

(** What a run of the delete loop may do to the store: it appends writes
    that spare [names] and leaves the children of these names, and the
    parent, alone. *)
Definition sparing (names : list string) (w w' : World) : Prop :=
  (∃ extra, w'.(writes) = w.(writes) ++ extra
            ∧ Forall (sparesNames names) extra)
  ∧ (∀ name, name ∈ names → w'.(children) !! name = w.(children) !! name)
  ∧ w'.(parent) = w.(parent).

(** A schedule of faults in which the read of the parent succeeds and the
    write of its status conflicts, [k] times in a row. *)
Fixpoint conflictRounds (k : nat) : list (option Fault) :=
  match k with
  | O => []
  | S n => None :: Some FaultConflict :: conflictRounds n
  end.

(** The store once the calls have used the faults up to [rest]. *)
Definition withFaults (rest : list (option Fault)) (w : World) : World :=
  {| parent := w.(parent); children := w.(children); clock := w.(clock);
     faults := rest; writes := w.(writes) |}.

(** ** The progressive sync of one reconciliation *)

(** [appset] is the copy of the parent that the function is given; each
    call below works on the copy as the call before left it.  A run-time
    panic of the promotion pass is not an error of the function: it goes
    up as it is. *)
Definition performProgressiveSyncs (appset : ApplicationSet)
    (applications desiredApplications : list Application)
    (appMap : gmap string Application) : M (gmap string bool + error) :=
  let '(appDependencyList, appStepMap) :=
    buildAppDependencyList appset desiredApplications in
  r ← updateApplicationSetApplicationStatus appset applications appStepMap;
  match r.2 with
  | inr err =>
      mret (inr (Wrapped "failed to update applicationset app status" err))
  | inl _ =>
      let appSyncMap := buildAppSyncMap r.1 appDependencyList appMap in
      r' ← updateApplicationSetApplicationStatusProgress r.1 appSyncMap
             appStepMap;
      match r'.2 with
      | inr (Panic msg) => mret (inr (Panic msg))
      | inr err =>
          mret (inr (Wrapped
                       "failed to update applicationset application status progress"
                       err))
      | inl _ =>
          _ ← updateApplicationSetApplicationStatusConditions r'.1;
          mret (inl appSyncMap)
      end
  end.

(** Every parent that the store holds has the spec [spec]. *)
Definition storedSpec (spec : ApplicationSetSpec) (w : World) : Prop :=
  ∀ stored, w.(parent) = Some stored → stored.(Spec) = spec.

(** An attempt to write the status keeps the spec of the stored parent, and
    the parent it copies back has that spec. *)
Definition specKept (spec : ApplicationSetSpec) (w : World)
    (r : option ApplicationSet * option error) (w' : World) : Prop :=
  storedSpec spec w →
  storedSpec spec w' ∧ ∀ a, r.1 = Some a → a.(Spec) = spec.
(** * Properties *)

(** ** The rollout status of one application *)

Lemma isApplicationHealthy_spec app :
  isApplicationHealthy app = true ↔
  app.(HealthStatus) = "Healthy" ∧ app.(SyncStatus) ≠ "OutOfSync"
  ∧ ((statusStrings app).2 = "Succeeded" ∨ (statusStrings app).2 = "").
Proof.
  unfold isApplicationHealthy, statusStrings. simpl.
  rewrite !andb_true_iff, orb_true_iff, !bool_decide_eq_true. tauto.
Qed.

Lemma recordedStatus_None recorded application :
  findApplicationStatusIndex recorded application = None →
  recordedStatus recorded application = None.
Proof. unfold recordedStatus. by intros ->. Qed.

Lemma Status_observeRevisions now applicationSet appStepMap app :
  Status (observeRevisions now appStepMap app
            (startingStatus now applicationSet appStepMap app))
  = startStatus applicationSet app.
Proof.
  unfold observeRevisions, startingStatus, startStatus, recordedStatus.
  destruct (_ ≫= _) as [e|]; cbn [TargetRevisions Status].
  - destruct (bool_decide (TargetRevisions e ≠ Revisions app)) eqn:He.
    + cbn [setMessage TargetRevisions]. by rewrite He.
    + by rewrite He.
  - by destruct (bool_decide (None ≠ Revisions app)).
Qed.

Lemma Status_outdatedToWaiting now appStepMap outdated cur :
  Status (outdatedToWaiting now appStepMap outdated cur) =
  if outdated && bool_decide (cur.(Status) ≠ "Waiting")
     && bool_decide (cur.(Status) ≠ "Pending")
  then "Waiting" else cur.(Status).
Proof. unfold outdatedToWaiting. by destruct (_ && _). Qed.

Lemma Status_pendingToProgressing now appStepMap outdated app cur :
  Status (pendingToProgressing now appStepMap outdated app cur) =
  if bool_decide (cur.(Status) = "Pending")
     && ((negb outdated && bool_decide ((statusStrings app).2 = "Succeeded"))
         || bool_decide ((statusStrings app).2 = "Running")
         || bool_decide (app.(HealthStatus) = "Progressing"))
  then "Progressing" else cur.(Status).
Proof.
  unfold pendingToProgressing, statusStrings. cbn [snd].
  destruct (bool_decide (Status cur = "Pending")); [|done].
  destruct (negb outdated && _); [done|].
  by destruct (_ || _).
Qed.

Lemma Status_waitingToHealthy now appStepMap app cur :
  Status (waitingToHealthy now appStepMap app cur) =
  if bool_decide (cur.(Status) = "Waiting") && isApplicationHealthy app
  then app.(HealthStatus) else cur.(Status).
Proof. unfold waitingToHealthy. by destruct (_ && _). Qed.

Lemma Status_progressingToHealthy now appStepMap app cur :
  Status (progressingToHealthy now appStepMap app cur) =
  if bool_decide (cur.(Status) = "Progressing") && isApplicationHealthy app
  then app.(HealthStatus) else cur.(Status).
Proof. unfold progressingToHealthy. by destruct (_ && _). Qed.

Lemma updatedApplicationStatus_Status now applicationSet appStepMap app :
  Status (updatedApplicationStatus now applicationSet appStepMap app) =
  statusCascade (appOutdated applicationSet app)
    (startStatus applicationSet app) app.
Proof.
  unfold updatedApplicationStatus, statusCascade.
  rewrite Status_progressingToHealthy, Status_waitingToHealthy,
    Status_pendingToProgressing, Status_outdatedToWaiting,
    Status_observeRevisions.
  done.
Qed.

Lemma statusCascade_Waiting outdated app :
  statusCascade outdated "Waiting" app =
  if isApplicationHealthy app then "Healthy" else "Waiting".
Proof.
  unfold statusCascade. literals. rewrite ?andb_false_r. literals.
  destruct (isApplicationHealthy app) eqn:Hh; [|by literals].
  apply isApplicationHealthy_spec in Hh as (-> & _ & _). by literals.
Qed.

Lemma statusCascade_healthy start app :
  isApplicationHealthy app = true →
  start = "Waiting" ∨ start = "Progressing" →
  statusCascade false start app = "Healthy".
Proof.
  intros Hh Hs. destruct Hs as [-> | ->].
  { by rewrite statusCascade_Waiting, Hh. }
  unfold statusCascade. rewrite Hh. literals.
  by apply isApplicationHealthy_spec in Hh as (-> & _ & _).
Qed.

Lemma statusCascade_outdated start app :
  start ≠ "Waiting" → start ≠ "Pending" →
  isApplicationHealthy app = false →
  statusCascade true start app = "Waiting".
Proof.
  intros H1 H2 Hh. unfold statusCascade. rewrite Hh.
  rewrite (bool_decide_eq_true_2 (start ≠ "Waiting")),
    (bool_decide_eq_true_2 (start ≠ "Pending")) by done.
  literals. rewrite ?andb_false_r. by literals.
Qed.

Lemma statusCascade_Pending outdated app :
  (outdated = false ∧ (statusStrings app).2 = "Succeeded")
  ∨ (statusStrings app).2 = "Running" ∨ app.(HealthStatus) = "Progressing" →
  statusCascade outdated "Pending" app =
  if isApplicationHealthy app then "Healthy" else "Progressing".
Proof.
  intros Hp. unfold statusCascade.
  assert ((negb outdated && bool_decide ((statusStrings app).2 = "Succeeded"))
          || bool_decide ((statusStrings app).2 = "Running")
          || bool_decide (app.(HealthStatus) = "Progressing") = true) as ->.
  { rewrite !orb_true_iff, andb_true_iff, negb_true_iff, !bool_decide_eq_true.
    tauto. }
  literals. rewrite ?andb_false_r. literals.
  destruct (isApplicationHealthy app) eqn:Hh; [|done].
  by apply isApplicationHealthy_spec in Hh as (-> & _ & _).
Qed.

Lemma appOutdated_not_OutOfSync applicationSet app :
  app.(SyncStatus) ≠ "OutOfSync" → appOutdated applicationSet app = false.
Proof.
  intros H. unfold appOutdated, statusStrings. cbn [fst snd].
  destruct (progressiveSyncsRollingSyncStrategyEnabled _); [|done].
  by rewrite bool_decide_eq_false_2.
Qed.

(** C1 (as amended): the status that [updateApplicationSetApplicationStatus]
    records for one application.  The rules run one after the other, each on
    the status the earlier ones left.  With no recorded entry, or with
    recorded revisions that differ from the observed ones, the status is
    Waiting, and Healthy when the application is app-healthy.  With equal
    revisions: a recorded status other than Waiting and Pending becomes
    Waiting when the application is OutOfSync and the strategy has a step; a
    recorded Pending with a succeeded sync that is not OutOfSync, a running
    operation or a Progressing health becomes Progressing, and Healthy when
    the application is app-healthy; a recorded Waiting or Progressing becomes
    Healthy when the application is app-healthy. *)
Theorem updatedApplicationStatus_cascade now applicationSet appStepMap app :
  let recorded :=
    recordedStatus applicationSet.(ApplicationStatus) (appName app) in
  let new :=
    Status (updatedApplicationStatus now applicationSet appStepMap app) in
  let healthy := isApplicationHealthy app in
  let phase := (statusStrings app).2 in
  ((recorded = None
    ∨ ∃ e, recorded = Some e ∧ e.(TargetRevisions) ≠ app.(Revisions)) →
   new = if healthy then "Healthy" else "Waiting")
  ∧ (∀ e, recorded = Some e → e.(TargetRevisions) = app.(Revisions) →
      (progressiveSyncsRollingSyncStrategyEnabled applicationSet = true →
       e.(Status) ≠ "Waiting" → e.(Status) ≠ "Pending" →
       app.(SyncStatus) = "OutOfSync" → new = "Waiting")
      ∧ (e.(Status) = "Pending" →
         (app.(SyncStatus) ≠ "OutOfSync" ∧ phase = "Succeeded")
         ∨ phase = "Running" ∨ app.(HealthStatus) = "Progressing" →
         new = if healthy then "Healthy" else "Progressing")
      ∧ (e.(Status) = "Waiting" ∨ e.(Status) = "Progressing" →
         healthy = true → new = "Healthy")).
Proof.
  intros recorded new healthy phase. subst new.
  rewrite updatedApplicationStatus_Status. unfold startStatus.
  fold recorded. split.
  - intros [-> | (e & -> & Hne)].
    + apply statusCascade_Waiting.
    + rewrite bool_decide_eq_true_2 by done. apply statusCascade_Waiting.
  - intros e -> Heq. rewrite bool_decide_eq_false_2 by (by intros H; apply H).
    repeat split.
    + intros Hen H1 H2 Hsync.
      assert (appOutdated applicationSet app = true) as ->.
      { unfold appOutdated, statusStrings. cbn [fst snd]. rewrite Hen.
        by apply bool_decide_eq_true_2. }
      apply statusCascade_outdated; [done..|].
      destruct (isApplicationHealthy app) eqn:Hh; [|done].
      by apply isApplicationHealthy_spec in Hh as (_ & ? & _).
    + intros -> Hp. apply statusCascade_Pending.
      destruct Hp as [[Hsync Hp]|Hp]; [left|by right].
      split; [by apply appOutdated_not_OutOfSync|done].
    + intros Hs Hh.
      rewrite appOutdated_not_OutOfSync.
      * by apply statusCascade_healthy.
      * by apply isApplicationHealthy_spec in Hh as (_ & ? & _).
Qed.

Lemma updatedApplicationStatus_cascade_witness :
  Status (updatedApplicationStatus 1 (sampleSet "" [envStep] []) ∅
            (sampleApp "a" "Healthy" "Synced" ∅)) = "Healthy"
  ∧ Status (updatedApplicationStatus 1
              (sampleSet "" [envStep] [sampleEntry "a" "Healthy" "1"]) ∅
              (sampleApp "a" "Healthy" "OutOfSync" ∅)) = "Waiting"
  ∧ Status (updatedApplicationStatus 1
              (sampleSet "" [envStep] [sampleEntry "a" "Pending" "1"]) ∅
              (withPhase "Running" (sampleApp "a" "Progressing" "Synced" ∅)))
    = "Progressing"
  ∧ Status (updatedApplicationStatus 1
              (sampleSet "" [envStep] [sampleEntry "a" "Progressing" "1"]) ∅
              (sampleApp "a" "Healthy" "Synced" ∅)) = "Healthy".
Proof.
  split; [|split; [|split]].
  - exact (proj1 (updatedApplicationStatus_cascade 1
             (sampleSet "" [envStep] []) ∅
             (sampleApp "a" "Healthy" "Synced" ∅)) (or_introl eq_refl)).
  - refine (proj1 (proj2 (updatedApplicationStatus_cascade 1
              (sampleSet "" [envStep] [sampleEntry "a" "Healthy" "1"]) ∅
              (sampleApp "a" "Healthy" "OutOfSync" ∅)) _ eq_refl eq_refl)
            eq_refl _ _ eq_refl); discriminate.
  - refine (proj1 (proj2 (proj2 (updatedApplicationStatus_cascade 1
              (sampleSet "" [envStep] [sampleEntry "a" "Pending" "1"]) ∅
              (withPhase "Running" (sampleApp "a" "Progressing" "Synced" ∅)))
              _ eq_refl eq_refl)) eq_refl (or_intror (or_introl eq_refl))).
  - refine (proj2 (proj2 (proj2 (updatedApplicationStatus_cascade 1
              (sampleSet "" [envStep] [sampleEntry "a" "Progressing" "1"]) ∅
              (sampleApp "a" "Healthy" "Synced" ∅)) _ eq_refl eq_refl))
            (or_intror eq_refl) eq_refl).
Defined.

(** C1 (counterexample): an application that has no recorded entry and is
    app-healthy is recorded Healthy in the same pass, not Waiting. *)
Lemma updatedApplicationStatus_no_entry_not_Waiting :
  recordedStatus (sampleSet "" [envStep] []).(ApplicationStatus) "a" = None
  ∧ Status (updatedApplicationStatus 1 (sampleSet "" [envStep] []) ∅
              (sampleApp "a" "Healthy" "Synced" ∅)) ≠ "Waiting".
Proof. split; [reflexivity|]. vm_compute. discriminate. Qed.

(** ** The maxUpdate cap of the promotion pass *)

Lemma index_Some {A} (xs : list A) (i : Z) (x : A) :
  index xs i = Some x ↔ 0 ≤ i ∧ xs !! Z.to_nat i = Some x.
Proof.
  unfold index. case_bool_decide as H.
  - split; [by intros ?|by intros [_ ?]].
  - split; [done|]. intros [? _]. lia.
Qed.

Lemma index_of_nat {A} (xs : list A) (i : nat) :
  index xs (Z.of_nat i) = xs !! i.
Proof.
  unfold index. rewrite bool_decide_eq_true_2 by lia. by rewrite Nat2Z.id.
Qed.

Lemma increment_Some counts j counts' :
  increment counts j = Some counts' →
  length counts' = length counts
  ∧ ∀ k : nat, counts' !! k =
      if bool_decide (Z.of_nat k = j) then (λ c, c + 1) <$> counts !! k
      else counts !! k.
Proof.
  unfold increment. intros H.
  destruct (index counts j) as [c|] eqn:Hc; [|done].
  apply index_Some in Hc as [Hj Hc]. simplify_eq/=.
  split; [by rewrite length_insert|].
  intros k. case_bool_decide as Hk.
  - subst j. rewrite Nat2Z.id in *. rewrite Hc. simpl.
    apply list_lookup_insert_eq. by eapply lookup_lt_Some.
  - apply list_lookup_insert_ne. lia.
Qed.

Lemma increment_is_Some counts j :
  0 ≤ j < Z.of_nat (length counts) → is_Some (increment counts j).
Proof.
  intros Hj. unfold increment, index.
  rewrite bool_decide_eq_true_2 by lia.
  destruct (lookup_lt_is_Some_2 counts (Z.to_nat j)) as [c ->]; [lia|].
  by eexists.
Qed.

Lemma totalCount_cons m i s l :
  totalCount m i (s :: l) = (if inStep m i s then 1 else 0) + totalCount m i l.
Proof.
  unfold totalCount. rewrite filter_cons.
  case_decide as H; destruct (inStep m i s); simpl in *;
    try done; try lia; by destruct H.
Qed.

Lemma inFlightCount_cons m i s l :
  inFlightCount m i (s :: l) =
  (if inStep m i s && inFlight s then 1 else 0) + inFlightCount m i l.
Proof.
  unfold inFlightCount. rewrite filter_cons.
  case_decide as H; destruct (inStep m i s && inFlight s); simpl in *;
    try done; try lia; by destruct H.
Qed.

Lemma countStatuses_Some m l : ∀ u t u' t',
  countStatuses m l u t = Some (u', t') →
  length u' = length u ∧ length t' = length t
  ∧ ∀ (i : nat),
      u' !! i = (λ c, c + inFlightCount m i l) <$> u !! i
      ∧ t' !! i = (λ c, c + totalCount m i l) <$> t !! i.
Proof.
  induction l as [|s l IH]; intros u t u' t' H; simpl in H.
  - simplify_eq. repeat split; try done.
    + unfold inFlightCount. simpl. destruct (u' !! i); simpl; f_equal; lia.
    + unfold totalCount. simpl. destruct (t' !! i); simpl; f_equal; lia.
  - destruct (increment t _) as [t1|] eqn:Ht; [|done]. simpl in H.
    destruct (if inFlight s then _ else _) as [u1|] eqn:Hu; [|done].
    simpl in H. apply IH in H as (Hlu & Hlt & Hi).
    apply increment_Some in Ht as [Hlt1 Ht1].
    assert (length u1 = length u
            ∧ ∀ k : nat, u1 !! k =
                if bool_decide (Z.of_nat k = stepIndex m (AppName s))
                   && inFlight s
                then (λ c, c + 1) <$> u !! k else u !! k) as [Hlu1 Hu1].
    { destruct (inFlight s).
      - apply increment_Some in Hu as [? Hu]. split; [done|].
        intros k. rewrite andb_true_r. apply Hu.
      - simplify_eq. split; [done|]. intros k. by rewrite andb_false_r. }
    split; [congruence|]. split; [congruence|]. intros i.
    destruct (Hi i) as [-> ->]. rewrite Hu1, Ht1.
    rewrite inFlightCount_cons, totalCount_cons. unfold inStep.
    rewrite (bool_decide_ext (Z.of_nat i = stepIndex m (AppName s))
               (stepIndex m (AppName s) = Z.of_nat i)) by (split; congruence).
    split.
    + destruct (bool_decide _ && inFlight s);
        destruct (u !! i); simpl; f_equal; lia.
    + destruct (bool_decide _); destruct (t !! i); simpl; f_equal; lia.
Qed.

Lemma countStatuses_is_Some m l : ∀ u t,
  length u = length t →
  Forall (λ s, 0 ≤ stepIndex m s.(AppName) < Z.of_nat (length t)) l →
  is_Some (countStatuses m l u t).
Proof.
  induction l as [|s l IH]; intros u t Hlen Hall; simpl; [by eexists|].
  apply Forall_cons in Hall as [Hs Hall].
  destruct (increment_is_Some t _ Hs) as [t1 Ht]. rewrite Ht. simpl.
  assert (∃ u1, (if inFlight s then increment u (stepIndex m (AppName s))
                 else Some u) = Some u1 ∧ length u1 = length u) as (u1 & -> & Hu1).
  { destruct (inFlight s); [|by eexists].
    destruct (increment_is_Some u (stepIndex m (AppName s))) as [u1 Hu];
      [lia|].
    exists u1. split; [done|]. by apply increment_Some in Hu as [? _]. }
  simpl. apply increment_Some in Ht as [Ht _].
  apply IH; [congruence|]. by rewrite Ht.
Qed.

Lemma inFlight_Pending now m s :
  inFlight (transitionTo now "Pending"
    "Application moved to Pending status, watching for the Application resource to start Progressing."
    m s) = true.
Proof. reflexivity. Qed.

Lemma inFlight_Waiting s : s.(Status) = "Waiting" → inFlight s = false.
Proof. unfold inFlight. by intros ->. Qed.

(** The in-flight counter of a capped step never passes the larger of its
    value and the cap. *)
Lemma promoteStatuses_bound now steps sync m total l : ∀ c out,
  promoteStatuses now steps sync m total l c = Some out →
  ∀ (i : nat) step mu t ci,
    steps !! i = Some step → step.(MaxUpdate) = Some mu →
    total !! i = Some t → c !! i = Some ci →
    ci + (inFlightCount m i out - inFlightCount m i l)
    ≤ Z.max ci (maxUpdateVal mu t).
Proof.
  induction l as [|s l IH]; intros c out H i step mu t ci Hstep Hmu Ht Hc;
    simpl in H.
  - simplify_eq. lia.
  - set (j := stepIndex m (AppName s)) in *.
    destruct (index steps j) as [stepj|] eqn:Hsj; [|done]. simpl in H.
    destruct (index total j) as [tj|] eqn:Htj; [|done]. simpl in H.
    destruct (index c j) as [cj|] eqn:Hcj; [|done]. simpl in H.
    apply index_Some in Hsj as [Hj Hsj].
    apply index_Some in Htj as [_ Htj].
    apply index_Some in Hcj as [_ Hcj].
    destruct (bool_decide (Status s = "Waiting") && default false (sync !! AppName s)
              && maxUpdateAllowed (MaxUpdate stepj) tj cj) eqn:Hpromote.
    + destruct (increment c j) as [c'|] eqn:Hinc; [|done]. simpl in H.
      destruct (promoteStatuses _ _ _ _ _ l c') as [out'|] eqn:Hrest; [|done].
      simplify_eq/=.
      apply andb_true_iff in Hpromote as [Hpromote Hallowed].
      apply andb_true_iff in Hpromote as [Hw _].
      apply bool_decide_eq_true in Hw.
      apply increment_Some in Hinc as [_ Hinc].
      rewrite !inFlightCount_cons, inFlight_Pending, (inFlight_Waiting s Hw).
      rewrite andb_true_r, andb_false_r. unfold inStep at 1. cbn [AppName transitionTo].
      fold j. specialize (Hinc i).
      destruct (decide (j = Z.of_nat i)) as [Hij|Hij].
      * rewrite (bool_decide_eq_true_2 (j = Z.of_nat i)) by done.
        rewrite (bool_decide_eq_true_2 (Z.of_nat i = j)) in Hinc by done.
        assert (Z.to_nat j = i) as Hji by lia. rewrite Hji in *.
        assert (stepj = step) as -> by congruence.
        assert (tj = t) as -> by congruence.
        assert (cj = ci) as -> by congruence.
        rewrite Hmu in Hallowed. simpl in Hallowed.
        apply negb_true_iff, bool_decide_eq_false in Hallowed.
        rewrite Hc in Hinc. simpl in Hinc.
        pose proof (IH _ _ Hrest i step mu t (ci + 1) Hstep Hmu Ht Hinc).
        lia.
      * rewrite (bool_decide_eq_false_2 (j = Z.of_nat i)) by done.
        rewrite (bool_decide_eq_false_2 (Z.of_nat i = j)) in Hinc by done.
        rewrite Hc in Hinc.
        pose proof (IH _ _ Hrest i step mu t ci Hstep Hmu Ht Hinc). lia.
    + destruct (promoteStatuses _ _ _ _ _ l c) as [out'|] eqn:Hrest; [|done].
      simplify_eq/=. rewrite !inFlightCount_cons.
      pose proof (IH _ _ Hrest i step mu t ci Hstep Hmu Ht Hc). lia.
Qed.

Lemma promoteStatuses_is_Some now steps sync m total l : ∀ c,
  length total = length steps → length c = length steps →
  Forall (λ s, 0 ≤ stepIndex m s.(AppName) < Z.of_nat (length steps)) l →
  is_Some (promoteStatuses now steps sync m total l c).
Proof.
  induction l as [|s l IH]; intros c Ht Hc Hall; simpl; [by eexists|].
  apply Forall_cons in Hall as [Hs Hall].
  set (j := stepIndex m (AppName s)) in *.
  assert (∀ {A} (xs : list A), length xs = length steps → is_Some (index xs j))
    as Hidx.
  { intros A xs Hxs. unfold index. rewrite bool_decide_eq_true_2 by lia.
    apply lookup_lt_is_Some_2. lia. }
  destruct (Hidx _ steps eq_refl) as [stepj ->].
  destruct (Hidx _ total Ht) as [tj ->].
  destruct (Hidx _ c Hc) as [cj ->]. simpl.
  destruct (_ && _).
  - destruct (increment_is_Some c j) as [c' Hinc]; [lia|]. rewrite Hinc. simpl.
    apply increment_Some in Hinc as [Hc' _].
    destruct (IH c') as [out' ->]; [done|congruence|done|]. by eexists.
  - destruct (IH c) as [out' ->]; [done..|]. by eexists.
Qed.

(** Without a cap every Waiting entry whose step may sync is promoted. *)
Lemma promoteStatuses_no_cap now steps sync m total l : ∀ c out,
  promoteStatuses now steps sync m total l c = Some out →
  ∀ (k : nat) s step,
    l !! k = Some s → s.(Status) = "Waiting" →
    sync !! s.(AppName) = Some true →
    index steps (stepIndex m s.(AppName)) = Some step →
    step.(MaxUpdate) = None →
    ∃ s', out !! k = Some s' ∧ s'.(Status) = "Pending"
          ∧ s'.(AppName) = s.(AppName).
Proof.
  induction l as [|s0 l IH]; intros c out H k s step Hk Hw Hsync Hstep Hmu;
    [done|]. simpl in H.
  destruct (index steps _) as [stepj|] eqn:Hsj; [|done]. simpl in H.
  destruct (index total _) as [tj|]; [|done]. simpl in H.
  destruct (index c _) as [cj|]; [|done]. simpl in H.
  destruct k as [|k]; simpl in Hk.
  - simplify_eq. rewrite Hw, Hsync, Hmu in H. simpl in H.
    destruct (increment c _) as [c'|]; [|done]. simpl in H.
    destruct (promoteStatuses _ _ _ _ _ l c') as [out'|]; [|done].
    simplify_eq/=. eexists. by split.
  - destruct (_ && _).
    + destruct (increment c _) as [c'|]; [|done]. simpl in H.
      destruct (promoteStatuses _ _ _ _ _ l c') as [out'|] eqn:Hrest; [|done].
      simplify_eq/=. by eapply IH.
    + destruct (promoteStatuses _ _ _ _ _ l c) as [out'|] eqn:Hrest; [|done].
      simplify_eq/=. by eapply IH.
Qed.

Lemma trimPercent_append s : trimPercent (s +:+ "%") = Some s.
Proof.
  induction s as [|a s IH]; [done|].
  change (String a s +:+ "%") with (String a (s +:+ "%")).
  cbn [trimPercent]. rewrite IH. by destruct (s +:+ "%") eqn:E; [destruct s|].
Qed.

Lemma Atoi_Itoa p : - 2 ^ 63 ≤ p < 2 ^ 63 → Atoi (Itoa p) = Some p.
Proof.
  intros Hp. unfold Atoi, Itoa.
  assert (NilZero.int_of_string (NilZero.string_of_int (Z.to_int p))
          = Some (Z.to_int p)) as Hisi.
  { apply NilZero.isi; destruct p as [|q|q]; simpl; try discriminate;
      intros [= H]; by apply (DecimalPos.Unsigned.to_uint_nonnil q). }
  destruct (NilZero.string_of_int (Z.to_int p)) as [|a s] eqn:Hs; [done|].
  assert (a ≠ "+"%char) as Ha.
  { intros ->. cbn in Hisi. unfold uint_of_char in Hisi.
    by destruct (NilEmpty.uint_of_string s). }
  assert ((match String a s with
           | String "+" digits =>
               Z.of_int <$> (Decimal.Pos <$> NilZero.uint_of_string digits)
           | _ => Z.of_int <$> NilZero.int_of_string (String a s)
           end) = Z.of_int <$> NilZero.int_of_string (String a s)) as ->.
  { destruct a as [[] [] [] [] [] [] [] []]; try done. }
  rewrite Hisi. cbn [fmap option_fmap option_map mbind option_bind].
  rewrite DecimalZ.of_to. by rewrite bool_decide_eq_true_2.
Qed.

Lemma Itoa_zero p : - 2 ^ 63 ≤ p < 2 ^ 63 → Itoa p = "0" → p = 0.
Proof.
  intros Hp H. apply Atoi_Itoa in Hp. rewrite H in Hp.
  change (Atoi "0") with (Some 0) in Hp. by simplify_eq.
Qed.

Lemma maxUpdateVal_Int n s total :
  maxUpdateVal {| Kind := Int; IntVal := n; StrVal := s |} total = n.
Proof. reflexivity. Qed.

Lemma maxUpdateVal_percent p n total :
  0 ≤ p < 2 ^ 63 →
  maxUpdateVal {| Kind := String_; IntVal := n; StrVal := Itoa p +:+ "%" |}
    total =
  if bool_decide (p = 0) then 0 else Z.max 1 (p * total / 100).
Proof.
  intros Hp. destruct (decide (p = 0)) as [->|H0]; [done|].
  rewrite (bool_decide_eq_false_2 (p = 0)) by done.
  unfold maxUpdateVal, GetScaledValueFromIntOrPercent.
  cbn [Kind StrVal]. rewrite trimPercent_append. cbn [mbind option_bind].
  rewrite Atoi_Itoa by lia.
  rewrite (bool_decide_eq_true_2 (String_ = String_)) by done.
  rewrite (bool_decide_eq_true_2 (Itoa p +:+ "%" ≠ "0%")).
  - cbn [andb]. case_bool_decide; lia.
  - intros H. apply H0, Itoa_zero; [lia|].
    change "0%" with ("0" +:+ "%") in H.
    assert (Some (Itoa p) = Some "0") as [= ->]; [|done].
    by rewrite <- !trimPercent_append, H.
Qed.

Lemma enabled_has_steps applicationSet :
  progressiveSyncsRollingSyncStrategyEnabled applicationSet = true →
  (0 < length (rollingSyncSteps applicationSet))%nat.
Proof.
  unfold progressiveSyncsRollingSyncStrategyEnabled.
  intros [_ H]%andb_true_iff. by apply bool_decide_eq_true in H.
Qed.

(** C2 (as amended): the promotion pass on a set whose RollingSync strategy
    has a step and whose step map points into the step list.  The pass
    returns a list; for a step with a maxUpdate, the entries in flight
    (Pending or Progressing) that it counts for the step number at most the
    larger of their number before the pass and the resolved cap; in a step
    without a maxUpdate every Waiting entry enabled for sync is promoted.  An
    integer maxUpdate resolves to itself, a percentage 0% to 0 and any other
    percentage to its rounded-down share of the step total, or 1 where that
    is less. *)
Theorem promotion_respects_maxUpdate now applicationSet appSyncMap appStepMap :
  progressiveSyncsRollingSyncStrategyEnabled applicationSet = true →
  map_Forall (λ _ j, 0 ≤ j < Z.of_nat (length (rollingSyncSteps applicationSet)))
    appStepMap →
  ∃ appStatuses,
    progressedApplicationStatuses now applicationSet appSyncMap appStepMap
    = Some appStatuses
    ∧ (∀ (i : nat) step maxUpdate,
         rollingSyncSteps applicationSet !! i = Some step →
         step.(MaxUpdate) = Some maxUpdate →
         inFlightCount appStepMap i appStatuses
         ≤ Z.max (inFlightCount appStepMap i applicationSet.(ApplicationStatus))
             (maxUpdateVal maxUpdate
                (totalCount appStepMap i applicationSet.(ApplicationStatus))))
    ∧ (∀ (k : nat) s step,
         applicationSet.(ApplicationStatus) !! k = Some s →
         s.(Status) = "Waiting" →
         appSyncMap !! s.(AppName) = Some true →
         index (rollingSyncSteps applicationSet)
           (stepIndex appStepMap s.(AppName)) = Some step →
         step.(MaxUpdate) = None →
         ∃ s', appStatuses !! k = Some s' ∧ s'.(Status) = "Pending"
               ∧ s'.(AppName) = s.(AppName))
    ∧ (∀ n s total,
         maxUpdateVal {| Kind := Int; IntVal := n; StrVal := s |} total = n)
    ∧ (∀ p n total, 0 ≤ p < 2 ^ 63 →
         maxUpdateVal
           {| Kind := String_; IntVal := n; StrVal := Itoa p +:+ "%" |} total
         = if bool_decide (p = 0) then 0 else Z.max 1 (p * total / 100)).
Proof.
  intros Hen Hmap. pose proof (enabled_has_steps _ Hen) as Hsteps.
  unfold progressedApplicationStatuses. rewrite Hen.
  set (steps := rollingSyncSteps applicationSet) in *.
  set (recorded := applicationSet.(ApplicationStatus)).
  assert (Forall (λ s, 0 ≤ stepIndex appStepMap s.(AppName)
                         < Z.of_nat (length steps)) recorded) as Hall.
  { apply Forall_forall. intros s _. unfold stepIndex.
    destruct (appStepMap !! AppName s) as [j|] eqn:Hj; simpl; [|lia].
    by apply (Hmap _ _ Hj). }
  destruct (countStatuses_is_Some appStepMap recorded
              (replicate (length steps) 0) (replicate (length steps) 0))
    as [[u t] Hcount].
  { done. }
  { by rewrite length_replicate. }
  rewrite Hcount. cbn [mbind option_bind].
  apply countStatuses_Some in Hcount as (Hlu & Hlt & Hcounts).
  rewrite length_replicate in Hlu, Hlt.
  destruct (promoteStatuses_is_Some now steps appSyncMap appStepMap t recorded u)
    as [out Hout]; [done..|].
  exists out. split; [done|]. split; [|split; [|split]].
  - intros i step mu Hstep Hmu.
    assert (i < length steps)%nat as Hi by by eapply lookup_lt_Some.
    destruct (Hcounts i) as [Hu Ht].
    rewrite lookup_replicate_2 in Hu, Ht by done.
    cbn [fmap option_fmap option_map] in Hu, Ht.
    rewrite Z.add_0_l in Hu, Ht.
    pose proof (promoteStatuses_bound _ _ _ _ _ _ _ _ Hout i step mu _ _
                  Hstep Hmu Ht Hu).
    lia.
  - intros k s step Hk Hw Hsync Hstep Hmu.
    by eapply promoteStatuses_no_cap.
  - apply maxUpdateVal_Int.
  - apply maxUpdateVal_percent.
Qed.

Lemma promotion_respects_maxUpdate_witness :
  ∃ appStatuses,
    progressedApplicationStatuses 1
      (sampleSet "" [cappedStep]
         [sampleEntry "a" "Waiting" "1"; sampleEntry "b" "Waiting" "1";
          sampleEntry "c" "Waiting" "1"])
      sampleSyncMap sampleStepMap = Some appStatuses
    ∧ inFlightCount sampleStepMap 0 appStatuses ≤ 1.
Proof.
  destruct (promotion_respects_maxUpdate 1
              (sampleSet "" [cappedStep]
                 [sampleEntry "a" "Waiting" "1"; sampleEntry "b" "Waiting" "1";
                  sampleEntry "c" "Waiting" "1"])
              sampleSyncMap sampleStepMap)
    as (out & Hout & Hbound & _).
  - vm_compute. reflexivity.
  - unfold sampleStepMap. repeat apply map_Forall_insert_2; try (simpl; lia).
    apply map_Forall_empty.
  - exists out. split; [exact Hout|].
    pose proof (Hbound 0%nat cappedStep _ eq_refl eq_refl) as H.
    match type of H with _ ≤ ?bound =>
      assert (bound = 1) as Hmax by (vm_compute; reflexivity)
    end.
    rewrite Hmax in H. exact H.
Defined.

(** C2 (counterexample): with maxUpdate 1 and two entries of the step
    already Pending and Progressing, two entries are in flight after the
    pass. *)
Lemma promotion_exceeds_maxUpdate :
  ∃ appStatuses maxUpdate,
    progressedApplicationStatuses 1
      (sampleSet "" [cappedStep]
         [sampleEntry "a" "Pending" "1"; sampleEntry "b" "Progressing" "1";
          sampleEntry "c" "Waiting" "1"])
      sampleSyncMap sampleStepMap = Some appStatuses
    ∧ cappedStep.(MaxUpdate) = Some maxUpdate
    ∧ maxUpdateVal maxUpdate 3 = 1
    ∧ inFlightCount sampleStepMap 0 appStatuses = 2.
Proof.
  eexists _, _. split; [vm_compute; reflexivity|].
  split; [reflexivity|]. split; vm_compute; reflexivity.
Qed.

(** A maxUpdate that is no integer and no percentage is not treated as "no
    cap": it caps the step at one. *)
Lemma invalid_maxUpdate_caps_at_one total :
  GetScaledValueFromIntOrPercent
    {| Kind := String_; IntVal := 0; StrVal := "many" |} total = (0, true)
  ∧ maxUpdateVal {| Kind := String_; IntVal := 0; StrVal := "many" |} total = 1.
Proof. split; vm_compute; reflexivity. Qed.

(** ** Step assignment *)

Lemma labelMatchedExpression_valid val e :
  validOperator e →
  labelMatchedExpression val e =
  if bool_decide (e.(Operator) = "In") then bool_decide (val ∈ e.(Values))
  else bool_decide (val ∉ e.(Values)).
Proof.
  intros [H|H]; unfold labelMatchedExpression; rewrite H; literals.
  - by case_bool_decide.
  - case_bool_decide as Hin.
    + by rewrite bool_decide_eq_false_2 by (by intros Hn; apply Hn).
    + by rewrite bool_decide_eq_true_2.
Qed.

Lemma stepSelects_valid labels exprs :
  Forall validOperator exprs →
  stepSelects labels exprs = forallb (specExpressionMatches labels) exprs.
Proof.
  induction 1 as [|e exprs He _ IH]; [done|].
  cbn [stepSelects forallb]. unfold specExpressionMatches at 1.
  destruct (labels !! Key e) as [val|] eqn:Hk.
  - rewrite labelMatchedExpression_valid by done.
    destruct He as [He|He]; rewrite He; literals; rewrite IH;
      by destruct (bool_decide _).
  - destruct He as [He|He]; rewrite He; literals; by rewrite ?IH.
Qed.

Lemma firstSelected_spec labels steps : ∀ i,
  Forall (λ step, Forall validOperator step.(MatchExpressions)) steps →
  match firstSelected labels i steps with
  | Some k => Z.of_nat k + 1
  | None => -1
  end = specFirstStep labels (Z.of_nat i + 1) steps.
Proof.
  induction steps as [|step steps IH]; intros i Hv; [done|].
  apply Forall_cons in Hv as [Hstep Hv].
  cbn [firstSelected specFirstStep]. unfold specStepMatches.
  rewrite <- stepSelects_valid by done.
  destruct (stepSelects labels _); [done|].
  rewrite IH by done. f_equal. lia.
Qed.

Lemma firstSelected_range labels steps : ∀ i k,
  firstSelected labels i steps = Some k → (i ≤ k < i + length steps)%nat.
Proof.
  induction steps as [|step steps IH]; intros i k H; [done|].
  cbn [firstSelected] in H. destruct (stepSelects labels _).
  - simplify_eq. simpl. lia.
  - apply IH in H. simpl. lia.
Qed.

(** The step map after one application is run against the steps. *)
Lemma assignApp_map app steps : ∀ i acc,
  (assignApp app i steps acc).2 =
  match acc.2 !! appName app with
  | Some _ => acc.2
  | None =>
      match firstSelected app.(Meta).(Labels) i steps with
      | Some k => <[appName app := Z.of_nat k]> acc.2
      | None => acc.2
      end
  end.
Proof.
  induction steps as [|step steps IH]; intros i acc.
  - cbn [assignApp firstSelected]. by destruct (acc.2 !! appName app).
  - cbn [assignApp firstSelected]. rewrite IH.
    destruct (stepSelects _ _); cbn [snd]; [|done].
    destruct (acc.2 !! appName app) as [v|] eqn:Hacc; [by rewrite Hacc|].
    by rewrite lookup_insert_eq.
Qed.

Lemma assignedStepMap_other steps applications : ∀ acc name,
  name ∉ appName <$> applications →
  assignedStepMap steps applications acc !! name = acc.2 !! name.
Proof.
  unfold assignedStepMap.
  induction applications as [|app apps IH]; intros acc name Hn; [done|].
  rewrite fmap_cons, not_elem_of_cons in Hn. destruct Hn as [Hne Hn].
  cbn [foldl]. rewrite IH by done. rewrite assignApp_map.
  destruct (acc.2 !! appName app); [done|].
  destruct (firstSelected _ _ _); [|done]. by rewrite lookup_insert_ne.
Qed.

Lemma assignedStepMap_lookup steps applications : ∀ acc app,
  NoDup (appName <$> applications) →
  (∀ a, a ∈ applications → acc.2 !! appName a = None) →
  app ∈ applications →
  assignedStepMap steps applications acc !! appName app =
  Z.of_nat <$> firstSelected app.(Meta).(Labels) 0 steps.
Proof.
  induction applications as [|a apps IH]; intros acc app Hnd Hfresh Hin;
    [by apply elem_of_nil in Hin|].
  rewrite fmap_cons in Hnd. apply NoDup_cons in Hnd as [Ha Hnd].
  apply elem_of_cons in Hin as [->|Hin].
  - unfold assignedStepMap. cbn [foldl].
    fold (assignedStepMap steps apps (assignApp a 0 steps acc)).
    rewrite assignedStepMap_other by done. rewrite assignApp_map.
    rewrite (Hfresh a) by apply list_elem_of_here.
    destruct (firstSelected _ _ _); cbn [fmap option_fmap option_map].
    + by rewrite lookup_insert_eq.
    + apply Hfresh, list_elem_of_here.
  - unfold assignedStepMap. cbn [foldl].
    fold (assignedStepMap steps apps (assignApp a 0 steps acc)).
    apply IH; [done| |done].
    intros b Hb. rewrite assignApp_map.
    assert (appName b ≠ appName a) as Hne.
    { intros Heq. apply Ha. rewrite <- Heq. by apply list_elem_of_fmap_2. }
    rewrite (Hfresh a) by apply list_elem_of_here.
    destruct (firstSelected _ _ _).
    + rewrite lookup_insert_ne by done. by apply Hfresh, list_elem_of_further.
    + by apply Hfresh, list_elem_of_further.
Qed.

Lemma assignedStepMap_range steps applications : ∀ acc,
  map_Forall (λ _ j, 0 ≤ j < Z.of_nat (length steps)) acc.2 →
  map_Forall (λ _ j, 0 ≤ j < Z.of_nat (length steps))
    (assignedStepMap steps applications acc).
Proof.
  unfold assignedStepMap.
  induction applications as [|a apps IH]; intros acc Hacc; [done|].
  cbn [foldl]. apply IH. rewrite assignApp_map.
  destruct (acc.2 !! appName a); [done|].
  destruct (firstSelected _ _ _) as [k|] eqn:Hk; [|done].
  apply map_Forall_insert_2; [|done].
  apply firstSelected_range in Hk. lia.
Qed.

Lemma assignedStepMap_no_steps applications : ∀ acc,
  assignedStepMap [] applications acc = acc.2.
Proof.
  unfold assignedStepMap.
  induction applications as [|a apps IH]; intros acc; [done|].
  cbn [foldl assignApp]. apply IH.
Qed.

Lemma buildAppDependencyList_map applicationSet applications :
  (buildAppDependencyList applicationSet applications).2 =
  if progressiveSyncsRollingSyncStrategyEnabled applicationSet
  then assignedStepMap (rollingSyncSteps applicationSet) applications
         (replicate (length (rollingSyncSteps applicationSet)) [], ∅)
  else ∅.
Proof.
  unfold buildAppDependencyList.
  destruct (progressiveSyncsRollingSyncStrategyEnabled applicationSet) eqn:Hen.
  - unfold progressiveSyncsRollingSyncStrategyEnabled, isRollingSyncStrategy in Hen.
    destruct (Strategy (Spec applicationSet)) as [s|]; [|done].
    apply andb_true_iff in Hen as [Hen _].
    apply andb_true_iff in Hen as [Hty _].
    apply bool_decide_eq_true in Hty. rewrite Hty. by literals.
  - destruct (Strategy (Spec applicationSet)) as [s|]; [|done].
    destruct (_ || _); [done|].
    exact (assignedStepMap_no_steps applications (_, ∅)).
Qed.

(** The step map that [buildAppDependencyList] returns points into the step
    list. *)
Lemma buildAppDependencyList_range applicationSet applications :
  map_Forall
    (λ _ j, 0 ≤ j < Z.of_nat (length (rollingSyncSteps applicationSet)))
    (buildAppDependencyList applicationSet applications).2.
Proof.
  rewrite buildAppDependencyList_map.
  destruct (progressiveSyncsRollingSyncStrategyEnabled applicationSet);
    [|apply map_Forall_empty].
  apply assignedStepMap_range, map_Forall_empty.
Qed.

(** Where every operator is [In] or [NotIn] and the names are distinct, the
    recorded step of an application is the first step, counted from 1, whose
    expressions all match, and -1 when there is none. *)
Lemma buildAppDependencyList_first_match applicationSet applications app :
  Forall (λ step, Forall validOperator step.(MatchExpressions))
    (rollingSyncSteps applicationSet) →
  NoDup (appName <$> applications) →
  app ∈ applications →
  getAppStep (appName app)
    (buildAppDependencyList applicationSet applications).2
  = specStep applicationSet app.(Meta).(Labels).
Proof.
  intros Hv Hnd Hin. unfold getAppStep, specStep.
  rewrite buildAppDependencyList_map.
  destruct (progressiveSyncsRollingSyncStrategyEnabled applicationSet);
    [|done].
  rewrite assignedStepMap_lookup by done.
  rewrite <- (firstSelected_spec _ _ 0%nat) by done.
  by destruct (firstSelected _ _ _).
Qed.

(** C3 (the code at the failing input): a step whose expression has the
    operator "Exists" selects an application that lacks the label key, so
    the application is recorded in step 1 where §4.4.1 gives -1. *)
Theorem step_assignment_unknown_operator :
  getAppStep "a"
    (buildAppDependencyList (sampleSet "" [existsStep] [])
       [sampleApp "a" "Healthy" "Synced" ∅]).2 = 1
  ∧ specStep (sampleSet "" [existsStep] []) ∅ = -1
  ∧ labelMatchedExpression "dev"
      {| Key := "env"; Operator := "Exists"; Values := [] |} = false.
Proof. split; [|split]; vm_compute; reflexivity. Qed.

(** ** The object store *)

Lemma sameStore_refl w : sameStore w w.
Proof. by repeat split. Qed.

Lemma sameStore_trans w1 w2 w3 :
  sameStore w1 w2 → sameStore w2 w3 → sameStore w1 w3.
Proof. unfold sameStore. intros (?&?&?&?) (?&?&?&?). repeat split; congruence. Qed.

Lemma nextFault_sameStore w : sameStore w (nextFault w).2.
Proof. unfold nextFault. by destruct (faults w). Qed.

Lemma bind_eq {A B} (m : M A) (k : A → M B) w :
  (m ≫= k) w = k (m w).1 (m w).2.
Proof. unfold mbind, M_bind. by destruct (m w). Qed.

Lemma ret_eq {A} (a : A) w : mret (M := M) a w = (a, w).
Proof. done. Qed.

Lemma GetApplicationSet_sameStore w : sameStore w (GetApplicationSet w).2.
Proof.
  unfold GetApplicationSet. rewrite bind_eq.
  pose proof (nextFault_sameStore w) as H.
  destruct (nextFault w).1; [done|]. simpl. done.
Qed.

Lemma GetApplicationSet_result w updatedAppset :
  (GetApplicationSet w).1 = inr updatedAppset → w.(parent) = Some updatedAppset.
Proof.
  unfold GetApplicationSet. rewrite bind_eq.
  destruct (nextFault_sameStore w) as (Hp & _).
  destruct (nextFault w).1; [done|]. simpl. rewrite Hp.
  destruct (parent w); naive_solver.
Qed.

(** A status update either fails and leaves the store alone or replaces the
    status of the stored parent and is traced. *)
Lemma UpdateStatus_spec appset w :
  let r := UpdateStatus appset w in
  (is_Some r.1 ∧ sameStore w r.2)
  ∨ (r.1 = None
     ∧ r.2.(writes) = w.(writes) ++ [WUpdateStatus appset]
     ∧ ∃ stored, w.(parent) = Some stored
         ∧ r.2.(parent) = Some (withConditions appset.(Conditions)
                                  (withApplicationStatus
                                     appset.(ApplicationStatus) stored))).
Proof.
  unfold UpdateStatus. rewrite bind_eq.
  destruct (nextFault_sameStore w) as (Hp & _ & _ & Hw).
  destruct (nextFault w).1; [left; split; [by eexists|apply nextFault_sameStore]|].
  simpl. destruct (parent (nextFault w).2) as [stored|] eqn:Hstored.
  - right. simpl. rewrite Hw. split; [done|]. split; [done|].
    exists stored. split; [congruence|done].
  - left. split; [by eexists|apply nextFault_sameStore].
Qed.

(** ** Writing the per-application status list *)

Lemma retryOnConflict_invariant {A} (fn : M (A * option error))
    (R : World → A * option error → World → Prop) :
  (∀ w, R w (fn w).1 (fn w).2) →
  (∀ w1 r0 w2 r w3, R w1 r0 w2 → is_Some r0.2 → R w2 r w3 → R w1 r w3) →
  ∀ n w, R w (retryOnConflict n fn w).1 (retryOnConflict n fn w).2.
Proof.
  intros Hfn Htrans n. induction n as [|n IH]; intros w.
  - cbn [retryOnConflict]. rewrite bind_eq.
    destruct (fn w).1.2 eqn:He; [destruct (IsConflict _)|]; apply Hfn.
  - cbn [retryOnConflict]. rewrite bind_eq.
    destruct (fn w).1.2 as [e|] eqn:He; [|apply Hfn].
    destruct (IsConflict e); [|apply Hfn].
    eapply Htrans; [apply (Hfn w)|by rewrite He|apply IH].
Qed.

Lemma writtenOnce_trans (P : World → ApplicationSet → Prop) :
  (∀ w w' a, sameStore w w' → P w' a → P w a) →
  ∀ w1 r0 w2 r w3,
    writtenOnce (P w1) w1 r0 w2 → is_Some r0.2 →
    writtenOnce (P w2) w2 r w3 → writtenOnce (P w1) w1 r w3.
Proof.
  intros HP w1 r0 w2 r w3 [[_ Hs]|(a & p & -> & _)] [e He]; [|done].
  intros [[Hr Hs']|(a & p & -> & Ha & Hwr & Hpar & Hst & Hco)].
  - left. split; [done|]. exact (sameStore_trans _ _ _ Hs Hs').
  - right. exists a, p. pose proof Hs as (_ & _ & _ & Hw).
    rewrite <- Hw. repeat split; try done. by eapply HP.
Qed.

Lemma statusUpdateAttempt_writtenOnce statuses w :
  writtenOnce (λ a, a.(ApplicationStatus) = statuses) w
    (statusUpdateAttempt statuses w).1 (statusUpdateAttempt statuses w).2.
Proof.
  unfold statusUpdateAttempt. rewrite bind_eq.
  pose proof (GetApplicationSet_sameStore w) as Hget.
  destruct (GetApplicationSet w).1 as [err|updatedAppset].
  - left. destruct (IgnoreNotFound err); by split.
  - rewrite bind_eq.
    destruct (UpdateStatus_spec (withApplicationStatus statuses updatedAppset)
                (GetApplicationSet w).2)
      as [[[e He] Hs]|(He & Hw & stored & Hstored & Hp)]; rewrite He;
      cbv [mret M_ret]; cbn [fst snd].
    + left. split; [done|]. by eapply sameStore_trans.
    + right. eexists _, _. split; [done|]. split; [done|].
      destruct Hget as (_ & _ & _ & Hwr). rewrite Hw, Hwr.
      split; [done|]. split; [exact Hp|]. by split.
Qed.

Lemma existsb_false {A} (f : A → bool) l :
  existsb f l = false ↔ Forall (λ x, f x = false) l.
Proof.
  induction l as [|x l IH]; simpl; [by split|].
  rewrite orb_false_iff, Forall_cons, IH. done.
Qed.

Lemma statusChanged_false recorded s :
  statusChanged recorded s = false ↔ recordedAlike recorded s.
Proof.
  unfold statusChanged, recordedAlike.
  destruct (recordedStatus recorded (AppName s)) as [c|].
  - rewrite !orb_false_iff, !bool_decide_eq_false. split.
    + intros [[Hm Hs] Ht]. exists c.
      apply dec_stable in Hm, Hs, Ht. by repeat split.
    + intros (c' & [= <-] & Hs & Hm & Ht).
      repeat split; by intros H; apply H.
  - split; [done|]. by intros (c & ? & _).
Qed.

Lemma needToUpdateStatus_false recorded applicationStatuses :
  needToUpdateStatus recorded applicationStatuses = false ↔
  length applicationStatuses = length recorded
  ∧ Forall (recordedAlike recorded) applicationStatuses.
Proof.
  unfold needToUpdateStatus. case_bool_decide as Hlen.
  - split; [done|]. by intros [? _].
  - rewrite existsb_false.
    split; [intros H; split; [done|]|intros [_ H]];
      eapply Forall_impl; try exact H; intros s; by apply statusChanged_false.
Qed.

#[local] Instance nameLe_total : Total nameLe.
Proof.
  intros a b. unfold nameLe.
  destruct (String.leb_total (AppName a) (AppName b)) as [H|H];
    rewrite H; [by left|by right].
Qed.

Lemma sortByName_Sorted statuses : Sorted nameLe (sortByName statuses).
Proof. apply Sorted_merge_sort, _. Qed.

Lemma sortByName_Permutation statuses : sortByName statuses ≡ₚ statuses.
Proof. apply merge_sort_Permutation. Qed.

(** C10: [setAppSetApplicationStatus] makes no call on the store, and
    leaves the set alone, whenever the supplied list is as long as the
    recorded one and every supplied entry agrees in Status, Message and Step
    with the recorded entry of its application (TargetRevisions and
    LastTransitionTime are not compared); and whatever it does, it writes at
    most once, and the list it writes and stores is the supplied one sorted
    by ascending application name. *)
Theorem setAppSetApplicationStatus_skip_and_sort
    applicationSet applicationStatuses w :
  let r := setAppSetApplicationStatus applicationSet applicationStatuses w in
  (length applicationStatuses = length applicationSet.(ApplicationStatus) →
   (∀ s, s ∈ applicationStatuses →
      ∃ c, recordedStatus applicationSet.(ApplicationStatus) s.(AppName) = Some c
           ∧ c.(Status) = s.(Status) ∧ c.(Message) = s.(Message)
           ∧ c.(Step) = s.(Step)) →
   r = ((applicationSet, None), w))
  ∧ (r.2.(writes) = w.(writes)
     ∨ ∃ written p,
         r.2.(writes) = w.(writes) ++ [WUpdateStatus written]
         ∧ r.2.(parent) = Some p
         ∧ p.(ApplicationStatus) = written.(ApplicationStatus)
         ∧ Sorted nameLe written.(ApplicationStatus)
         ∧ written.(ApplicationStatus) ≡ₚ applicationStatuses).
Proof.
  intros r. subst r. unfold setAppSetApplicationStatus. split.
  - intros Hlen Hall.
    assert (needToUpdateStatus (ApplicationStatus applicationSet)
              applicationStatuses = false) as ->; [|done].
    apply needToUpdateStatus_false. split; [done|].
    apply Forall_forall. intros s Hs. by apply Hall.
  - destruct (needToUpdateStatus _ _); [|by left].
    rewrite bind_eq. unfold RetryOnConflict.
    set (statuses := ApplicationStatus (withApplicationStatus _ _)).
    pose proof (retryOnConflict_invariant (statusUpdateAttempt statuses)
                  (λ w, writtenOnce (λ a, a.(ApplicationStatus) = statuses) w)
                  (statusUpdateAttempt_writtenOnce statuses)
                  (writtenOnce_trans
                     (λ _ a, a.(ApplicationStatus) = statuses)
                     (λ _ _ _ _ H, H))
                  4%nat w) as Hr.
    destruct (retryOnConflict 4 (statusUpdateAttempt statuses) w)
      as [[ra re] w'].
    cbn [fst snd] in *.
    assert (w'.(writes) = w.(writes)
            ∨ ∃ written p,
                w'.(writes) = w.(writes) ++ [WUpdateStatus written]
                ∧ w'.(parent) = Some p
                ∧ p.(ApplicationStatus) = written.(ApplicationStatus)
                ∧ Sorted nameLe written.(ApplicationStatus)
                ∧ written.(ApplicationStatus) ≡ₚ applicationStatuses) as H.
    { destruct Hr as [[_ (_ & _ & _ & Hs)]|(a & p & _ & Ha & Hwr & Hp & Hst & _)];
        [by left|].
      right. exists a, p. rewrite Ha. subst statuses.
      cbn [ApplicationStatus withApplicationStatus] in *.
      repeat split; try done.
      - congruence.
      - apply sortByName_Sorted.
      - apply sortByName_Permutation. }
    by destruct re.
Qed.

Lemma setAppSetApplicationStatus_skip_and_sort_witness :
  let applicationSet :=
    sampleSet "" [envStep] [sampleEntry "a" "Waiting" "1"] in
  let supplied :=
    [{| AppName := "a"; LastTransitionTime := Some 5; Message := "";
        Status := "Waiting"; Step := "1"; TargetRevisions := Some ["def"] |}] in
  let w := sampleWorld (Some applicationSet) [] [] in
  setAppSetApplicationStatus applicationSet supplied w
  = ((applicationSet, None), w).
Proof.
  intros applicationSet supplied w.
  apply (proj1 (setAppSetApplicationStatus_skip_and_sort
                  applicationSet supplied w)).
  - reflexivity.
  - intros s Hs. apply list_elem_of_singleton in Hs. rewrite Hs.
    exists (sampleEntry "a" "Waiting" "1"). repeat split.
Defined.

(** ** Conditions *)

Lemma sameCondition_spec a b : sameCondition a b = true ↔ sameFields a b.
Proof.
  unfold sameCondition, sameFields.
  rewrite !andb_true_iff, !bool_decide_eq_true. tauto.
Qed.

Lemma sameFields_refl a : sameFields a a.
Proof. by repeat split. Qed.

Lemma keptCondition_sameFields now existing condition :
  sameFields (keptCondition now existing condition) condition.
Proof.
  unfold keptCondition.
  destruct (_ ≫= _) as [old|]; [|by repeat split].
  destruct (sameCondition old condition) eqn:H; [|by repeat split].
  by apply sameCondition_spec.
Qed.




Ltac condition_constants :=
  cbv [ApplicationSetConditionErrorOccurred
       ApplicationSetConditionParametersGenerated
       ApplicationSetConditionResourcesUpToDate
       ApplicationSetConditionRolloutProgressing
       ApplicationSetConditionStatusTrue ApplicationSetConditionStatusFalse
       ApplicationSetReasonErrorOccurred
       ApplicationSetReasonParametersGenerated] in *.

Ltac condition_cases applicationSet condition :=
  unfold evaluatedConditions, getParametersGeneratedCondition;
  destruct condition as [t m ltt st re];
  cbn [ConditionType ConditionMessage ConditionStatus ConditionReason
       ConditionLastTransitionTime] in *;
  condition_constants;
  destruct (isRollingSyncStrategy applicationSet); cbn [negb];
  repeat (case_bool_decide; simplify_eq; try done).

Lemma evaluatedConditions_rolling applicationSet applicationSet'
    condition parametersGenerated :
  isRollingSyncStrategy applicationSet' = isRollingSyncStrategy applicationSet →
  evaluatedConditions applicationSet' condition parametersGenerated
  = evaluatedConditions applicationSet condition parametersGenerated.
Proof. unfold evaluatedConditions. by intros ->. Qed.







Lemma supplied_NoDup applicationSet condition parametersGenerated :
  NoDup (ConditionType
           <$> (evaluatedConditions applicationSet condition
                  parametersGenerated).2).
Proof.
  condition_cases applicationSet condition; cbn [snd fmap list_fmap app];
    destruct parametersGenerated;
    cbn [ConditionType]; repeat apply NoDup_cons_2;
    rewrite ?not_elem_of_cons; try apply NoDup_nil_2;
    repeat split; try apply not_elem_of_nil; done.
Qed.

Lemma findCondition_head conditions t :
  findCondition conditions t
  = head (filter (λ c, c.(ConditionType) = t) conditions).
Proof.
  unfold findCondition. induction conditions as [|c l IH]; [done|].
  cbn [findConditionIndex]. rewrite filter_cons.
  case_bool_decide as Hc.
  - by rewrite decide_True.
  - rewrite decide_False by done. rewrite <- IH.
    by destruct (findConditionIndex l t).
Qed.

Lemma filter_nil_Forall {A} (P : A → Prop) `{∀ x, Decision (P x)} l :
  Forall (λ x, ¬ P x) l → filter P l = [].
Proof.
  induction 1 as [|x l Hx _ IH]; [done|].
  by rewrite filter_cons, decide_False.
Qed.

Lemma filter_id_Forall {A} (P : A → Prop) `{∀ x, Decision (P x)} l :
  Forall P l → filter P l = l.
Proof.
  induction 1 as [|x l Hx _ IH]; [done|].
  by rewrite filter_cons, decide_True, IH.
Qed.

Lemma head_kept now existing supplied n :
  NoDup (ConditionType <$> supplied) → n ∈ supplied →
  head (filter (λ c, c.(ConditionType) = n.(ConditionType))
          (keptCondition now existing <$> supplied))
  = Some (keptCondition now existing n).
Proof.
  induction supplied as [|e l IH]; intros Hnd Hn; [by apply elem_of_nil in Hn|].
  rewrite fmap_cons in Hnd. apply NoDup_cons in Hnd as [He Hnd].
  rewrite fmap_cons, filter_cons.
  destruct (keptCondition_sameFields now existing e) as (Hty & _).
  destruct (decide (ConditionType e = ConditionType n)) as [Heq|Hne].
  - rewrite decide_True by congruence. cbn [head].
    apply elem_of_cons in Hn as [->|Hn]; [done|].
    destruct He. rewrite Heq. by apply list_elem_of_fmap_2.
  - rewrite decide_False by congruence.
    apply elem_of_cons in Hn as [->|Hn]; [done|]. by apply IH.
Qed.

(** Setting the same conditions on the set they produced changes nothing. *)
Lemma SetConditions_idempotent now now' existing conditions evaluatedTypes :
  NoDup (ConditionType <$> conditions) →
  SetConditions now'
    (SetConditions now existing conditions evaluatedTypes)
    conditions evaluatedTypes
  = SetConditions now existing conditions evaluatedTypes.
Proof.
  intros Hnd. unfold SetConditions at 1.
  set (result := SetConditions now existing conditions evaluatedTypes).
  set (supplied :=
         filter (λ c, isEvaluated evaluatedTypes (ConditionType c)) conditions).
  set (kept :=
         filter (λ c, ¬ isEvaluated evaluatedTypes (ConditionType c)) existing).
  assert (result = kept ++ (keptCondition now existing <$> supplied)) as Hres
    by done.
  assert (NoDup (ConditionType <$> supplied)) as Hnd'.
  { eapply sublist_NoDup; [done|]. apply fmap_sublist, sublist_filter. }
  transitivity (kept ++ (keptCondition now existing <$> supplied)); [|done].
  f_equal.
  - rewrite Hres, filter_app.
    rewrite (filter_id_Forall _ kept).
    + rewrite filter_nil_Forall; [by rewrite app_nil_r|].
      apply Forall_fmap, Forall_forall. intros n Hn. cbn.
      destruct (keptCondition_sameFields now existing n) as (-> & _).
      apply list_elem_of_filter in Hn as [Hn _]. by intros H; apply H.
    + apply Forall_forall. intros c Hc.
      by apply list_elem_of_filter in Hc as [Hc _].
  - apply list_fmap_ext. intros i n Hi.
    assert (n ∈ supplied) as Hn by by eapply list_elem_of_lookup_2.
    unfold keptCondition at 1.
    fold (findCondition result (ConditionType n)).
    rewrite findCondition_head, Hres, filter_app.
    rewrite (filter_nil_Forall _ kept).
    + cbn [app]. rewrite head_kept by done.
      pose proof (keptCondition_sameFields now existing n) as Hs.
      apply sameCondition_spec in Hs. by rewrite Hs.
    + apply Forall_forall. intros c Hc Hty.
      apply list_elem_of_filter in Hc as [Hc _].
      apply list_elem_of_filter in Hn as [Hn _].
      apply Hc. by rewrite Hty.
Qed.

Lemma conditionsDiffer_same conditions : conditionsDiffer conditions conditions = false.
Proof.
  induction conditions as [|c l IH]; [done|].
  cbn [conditionsDiffer]. rewrite IH, orb_false_r.
  apply negb_false_iff, sameCondition_spec, sameFields_refl.
Qed.

Lemma needToUpdateConditions_same conditions :
  needToUpdateConditions conditions conditions = false.
Proof.
  unfold needToUpdateConditions.
  by rewrite bool_decide_eq_false_2, conditionsDiffer_same by (by intros H; apply H).
Qed.

Lemma needToUpdateConditions_false conditions previousConditions :
  needToUpdateConditions conditions previousConditions = false ↔
  Forall2 sameFields conditions previousConditions.
Proof.
  unfold needToUpdateConditions. rewrite orb_false_iff, bool_decide_eq_false.
  split.
  - intros [Hlen Hd]. apply dec_stable in Hlen.
    revert previousConditions Hlen Hd.
    induction conditions as [|c l IH]; intros [|p ps] Hlen Hd; try done.
    cbn [conditionsDiffer] in Hd. apply orb_false_iff in Hd as [Hc Hd].
    apply negb_false_iff, sameCondition_spec in Hc.
    constructor; [done|]. apply IH; [|done]. simpl in Hlen. lia.
  - intros H. split.
    + intros Hn. apply Hn. by eapply Forall2_length.
    + induction H as [|c p l ps Hc _ IH]; [done|].
      cbn [conditionsDiffer]. rewrite IH, orb_false_r.
      by apply negb_false_iff, sameCondition_spec.
Qed.

Lemma conditionUpdateAttempt_writtenOnce newConditions evaluatedTypes w :
  writtenOnce (conditionsSetOn newConditions evaluatedTypes w) w
    (conditionUpdateAttempt newConditions evaluatedTypes w).1
    (conditionUpdateAttempt newConditions evaluatedTypes w).2.
Proof.
  unfold conditionUpdateAttempt. rewrite bind_eq.
  pose proof (GetApplicationSet_sameStore w) as Hget.
  pose proof (GetApplicationSet_result w) as Hres.
  destruct (GetApplicationSet w).1 as [err|updatedAppset].
  - left. destruct (IgnoreNotFound err); by split.
  - rewrite bind_eq. cbn [Now fst snd]. rewrite bind_eq.
    set (updatedAppset1 := withConditions _ updatedAppset).
    destruct (UpdateStatus_spec updatedAppset1 (GetApplicationSet w).2)
      as [[[e He] Hs]|(He & Hw & stored & Hstored & Hp)]; rewrite He;
      cbv [mret M_ret]; cbn [fst snd].
    + left. split; [done|]. by eapply sameStore_trans.
    + right. eexists _, _. split; [done|].
      destruct Hget as (_ & _ & _ & Hwr). rewrite Hw, Hwr.
      split; [|split; [done|split; [exact Hp|by split]]].
      eexists _, _. split; [by apply Hres|done].
Qed.

Lemma conditionsSetOn_sameStore newConditions evaluatedTypes w w' a :
  sameStore w w' →
  conditionsSetOn newConditions evaluatedTypes w' a →
  conditionsSetOn newConditions evaluatedTypes w a.
Proof.
  intros (Hp & _) (now & stored & Hstored & ->).
  exists now, stored. split; [congruence|done].
Qed.

(** What [setApplicationSetStatusCondition] leaves: the conditions set on
    the parent it was given and nothing written, or the conditions set on
    the stored parent, written once. *)
Lemma setApplicationSetStatusCondition_result
    applicationSet condition parametersGenerated w :
  let ec := evaluatedConditions applicationSet condition parametersGenerated in
  let r :=
    setApplicationSetStatusCondition applicationSet condition
      parametersGenerated w in
  (r.2.(writes) = w.(writes)
   ∧ r.1.1 = withConditions
               (SetConditions w.(clock) applicationSet.(Conditions) ec.2 ec.1)
               applicationSet)
  ∨ (conditionsSetOn ec.2 ec.1 w r.1.1
     ∧ r.2.(writes) = w.(writes) ++ [WUpdateStatus r.1.1]).
Proof.
  intros ec r. subst r. unfold setApplicationSetStatusCondition. fold ec.
  destruct ec as [evaluatedTypes newConditions]. cbn [fst snd].
  rewrite bind_eq. cbn [Now fst snd].
  destruct (negb _); [by left|].
  rewrite bind_eq. unfold RetryOnConflict.
  pose proof (retryOnConflict_invariant
                (conditionUpdateAttempt newConditions evaluatedTypes)
                (λ w, writtenOnce
                        (conditionsSetOn newConditions evaluatedTypes w) w)
                (conditionUpdateAttempt_writtenOnce newConditions evaluatedTypes)
                (writtenOnce_trans
                   (conditionsSetOn newConditions evaluatedTypes)
                   (conditionsSetOn_sameStore newConditions evaluatedTypes))
                4%nat w) as Hr.
  destruct (retryOnConflict 4 _ w) as [[ra re] w'].
  unfold writtenOnce in Hr. cbn [fst snd] in *.
  destruct Hr as [[-> (_ & _ & _ & Hs)]|(a & p & [= -> ->] & Ha & Hwr & _)].
  - left. cbn [default]. destruct re as [e|]; [destruct (negb _)|]; by split.
  - right. by split.
Qed.

Lemma setApplicationSetStatusCondition_unchanged
    applicationSet condition parametersGenerated w :
  let ec := evaluatedConditions applicationSet condition parametersGenerated in
  let computed :=
    SetConditions w.(clock) applicationSet.(Conditions) ec.2 ec.1 in
  needToUpdateConditions computed applicationSet.(Conditions) = false →
  setApplicationSetStatusCondition applicationSet condition
    parametersGenerated w
  = ((withConditions computed applicationSet, None), w).
Proof.
  intros ec computed H. unfold setApplicationSetStatusCondition. fold ec.
  destruct ec as [evaluatedTypes newConditions]. cbn [fst snd] in *.
  rewrite bind_eq. cbn [Now fst snd]. fold computed.
  cbn [Conditions withConditions]. by rewrite H.
Qed.





(** C9 (as amended): the routine makes no call on the store when the set it
    computes equals the prior set, element by element and in order, in type,
    reason, status and message; and applying the same condition again, on the
    parent the first call handed back, makes no call on the store either
    when the parent in the store agrees with the one in memory on whether
    the strategy is RollingSync. *)
Theorem setApplicationSetStatusCondition_no_second_write
    applicationSet condition parametersGenerated w :
  let ec := evaluatedConditions applicationSet condition parametersGenerated in
  let r1 :=
    setApplicationSetStatusCondition applicationSet condition
      parametersGenerated w in
  (Forall2 sameFields
     (SetConditions w.(clock) applicationSet.(Conditions) ec.2 ec.1)
     applicationSet.(Conditions) →
   r1.2 = w ∧ r1.1.2 = None)
  ∧ ((∀ stored, w.(parent) = Some stored →
        isRollingSyncStrategy stored = isRollingSyncStrategy applicationSet) →
     let r2 :=
       setApplicationSetStatusCondition r1.1.1 condition parametersGenerated
         r1.2 in
     r2.2 = r1.2 ∧ r2.1.2 = None).
Proof.
  intros ec r1. split.
  - intros H. apply needToUpdateConditions_false in H.
    subst r1. by rewrite setApplicationSetStatusCondition_unchanged.
  - intros Hstored r2.
    assert (∃ now existing parent',
              r1.1.1 = withConditions (SetConditions now existing ec.2 ec.1)
                         parent'
              ∧ isRollingSyncStrategy parent'
                = isRollingSyncStrategy applicationSet)
      as (now & existing & parent' & Hr1 & Hrolling).
    { destruct (setApplicationSetStatusCondition_result applicationSet
                  condition parametersGenerated w)
        as [[_ Hr]|[(now & stored & Hp & Hr) _]]; fold r1 ec in Hr.
      - by eexists _, _, _.
      - eexists _, _, _. split; [done|]. by apply Hstored. }
    assert (evaluatedConditions r1.1.1 condition parametersGenerated = ec)
      as Hec.
    { apply evaluatedConditions_rolling. by rewrite Hr1. }
    subst r2.
    rewrite setApplicationSetStatusCondition_unchanged; [done|].
    rewrite Hec, Hr1. cbn [Conditions withConditions].
    rewrite SetConditions_idempotent by apply supplied_NoDup.
    apply needToUpdateConditions_same.
Qed.

Lemma setApplicationSetStatusCondition_no_second_write_witness :
  let condition :=
    sampleCondition "ResourcesUpToDate" "True" "ApplicationSetUpToDate"
      "All applications have been generated successfully" in
  let w := sampleWorld (Some (plainSet [])) [] [] in
  let r1 := setApplicationSetStatusCondition (plainSet []) condition true w in
  let r2 := setApplicationSetStatusCondition r1.1.1 condition true r1.2 in
  length r1.2.(writes) = 1%nat ∧ r2.2 = r1.2
  ∧ (setApplicationSetStatusCondition r1.1.1 condition true w).2 = w.
Proof.
  intros condition w r1 r2. split; [vm_compute; reflexivity|]. split.
  - refine (proj1 (proj2 (setApplicationSetStatusCondition_no_second_write
                            (plainSet []) condition true w) _)).
    intros stored [= <-]. reflexivity.
  - refine (proj1 (proj1 (setApplicationSetStatusCondition_no_second_write
                            r1.1.1 condition true w) _)).
    vm_compute. repeat (constructor; [by repeat split|]). constructor.
Defined.

(** C9 (counterexample): the parent in memory has the RollingSync strategy
    and the parent in the store, which holds a RolloutProgressing condition,
    has none.  The first call writes the status once and hands back the
    stored parent, on which RolloutProgressing was not evaluated and so is
    kept; the second call, with the same condition on that parent, evaluates
    RolloutProgressing, drops it and writes the status again. *)
Lemma setApplicationSetStatusCondition_second_write :
  let condition :=
    sampleCondition "ErrorOccurred" "True" "ErrorOccurred" "failed" in
  let stored := plainSet [sampleCondition "RolloutProgressing" "True" "" ""] in
  let w := sampleWorld (Some stored) [] [] in
  let r1 :=
    setApplicationSetStatusCondition (sampleSet "" [envStep] []) condition
      true w in
  let r2 := setApplicationSetStatusCondition r1.1.1 condition true r1.2 in
  isRollingSyncStrategy (sampleSet "" [envStep] []) = true
  ∧ isRollingSyncStrategy stored = false
  ∧ r1.1.2 = None ∧ r2.1.2 = None
  ∧ length r1.2.(writes) = 1%nat
  ∧ length r2.2.(writes) = 2%nat
  ∧ ConditionType <$> r1.1.1.(Conditions)
    = ["RolloutProgressing"; "ErrorOccurred"; "ParametersGenerated";
       "ResourcesUpToDate"]
  ∧ ConditionType <$> r2.1.1.(Conditions)
    = ["ErrorOccurred"; "ParametersGenerated"; "ResourcesUpToDate"].
Proof. repeat split; vm_compute; reflexivity. Qed.

(** ** The watch predicate of the parent *)

(** C8 (as amended): on two parents the update predicate returns true iff,
    with progressive sync enabled, the per-application status lists differ,
    or the spec, the labels, the finalizers or the deletion timestamp
    changed, or the annotations changed and it is not the case that the old
    parent carries the refresh annotation and the new one does not.  So it
    returns false when the only change is the removal of the refresh
    annotation, and also when other annotations change along with that
    removal.  It returns false when either parent is nil. *)
Theorem shouldRequeueForApplicationSet_spec
    appSetOld appSetNew enableProgressiveSyncs :
  (shouldRequeueForApplicationSet (Some appSetOld) (Some appSetNew)
     enableProgressiveSyncs = true ↔
   (enableProgressiveSyncs = true
    ∧ applicationStatusesEqual appSetOld.(ApplicationStatus)
        appSetNew.(ApplicationStatus) = false)
   ∨ appSetOld.(Spec) ≠ appSetNew.(Spec)
   ∨ appSetOld.(SetMeta).(Labels) ≠ appSetNew.(SetMeta).(Labels)
   ∨ appSetOld.(SetMeta).(Finalizers) ≠ appSetNew.(SetMeta).(Finalizers)
   ∨ appSetOld.(SetMeta).(DeletionTimestamp)
     ≠ appSetNew.(SetMeta).(DeletionTimestamp)
   ∨ (appSetOld.(SetMeta).(Annotations) ≠ appSetNew.(SetMeta).(Annotations)
      ∧ ¬ (is_Some (appSetOld.(SetMeta).(Annotations)
                    !! AnnotationApplicationSetRefresh)
           ∧ appSetNew.(SetMeta).(Annotations)
             !! AnnotationApplicationSetRefresh = None)))
  ∧ (enableProgressiveSyncs = false →
     appSetOld.(Spec) = appSetNew.(Spec) →
     appSetOld.(SetMeta).(Labels) = appSetNew.(SetMeta).(Labels) →
     appSetOld.(SetMeta).(Finalizers) = appSetNew.(SetMeta).(Finalizers) →
     appSetOld.(SetMeta).(DeletionTimestamp)
     = appSetNew.(SetMeta).(DeletionTimestamp) →
     is_Some (appSetOld.(SetMeta).(Annotations)
              !! AnnotationApplicationSetRefresh) →
     appSetNew.(SetMeta).(Annotations)
     = delete AnnotationApplicationSetRefresh appSetOld.(SetMeta).(Annotations) →
     shouldRequeueForApplicationSet (Some appSetOld) (Some appSetNew)
       enableProgressiveSyncs = false)
  ∧ shouldRequeueForApplicationSet None (Some appSetNew)
      enableProgressiveSyncs = false
  ∧ shouldRequeueForApplicationSet (Some appSetOld) None
      enableProgressiveSyncs = false.
Proof.
  assert (shouldRequeueForApplicationSet (Some appSetOld) (Some appSetNew)
     enableProgressiveSyncs = true ↔
   (enableProgressiveSyncs = true
    ∧ applicationStatusesEqual appSetOld.(ApplicationStatus)
        appSetNew.(ApplicationStatus) = false)
   ∨ appSetOld.(Spec) ≠ appSetNew.(Spec)
   ∨ appSetOld.(SetMeta).(Labels) ≠ appSetNew.(SetMeta).(Labels)
   ∨ appSetOld.(SetMeta).(Finalizers) ≠ appSetNew.(SetMeta).(Finalizers)
   ∨ appSetOld.(SetMeta).(DeletionTimestamp)
     ≠ appSetNew.(SetMeta).(DeletionTimestamp)
   ∨ (appSetOld.(SetMeta).(Annotations) ≠ appSetNew.(SetMeta).(Annotations)
      ∧ ¬ (is_Some (appSetOld.(SetMeta).(Annotations)
                    !! AnnotationApplicationSetRefresh)
           ∧ appSetNew.(SetMeta).(Annotations)
             !! AnnotationApplicationSetRefresh = None))) as Hiff.
  { unfold shouldRequeueForApplicationSet.
    destruct enableProgressiveSyncs;
      destruct (applicationStatusesEqual _ _); cbn [andb negb];
      repeat (case_bool_decide; cbn [andb orb negb]);
      rewrite ?eq_None_not_Some; split; try done; intuition congruence. }
  split; [exact Hiff|]. split; [|done].
  intros He Hs Hl Hf Hd Hold Hnew.
  apply not_true_is_false. intros Htrue. apply Hiff in Htrue.
  assert (appSetNew.(SetMeta).(Annotations)
          !! AnnotationApplicationSetRefresh = None) as Hnone.
  { rewrite Hnew. apply lookup_delete_eq. }
  destruct Htrue as [[? _]|[?|[?|[?|[?|[_ Hn]]]]]]; try congruence.
  by apply Hn.
Qed.

Lemma shouldRequeueForApplicationSet_spec_witness :
  shouldRequeueForApplicationSet
    (Some (annotatedSet refreshAnnotation))
    (Some (annotatedSet noAnnotations)) false = false.
Proof.
  refine (proj1 (proj2 (shouldRequeueForApplicationSet_spec
            (annotatedSet refreshAnnotation) (annotatedSet noAnnotations)
            false))
          eq_refl eq_refl eq_refl eq_refl eq_refl _ _).
  - eexists. reflexivity.
  - vm_compute. reflexivity.
Defined.

(** C8 (counterexample): the refresh annotation is removed and another
    annotation changes in the same update; nothing else changes, and the
    predicate returns false. *)
Lemma shouldRequeueForApplicationSet_misses_annotation :
  let old :=
    annotatedSet {[ AnnotationApplicationSetRefresh := "true"; "team" := "a" ]} in
  let new := annotatedSet {[ "team" := "b" ]} in
  shouldRequeueForApplicationSet (Some old) (Some new) false = false
  ∧ new.(SetMeta).(Annotations)
    ≠ delete AnnotationApplicationSetRefresh old.(SetMeta).(Annotations).
Proof.
  split; [vm_compute; reflexivity|].
  intros H. apply (f_equal (λ m, m !! "team")) in H.
  vm_compute in H. discriminate.
Qed.

(** ** Deletion of the parent *)

Lemma GetApplication_sameStore name w : sameStore w (GetApplication name w).2.
Proof.
  unfold GetApplication. rewrite bind_eq.
  pose proof (nextFault_sameStore w) as H.
  by destruct (nextFault w).1.
Qed.

Lemma GetApplication_found name w app :
  (GetApplication name w).1 = inr app → w.(children) !! name = Some app.
Proof.
  unfold GetApplication. rewrite bind_eq.
  destruct (nextFault_sameStore w) as (_ & Hc & _).
  destruct (nextFault w).1; [done|]. cbn [fst]. rewrite Hc.
  destruct (children w !! name); naive_solver.
Qed.

Lemma GetApplication_NotFound name w err :
  (GetApplication name w).1 = inl err → IsNotFound err = true →
  w.(children) !! name = None.
Proof.
  unfold GetApplication. rewrite bind_eq.
  destruct (nextFault_sameStore w) as (_ & Hc & _).
  destruct (nextFault w).1 as [[]|]; cbn [fst]; [by intros [= <-]..|].
  rewrite Hc. by destruct (children w !! name).
Qed.

Lemma GetApplication_no_fault name w :
  w.(faults) = [] →
  GetApplication name w
  = (match w.(children) !! name with
     | Some app => inr app
     | None => inl (NotFound name)
     end, w).
Proof.
  intros Hf. unfold GetApplication, nextFault. rewrite bind_eq, Hf. done.
Qed.

(** A delete either fails and leaves the store alone or is traced, on an
    object that the store holds. *)
Lemma DeleteApplication_spec name w :
  let r := DeleteApplication name w in
  (is_Some r.1 ∧ sameStore w r.2)
  ∨ (r.1 = None ∧ r.2.(writes) = w.(writes) ++ [WDeleteApplication name]
     ∧ r.2.(parent) = w.(parent) ∧ is_Some (w.(children) !! name)).
Proof.
  unfold DeleteApplication. rewrite bind_eq.
  destruct (nextFault_sameStore w) as (Hp & Hc & _ & Hw).
  destruct (nextFault w).1;
    [left; split; [by eexists|apply nextFault_sameStore]|].
  cbn [fst snd]. rewrite Hc.
  destruct (children w !! name) as [app|] eqn:Happ.
  - right. cbn [fst snd setChildren writes parent]. rewrite Hw, Hp.
    repeat split. by eexists.
  - left. split; [by eexists|apply nextFault_sameStore].
Qed.

Lemma DeleteApplication_no_fault name w app :
  w.(faults) = [] → w.(children) !! name = Some app →
  (DeleteApplication name w).1 = None.
Proof.
  intros Hf Happ. unfold DeleteApplication, nextFault.
  rewrite bind_eq, Hf. cbn [fst snd]. by rewrite Happ.
Qed.

(** The end of the loop body issues at most one delete, and requeues after
    it. *)
Lemma deleteRetrieved_spec requeueTime retrievedApp w :
  let r := deleteRetrieved requeueTime retrievedApp w in
  (is_Some r.1.2 ∧ r.1.1 = 0 ∧ sameStore w r.2)
  ∨ (r.1 = (requeueTime, None)
     ∧ r.2.(writes) = w.(writes) ++ [WDeleteApplication (appName retrievedApp)]
     ∧ r.2.(parent) = w.(parent)).
Proof.
  unfold deleteRetrieved. rewrite bind_eq. cbn [Now fst snd].
  destruct (match DeletionTimestamp (Meta retrievedApp) with
            | Some t => bool_decide (clock w - t > 2 * Minute)
            | None => false
            end).
  - left. split; [by eexists|]. split; [done|]. apply sameStore_refl.
  - rewrite bind_eq.
    destruct (DeleteApplication_spec (appName retrievedApp) w)
      as [[[e He] Hs]|(He & Hw & Hp & _)]; rewrite He;
      cbv [mret M_ret]; cbn [fst snd].
    + left. split; [by eexists|]. by split.
    + by right.
Qed.

Lemma applicationsByName_appName apps : ∀ name app,
  applicationsByName apps !! name = Some app → appName app = name.
Proof.
  unfold applicationsByName.
  assert (∀ m : gmap string Application,
            (∀ name app, m !! name = Some app → appName app = name) →
            ∀ name app,
              foldl (λ m app, <[appName app := app]> m) m apps !! name
              = Some app → appName app = name) as H.
  { induction apps as [|a apps IH]; intros m Hm name app; [apply Hm|].
    cbn [foldl]. apply IH. intros name' app'.
    rewrite lookup_insert. case_decide; [by intros [= <-]|apply Hm]. }
  apply H. intros name app. by rewrite lookup_empty.
Qed.

(** The walk: zero requeue without error means that every entry is gone
    from the store; otherwise at most one delete was issued, and a requeue
    of [requeueTime] follows exactly a delete. *)
Lemma reverseDeletionWalk_spec requeueTime appMap order : ∀ w,
  (∀ name app, appMap !! name = Some app → appName app = name) →
  let r := reverseDeletionWalk requeueTime appMap order w in
  (r.1 = (0, None) ∧ sameStore w r.2
   ∧ ∀ step, step ∈ order →
       is_Some (appMap !! step.(OrderAppName))
       ∧ w.(children) !! step.(OrderAppName) = None)
  ∨ (is_Some r.1.2 ∧ r.1.1 = 0 ∧ sameStore w r.2)
  ∨ (∃ name, r.1 = (requeueTime, None)
       ∧ r.2.(writes) = w.(writes) ++ [WDeleteApplication name]
       ∧ r.2.(parent) = w.(parent)).
Proof.
  intros w Hnames. revert w.
  induction order as [|step rest IH]; intros w; cbn [reverseDeletionWalk].
  - left. split; [done|]. split; [apply sameStore_refl|].
    intros s Hs. by apply elem_of_nil in Hs.
  - destruct (appMap !! OrderAppName step) as [app|] eqn:Happ.
    2:{ right. left. split; [by eexists|]. split; [done|].
        apply sameStore_refl. }
    rewrite bind_eq.
    pose proof (GetApplication_sameStore (appName app) w) as Hget.
    pose proof (GetApplication_NotFound (appName app) w) as Hnf.
    destruct (GetApplication (appName app) w).1 as [err|retrievedApp].
    + destruct (IsNotFound err) eqn:Herr.
      * specialize (Hnf err eq_refl Herr).
        rewrite (Hnames _ _ Happ) in Hnf.
        destruct (IH (GetApplication (appName app) w).2)
          as [(Hr & Hs & Hall)|[(He & Hr & Hs)|(name & Hr & Hw & Hp)]].
        -- left. split; [done|]. split; [by eapply sameStore_trans|].
           intros s [->|Hs']%elem_of_cons.
           ++ split; [by eexists|done].
           ++ destruct (Hall s Hs') as [? Hgone]. split; [done|].
              destruct Hget as (_ & Hc & _). by rewrite <- Hc.
        -- right. left. split; [done|]. split; [done|]. by eapply sameStore_trans.
        -- right. right. exists name. destruct Hget as (Hp' & _ & _ & Hw').
           rewrite Hw, Hp, Hw', Hp'. by repeat split.
      * destruct (deleteRetrieved_spec requeueTime zeroApplication
                    (GetApplication (appName app) w).2)
          as [(He & Hr & Hs)|(Hr & Hw & Hp)].
        -- right. left. split; [done|]. split; [done|]. by eapply sameStore_trans.
        -- right. right. eexists. destruct Hget as (Hp' & _ & _ & Hw').
           rewrite Hw, Hp, Hw', Hp'. by repeat split.
    + destruct (deleteRetrieved_spec requeueTime retrievedApp
                  (GetApplication (appName app) w).2)
        as [(He & Hr & Hs)|(Hr & Hw & Hp)].
      * right. left. split; [done|]. split; [done|]. by eapply sameStore_trans.
      * right. right. eexists. destruct Hget as (Hp' & _ & _ & Hw').
        rewrite Hw, Hp, Hw', Hp'. by repeat split.
Qed.

Lemma reverseDeletionWalk_no_fault requeueTime appMap order : ∀ w,
  w.(faults) = [] → storeNamed w →
  (∀ step, step ∈ order → is_Some (appMap !! step.(OrderAppName))) →
  let r := reverseDeletionWalk requeueTime appMap order w in
  match firstLive w.(children) appMap order with
  | None => r = ((0, None), w)
  | Some live =>
      (deletionOverdue w.(clock) live →
       r = ((0, Some (Failure
                        "application has not been deleted in over 2 minutes")),
            w))
      ∧ (¬ deletionOverdue w.(clock) live →
         r.1 = (requeueTime, None)
         ∧ r.2.(writes) = w.(writes) ++ [WDeleteApplication (appName live)])
  end.
Proof.
  intros w Hf Hstore. induction order as [|step rest IH]; intros Hall;
    cbn [reverseDeletionWalk firstLive]; [done|].
  destruct (Hall step) as [app Happ]; [apply list_elem_of_here|].
  rewrite Happ. cbn [mbind option_bind].
  rewrite bind_eq, GetApplication_no_fault by done. cbn [fst snd].
  destruct (children w !! appName app) as [live|] eqn:Hlive.
  2:{ cbn [IsNotFound]. apply IH. intros s Hs.
      by apply Hall, list_elem_of_further. }
  unfold deleteRetrieved. rewrite bind_eq. cbn [Now fst snd].
  pose proof (Hstore _ _ Hlive) as Hname.
  destruct (DeletionTimestamp (Meta live)) as [t|] eqn:Ht.
  - case_bool_decide as Hover.
    + split; [done|]. intros Hn. destruct Hn. by exists t.
    + split.
      * intros (t' & Ht' & Hgt). unfold deletionOverdue in *. simplify_eq. lia.
      * intros _. rewrite bind_eq.
        destruct (DeleteApplication_spec (appName live) w)
          as [[[e He] _]|(He & Hw & _)].
        -- rewrite (DeleteApplication_no_fault _ _ live) in He by congruence.
           done.
        -- rewrite He. by split.
  - split.
    + intros (t' & Ht' & _). congruence.
    + intros _. rewrite bind_eq.
      destruct (DeleteApplication_spec (appName live) w)
        as [[[e He] _]|(He & Hw & _)].
      * rewrite (DeleteApplication_no_fault _ _ live) in He by congruence.
        done.
      * rewrite He. by split.
Qed.

Lemma stepLe_total : Total stepLe.
Proof. intros a b. unfold stepLe. lia. Qed.

Lemma stepLe_trans : Transitive stepLe.
Proof. intros a b c. unfold stepLe. lia. Qed.

(** The order that [performReverseDeletion] walks is an arrangement of the
    step map with ascending reversed step. *)
Lemma performReverseDeletion_order stepLength appStepMap :
  reverseDeletionOrder stepLength appStepMap
    (merge_sort stepLe (reversedSteps stepLength appStepMap)).
Proof.
  split; [apply merge_sort_Permutation|].
  apply Sorted_merge_sort, stepLe_total.
Qed.

Lemma elem_of_reversedSteps stepLength appStepMap entry :
  entry ∈ reversedSteps stepLength appStepMap ↔
  appStepMap !! entry.(OrderAppName)
  = Some (stepLength - entry.(OrderStep) - 1).
Proof.
  unfold reversedSteps. rewrite list_elem_of_fmap. split.
  - intros ([name k] & -> & Hin). apply elem_of_map_to_list in Hin.
    cbn [OrderAppName OrderStep fst snd]. rewrite Hin. f_equal. lia.
  - intros H. exists (entry.(OrderAppName), stepLength - entry.(OrderStep) - 1).
    split; [|by apply elem_of_map_to_list].
    destruct entry as [name s]. cbn [OrderAppName OrderStep fst snd].
    f_equal. lia.
Qed.

Lemma foldl_insert_is_Some apps : ∀ (m : gmap string Application) name,
  is_Some (m !! name) ∨ name ∈ appName <$> apps →
  is_Some (foldl (λ m app, <[appName app := app]> m) m apps !! name).
Proof.
  induction apps as [|a apps IH]; intros m name H; cbn [foldl].
  - destruct H as [H|H]; [done|by apply elem_of_nil in H].
  - apply IH. destruct (decide (appName a = name)) as [<-|Hne].
    + left. rewrite lookup_insert_eq. by eexists.
    + destruct H as [H|H].
      * left. by rewrite lookup_insert_ne.
      * right. rewrite fmap_cons in H.
        apply elem_of_cons in H as [H|H]; [congruence|done].
Qed.

Lemma applicationsByName_is_Some apps name :
  name ∈ appName <$> apps → is_Some (applicationsByName apps !! name).
Proof. intros H. apply foldl_insert_is_Some. by right. Qed.

(** C4 (as amended): one pass of the reverse deletion, for any order in
    which Go may arrange the walk.  The walk holds exactly the children
    that have a step, later steps first.  The pass issues at most one
    delete, and it returns the 10-second requeue exactly when it issued
    one.  It returns zero requeue without an error only when every child
    that has a step is gone from the store (a child without a step is not
    waited for).  With no failing call, the first child of the walk that is
    still in the store decides: none, zero requeue; one marked for deletion
    more than 2 minutes ago, the fatal error and no delete; any other, its
    delete and the 10-second requeue. *)
Theorem performReverseDeletion_pass appset currentApps order w :
  let stepLength := Z.of_nat (length (rollingSyncSteps appset)) in
  let appStepMap := (buildAppDependencyList appset currentApps).2 in
  let r := performReverseDeletionIn order currentApps w in
  reverseDeletionOrder stepLength appStepMap order →
  ((∀ entry, entry ∈ order ↔
      appStepMap !! entry.(OrderAppName)
      = Some (stepLength - entry.(OrderStep) - 1))
   ∧ StronglySorted stepLe order)
  ∧ ((r.2.(writes) = w.(writes) ∧ r.1.1 = 0)
     ∨ ∃ name, r.2.(writes) = w.(writes) ++ [WDeleteApplication name]
               ∧ r.1 = (10 * Second, None))
  ∧ (r.1 = (0, None) →
     ∀ app, app ∈ currentApps → is_Some (appStepMap !! appName app) →
       w.(children) !! appName app = None)
  ∧ (w.(faults) = [] → storeNamed w →
     match firstLive w.(children) (applicationsByName currentApps) order with
     | None => r = ((0, None), w)
     | Some live =>
         (deletionOverdue w.(clock) live →
          r = ((0, Some (Failure
                           "application has not been deleted in over 2 minutes")),
               w))
         ∧ (¬ deletionOverdue w.(clock) live →
            r.1 = (10 * Second, None)
            ∧ r.2.(writes) = w.(writes) ++ [WDeleteApplication (appName live)])
     end).
Proof.
  intros stepLength appStepMap r [Hperm Hsorted].
  assert (∀ entry, entry ∈ order ↔
            appStepMap !! entry.(OrderAppName)
            = Some (stepLength - entry.(OrderStep) - 1)) as Hentries.
  { intros entry. rewrite Hperm. apply elem_of_reversedSteps. }
  pose proof (reverseDeletionWalk_spec (10 * Second)
                (applicationsByName currentApps) order w
                (applicationsByName_appName currentApps)) as Hwalk.
  fold (performReverseDeletionIn order currentApps w) in Hwalk. fold r in Hwalk.
  cbn zeta in Hwalk.
  split; [|split; [|split]].
  - split; [done|]. apply Sorted_StronglySorted; [apply stepLe_trans|done].
  - destruct Hwalk as [(Hr & Hs & _)|[(He & Hr & Hs)|(name & Hr & Hw & _)]].
    + left. split; [apply Hs|by rewrite Hr].
    + left. split; [apply Hs|done].
    + right. by exists name.
  - intros Hr app Happ [k Hk].
    destruct Hwalk as [(_ & _ & Hall)|[([e He] & _)|(name & Hr' & _)]].
    + apply (Hall {| OrderAppName := appName app;
                     OrderStep := stepLength - k - 1 |}).
      apply Hentries. cbn [OrderAppName OrderStep]. rewrite Hk. f_equal. lia.
    + rewrite Hr in He. done.
    + rewrite Hr in Hr'. done.
  - intros Hf Hstore.
    apply reverseDeletionWalk_no_fault; [done..|].
    intros step Hstep. apply Hentries in Hstep.
    assert (∃ app, app ∈ currentApps ∧ appName app = OrderAppName step)
      as (app & Happ & Hname).
    { subst appStepMap. rewrite buildAppDependencyList_map in Hstep.
      destruct (progressiveSyncsRollingSyncStrategyEnabled appset); [|done].
      destruct (decide (OrderAppName step ∈ appName <$> currentApps))
        as [Hin|Hout].
      - apply list_elem_of_fmap in Hin as (app & ? & ?). by exists app.
      - rewrite assignedStepMap_other in Hstep by done. done. }
    rewrite <- Hname. apply applicationsByName_is_Some.
    by apply list_elem_of_fmap_2.
Qed.

Lemma sampleWorld_storeNamed p apps fs : storeNamed (sampleWorld p apps fs).
Proof.
  intros name app H. cbn [sampleWorld children] in H.
  apply elem_of_list_to_map_2, list_elem_of_fmap in H as (app' & [= -> ->] & _).
  done.
Qed.

Lemma performReverseDeletion_pass_witness :
  let appset := sampleSet "Reverse" [envStep; prodStep] [] in
  let apps := [sampleApp "a" "Healthy" "Synced" devLabel;
               sampleApp "b" "Healthy" "Synced" prodLabel] in
  let w := sampleWorld (Some appset) apps [] in
  (performReverseDeletion appset apps w).1 = (10 * Second, None)
  ∧ (performReverseDeletion appset apps w).2.(writes)
    = [WDeleteApplication "b"].
Proof.
  intros appset apps w.
  pose proof (proj2 (proj2 (proj2
    (performReverseDeletion_pass appset apps
       (merge_sort stepLe
          (reversedSteps (Z.of_nat (length (rollingSyncSteps appset)))
             (buildAppDependencyList appset apps).2))
       w (performReverseDeletion_order _ _))))
    eq_refl (sampleWorld_storeNamed _ _ _)) as H.
  assert (firstLive w.(children) (applicationsByName apps)
            (merge_sort stepLe
               (reversedSteps (Z.of_nat (length (rollingSyncSteps appset)))
                  (buildAppDependencyList appset apps).2))
          = Some (sampleApp "b" "Healthy" "Synced" prodLabel)) as Hlive
    by (vm_compute; reflexivity).
  rewrite Hlive in H. destruct H as [_ H]. apply H.
  intros (t & Ht & _). discriminate Ht.
Defined.

(** C4 (counterexample): a child that no step selects is still in the
    store, and the pass returns zero requeue without an error; the
    reconciler then removes the finalizer of the parent. *)
Lemma performReverseDeletion_unassigned_child :
  let appset := sampleSet "Reverse" [envStep] [] in
  let apps := [sampleApp "x" "Healthy" "Synced" noLabels] in
  let w := sampleWorld (Some appset) apps [] in
  sampleApp "x" "Healthy" "Synced" noLabels ∈ apps
  ∧ is_Some (w.(children) !! "x")
  ∧ (performReverseDeletion appset apps w).1 = (0, None)
  ∧ (reconcileDeletion true appset w).2.(writes)
    = [WUpdateApplicationSet (RemoveFinalizer appset ResourcesFinalizerName)]
  ∧ is_Some ((reconcileDeletion true appset w).2.(children) !! "x").
Proof.
  intros appset apps w. split; [apply list_elem_of_here|].
  split; [by eexists|]. split; [vm_compute; reflexivity|].
  split; [vm_compute; reflexivity|]. by eexists.
Qed.

Lemma ListApplications_sameStore owner w :
  sameStore w (ListApplications owner w).2.
Proof.
  unfold ListApplications. rewrite bind_eq.
  pose proof (nextFault_sameStore w) as H.
  by destruct (nextFault w).1.
Qed.

Lemma getCurrentApplications_sameStore applicationSet w :
  sameStore w (getCurrentApplications applicationSet w).2.
Proof.
  unfold getCurrentApplications. rewrite bind_eq.
  pose proof (ListApplications_sameStore (Name (SetMeta applicationSet)) w).
  by destruct (ListApplications _ w).1.
Qed.

(** An update of a child either fails and leaves the store alone or is
    traced and leaves the parent alone. *)
Lemma writeApplication_spec wr app w :
  let r := writeApplication wr app w in
  (is_Some r.1 ∧ sameStore w r.2)
  ∨ (r.1 = None ∧ r.2.(writes) = w.(writes) ++ [wr app]
     ∧ r.2.(parent) = w.(parent)).
Proof.
  unfold writeApplication. rewrite bind_eq.
  destruct (nextFault_sameStore w) as (Hp & Hc & _ & Hw).
  destruct (nextFault w).1;
    [left; split; [by eexists|apply nextFault_sameStore]|].
  cbn [fst snd]. destruct (children (nextFault w).2 !! appName app).
  - right. cbn [fst snd setChildren writes parent]. by rewrite Hw, Hp.
  - left. split; [by eexists|apply nextFault_sameStore].
Qed.

(** An update of the parent either fails and leaves the store alone or is
    traced and leaves the children alone. *)
Lemma UpdateApplicationSet_spec appset w :
  let r := UpdateApplicationSet appset w in
  (is_Some r.1 ∧ sameStore w r.2)
  ∨ (r.1 = None ∧ r.2.(writes) = w.(writes) ++ [WUpdateApplicationSet appset]
     ∧ r.2.(children) = w.(children)).
Proof.
  unfold UpdateApplicationSet. rewrite bind_eq.
  destruct (nextFault_sameStore w) as (Hp & Hc & _ & Hw).
  destruct (nextFault w).1;
    [left; split; [by eexists|apply nextFault_sameStore]|].
  cbn [fst snd]. destruct (parent (nextFault w).2).
  - right. cbn [fst snd setParent writes children]. by rewrite Hw, Hc.
  - left. split; [by eexists|apply nextFault_sameStore].
Qed.

(** The loop that removes the owner references only updates children, and
    when it succeeds it has updated every one of them. *)
Lemma removeOwnerReferences_spec applications : ∀ w,
  let r := removeOwnerReferences applications w in
  (∃ extra, r.2.(writes) = w.(writes) ++ extra
            ∧ Forall (λ x, ∃ app, x = WUpdateApplication app) extra)
  ∧ (r.1 = None →
     ∀ app, app ∈ applications →
       WUpdateApplication (withMeta app (withOwnerReferences [] app.(Meta)))
       ∈ r.2.(writes)).
Proof.
  induction applications as [|a apps IH]; intros w;
    cbn [removeOwnerReferences].
  - split; [exists []; by rewrite app_nil_r|].
    intros _ app Happ. by apply elem_of_nil in Happ.
  - rewrite bind_eq. unfold UpdateApplication.
    set (stripped := withMeta a (withOwnerReferences [] (Meta a))).
    destruct (writeApplication_spec WUpdateApplication stripped w)
      as [[[e He] Hs]|(He & Hw & _)]; rewrite He.
    + split; [|done]. exists []. rewrite app_nil_r. split; [apply Hs|done].
    + destruct (IH (writeApplication WUpdateApplication stripped w).2)
        as [(extra & Hextra & Hall) Hdone].
      split.
      * exists (WUpdateApplication stripped :: extra).
        rewrite Hextra, Hw, <- app_assoc. split; [done|].
        constructor; [by eexists|done].
      * intros Hr app [->|Happ]%elem_of_cons; [|by apply Hdone].
        rewrite Hextra, Hw. apply elem_of_app. left.
        apply elem_of_app. right. apply list_elem_of_here.
Qed.

Lemma RemoveFinalizer_gone appset finalizer :
  finalizer ∉ (RemoveFinalizer appset finalizer).(SetMeta).(Finalizers).
Proof.
  cbn [RemoveFinalizer SetMeta withFinalizers Finalizers].
  intros H. by apply list_elem_of_filter in H as [H _].
Qed.

(** A successful update of a child stores it. *)
Lemma writeApplication_children wr app w :
  (writeApplication wr app w).1 = None →
  (writeApplication wr app w).2.(children) = storeChild app w.(children).
Proof.
  unfold writeApplication. rewrite bind_eq.
  destruct (nextFault_sameStore w) as (_ & Hc & _).
  destruct (nextFault w).1; cbv [mret M_ret]; cbn [fst snd]; [done|].
  destruct (children (nextFault w).2 !! appName app); cbn [fst snd]; [|done].
  intros _. cbn [setChildren snd children]. by rewrite Hc.
Qed.

(** Once the loop that removes the owner references is through, a child in
    the store either was there before, under a name the loop did not go
    through, or has no owner reference. *)
Lemma removeOwnerReferences_children applications : ∀ w,
  (removeOwnerReferences applications w).1 = None →
  ∀ name child,
    (removeOwnerReferences applications w).2.(children) !! name = Some child →
    (w.(children) !! name = Some child ∧ name ∉ appName <$> applications)
    ∨ child.(Meta).(OwnerReferences) = [].
Proof.
  induction applications as [|app rest IH]; intros w;
    cbn [removeOwnerReferences].
  - intros _ name child Hchild. left. split; [done|]. apply not_elem_of_nil.
  - rewrite bind_eq. unfold UpdateApplication.
    set (stripped := withMeta app (withOwnerReferences [] (Meta app))).
    pose proof (writeApplication_children WUpdateApplication stripped w) as Hc.
    destruct (writeApplication WUpdateApplication stripped w).1 as [e|];
      [done|].
    specialize (Hc eq_refl). intros Hrest name child Hchild.
    destruct (IH _ Hrest name child Hchild) as [[Hbefore Hname]|Hnone];
      [|by right].
    rewrite Hc in Hbefore. unfold storeChild in Hbefore.
    change (appName stripped) with (appName app) in Hbefore.
    destruct (decide (name = appName app)) as [->|Hne].
    + destruct (_ && _).
      * by rewrite lookup_delete_eq in Hbefore.
      * rewrite lookup_insert_eq in Hbefore. injection Hbefore as <-.
        by right.
    + left. split.
      * destruct (_ && _).
        -- by rewrite lookup_delete_ne in Hbefore.
        -- by rewrite lookup_insert_ne in Hbefore.
      * intros [?|?]%elem_of_cons; done.
Qed.

(** The listing holds the children of the store that the parent owns. *)
Lemma getCurrentApplications_listed applicationSet w applications :
  (getCurrentApplications applicationSet w).1 = inr applications →
  ∀ app, app ∈ applications ↔
    applicationSet.(SetMeta).(Name) ∈ app.(Meta).(OwnerReferences)
    ∧ ∃ name, w.(children) !! name = Some app.
Proof.
  unfold getCurrentApplications, ListApplications. rewrite !bind_eq.
  destruct (nextFault_sameStore w) as (_ & Hc & _).
  destruct (nextFault w).1; cbv [mret M_ret]; cbn [fst snd]; [done|].
  intros [= <-] app. rewrite list_elem_of_filter, Hc.
  split; intros [Howned Hin]; (split; [done|]).
  - apply list_elem_of_fmap in Hin as ([name child] & -> & Hin).
    exists name. by apply elem_of_map_to_list in Hin.
  - destruct Hin as [name Hname]. apply list_elem_of_fmap.
    exists (name, app). split; [done|]. by apply elem_of_map_to_list.
Qed.

(** Once the owner references are removed, the parent owns no child of the
    store, when every child is stored under its own name. *)
Lemma removeOwnerReferencesOnDeleteAppSet_disowned applicationSet w :
  storeNamed w →
  (removeOwnerReferencesOnDeleteAppSet applicationSet w).1 = None →
  ∀ name child,
    (removeOwnerReferencesOnDeleteAppSet applicationSet w).2.(children)
    !! name = Some child →
    applicationSet.(SetMeta).(Name) ∉ child.(Meta).(OwnerReferences).
Proof.
  intros Hnamed. unfold removeOwnerReferencesOnDeleteAppSet.
  rewrite bind_eq.
  pose proof (getCurrentApplications_listed applicationSet w) as Hlisted.
  destruct (getCurrentApplications_sameStore applicationSet w)
    as (_ & Hc & _).
  destruct (getCurrentApplications applicationSet w).1
    as [err|applications]; [done|].
  specialize (Hlisted applications eq_refl).
  intros Hok name child Hchild Howned.
  destruct (removeOwnerReferences_children applications _ Hok name child
              Hchild) as [[Hbefore Hname]|Hnone].
  - rewrite Hc in Hbefore. apply Hname.
    rewrite <- (Hnamed name child Hbefore). apply list_elem_of_fmap_2.
    apply Hlisted. split; [done|]. by exists name.
  - rewrite Hnone in Howned. by apply elem_of_nil in Howned.
Qed.

(** The reverse deletion of no application does nothing. *)
Lemma performReverseDeletion_nil appset w :
  performReverseDeletion appset [] w = ((0, None), w).
Proof.
  unfold performReverseDeletion.
  assert ((buildAppDependencyList appset []).2 = ∅) as ->.
  { rewrite buildAppDependencyList_map.
    by destruct (progressiveSyncsRollingSyncStrategyEnabled appset). }
  unfold reversedSteps. rewrite map_to_list_empty. done.
Qed.

(** The deletion branch traces what it does after what was traced before,
    and nothing but deletes of children and updates of the parent. *)
Lemma performReverseDeletion_writes appset currentApps w :
  let r := performReverseDeletion appset currentApps w in
  r.2.(writes) = w.(writes)
  ∨ ∃ name, r.2.(writes) = w.(writes) ++ [WDeleteApplication name].
Proof.
  unfold performReverseDeletion, performReverseDeletionIn.
  destruct (reverseDeletionWalk_spec (10 * Second)
              (applicationsByName currentApps)
              (merge_sort stepLe
                 (reversedSteps (Z.of_nat (length (rollingSyncSteps appset)))
                    (buildAppDependencyList appset currentApps).2))
              w (applicationsByName_appName currentApps))
    as [(_ & (_ & _ & _ & Hs) & _)|[(_ & _ & (_ & _ & _ & Hs))
                                   |(name & _ & Hw & _)]].
  - by left.
  - by left.
  - right. by exists name.
Qed.

Lemma UpdateApplicationSet_writes appset w :
  let r := UpdateApplicationSet appset w in
  (is_Some r.1 ∧ r.2.(writes) = w.(writes))
  ∨ (r.1 = None
     ∧ r.2.(writes) = w.(writes) ++ [WUpdateApplicationSet appset]).
Proof.
  destruct (UpdateApplicationSet_spec appset w)
    as [[He (_ & _ & _ & Hs)]|(He & Hw & _)]; [by left|by right].
Qed.

(** The removal of the owner references traces updates of children only. *)
Lemma removeOwnerReferencesOnDeleteAppSet_writes applicationSet w :
  ∃ extra,
    (removeOwnerReferencesOnDeleteAppSet applicationSet w).2.(writes)
    = w.(writes) ++ extra
    ∧ Forall (λ x, ∃ app, x = WUpdateApplication app) extra.
Proof.
  unfold removeOwnerReferencesOnDeleteAppSet. rewrite bind_eq.
  destruct (getCurrentApplications_sameStore applicationSet w)
    as (_ & _ & _ & Hw).
  destruct (getCurrentApplications applicationSet w).1
    as [err|applications].
  - exists []. cbv [mret M_ret]. cbn [fst snd]. by rewrite app_nil_r.
  - destruct (removeOwnerReferences_spec applications
                (getCurrentApplications applicationSet w).2)
      as [(extra & Hextra & Hall) _].
    exists extra. by rewrite Hextra, Hw.
Qed.

(** The long s folds to s: a deletion order spelled with it is Reverse. *)
Lemma isProgressiveSyncDeletionOrderReversed_folds :
  let longS := String (ascii_of_nat 197) (String (ascii_of_nat 191) "") in
  isProgressiveSyncDeletionOrderReversed
    (sampleSet ("REVER" ++ longS ++ "e") [envStep] []) = true
  ∧ isProgressiveSyncDeletionOrderReversed (sampleSet "Revers" [envStep] [])
    = false.
Proof. split; vm_compute; reflexivity. Qed.

(** C7 (as amended): the parent is being deleted and the policy forbids
    delete.  When the removal of the owner references fails, the reconciler
    returns its error and does nothing more.  When it succeeds, every child
    that was listed has been updated with no owner reference and the
    reconciler does not return: with a deletion order that is not Reverse
    it goes on to update the parent without its resources finalizer and
    returns what that update returns; with the Reverse order it lists the
    children again, returns the error of that listing if there is one, and
    otherwise finds no child left to delete and goes on to the same update
    of the parent.  In no case does it delete a child, and it returns no
    error only after it has written the parent without the finalizer.  (For
    the Reverse order the store is taken to hold every child under its own
    name.) *)
Theorem reconcileDeletion_policy_forbids_delete applicationSetInfo w :
  let r := reconcileDeletion false applicationSetInfo w in
  let removed := removeOwnerReferencesOnDeleteAppSet applicationSetInfo w in
  let finalizerRemoved :=
    RemoveFinalizer applicationSetInfo ResourcesFinalizerName in
  (∀ e, removed.1 = Some e →
     r = (({| RequeueAfter := 0 |}, Some e), removed.2))
  ∧ (removed.1 = None →
     (∀ applications,
        (getCurrentApplications applicationSetInfo w).1 = inr applications →
        ∀ app, app ∈ applications →
          WUpdateApplication
            (withMeta app (withOwnerReferences [] app.(Meta)))
          ∈ r.2.(writes))
     ∧ (ResourcesFinalizerName ∉ Finalizers (SetMeta finalizerRemoved))
     ∧ (isProgressiveSyncDeletionOrderReversed applicationSetInfo = false →
        let updated := UpdateApplicationSet finalizerRemoved removed.2 in
        r = (({| RequeueAfter := 0 |}, updated.1), updated.2))
     ∧ (isProgressiveSyncDeletionOrderReversed applicationSetInfo = true →
        storeNamed w →
        let relisted :=
          getCurrentApplications applicationSetInfo removed.2 in
        match relisted.1 with
        | inl e => r = (({| RequeueAfter := 0 |}, Some e), relisted.2)
        | inr currentApplications =>
            let updated :=
              UpdateApplicationSet finalizerRemoved relisted.2 in
            currentApplications = []
            ∧ r = (({| RequeueAfter := 0 |}, updated.1), updated.2)
        end)
     ∧ (isProgressiveSyncDeletionOrderReversed applicationSetInfo = false
        ∨ storeNamed w →
        r.1.2 = None →
        WUpdateApplicationSet finalizerRemoved ∈ r.2.(writes)))
  ∧ (isProgressiveSyncDeletionOrderReversed applicationSetInfo = false
     ∨ storeNamed w →
     ∀ name, WDeleteApplication name ∈ r.2.(writes) →
             WDeleteApplication name ∈ w.(writes)).
Proof.
  intros r removed finalizerRemoved.
  assert (∀ e, removed.1 = Some e →
            r = (({| RequeueAfter := 0 |}, Some e), removed.2)) as Hfail.
  { intros e He. subst r. unfold reconcileDeletion. cbn [negb].
    rewrite bind_eq. fold removed. by rewrite He. }
  destruct (removeOwnerReferencesOnDeleteAppSet_writes applicationSetInfo w)
    as (extra & Hextra & Hall).
  fold removed in Hextra.
  assert (removed.1 = None →
          (∀ applications,
             (getCurrentApplications applicationSetInfo w).1
             = inr applications →
             ∀ app, app ∈ applications →
               WUpdateApplication
                 (withMeta app (withOwnerReferences [] app.(Meta)))
               ∈ r.2.(writes))
          ∧ (isProgressiveSyncDeletionOrderReversed applicationSetInfo
             = false →
             r = (({| RequeueAfter := 0 |},
                   (UpdateApplicationSet finalizerRemoved removed.2).1),
                  (UpdateApplicationSet finalizerRemoved removed.2).2))
          ∧ (isProgressiveSyncDeletionOrderReversed applicationSetInfo
             = true →
             storeNamed w →
             match (getCurrentApplications applicationSetInfo removed.2).1 with
             | inl e =>
                 r = (({| RequeueAfter := 0 |}, Some e),
                      (getCurrentApplications applicationSetInfo removed.2).2)
             | inr currentApplications =>
                 currentApplications = []
                 ∧ r = (({| RequeueAfter := 0 |},
                         (UpdateApplicationSet finalizerRemoved
                            (getCurrentApplications applicationSetInfo
                               removed.2).2).1),
                        (UpdateApplicationSet finalizerRemoved
                           (getCurrentApplications applicationSetInfo
                              removed.2).2).2)
             end)
          ∧ (isProgressiveSyncDeletionOrderReversed applicationSetInfo = false
             ∨ storeNamed w →
             (∀ name, WDeleteApplication name ∈ r.2.(writes) →
                WDeleteApplication name ∈ w.(writes))
             ∧ (r.1.2 = None →
                WUpdateApplicationSet finalizerRemoved ∈ r.2.(writes))))
    as Hsuccess.
  { intros Hok.
  assert (isProgressiveSyncDeletionOrderReversed applicationSetInfo = false →
          r = (({| RequeueAfter := 0 |},
                (UpdateApplicationSet finalizerRemoved removed.2).1),
               (UpdateApplicationSet finalizerRemoved removed.2).2))
    as Hplain.
  { intros Hrev. subst r. unfold reconcileDeletion. cbn [negb].
    rewrite bind_eq. fold removed. rewrite Hok, Hrev.
    rewrite bind_eq. cbv [mret M_ret]. cbn [fst snd].
    rewrite bool_decide_eq_false_2 by lia.
    rewrite bind_eq. done. }
  set (relisted := getCurrentApplications applicationSetInfo removed.2).
  assert (isProgressiveSyncDeletionOrderReversed applicationSetInfo = true →
          match relisted.1 with
          | inl e => r = (({| RequeueAfter := 0 |}, Some e), relisted.2)
          | inr currentApplications =>
              let pass :=
                performReverseDeletion applicationSetInfo currentApplications
                  relisted.2 in
              match pass.1.2 with
              | Some e => r = (({| RequeueAfter := 0 |}, Some e), pass.2)
              | None =>
                  if bool_decide (pass.1.1 > 0)
                  then r = (({| RequeueAfter := pass.1.1 |}, None), pass.2)
                  else r = (({| RequeueAfter := 0 |},
                             (UpdateApplicationSet finalizerRemoved pass.2).1),
                            (UpdateApplicationSet finalizerRemoved pass.2).2)
              end
          end) as Hreverse.
  { intros Hrev. subst r. unfold reconcileDeletion. cbn [negb].
    rewrite bind_eq. fold removed. rewrite Hok, Hrev.
    rewrite !bind_eq. fold relisted.
    destruct relisted.1 as [e|currentApplications];
      cbv [mret M_ret]; cbn [fst snd]; [done|].
    cbv zeta.
    destruct (performReverseDeletion applicationSetInfo currentApplications
                relisted.2) as [[requeue [e|]] w2]; cbn [fst snd]; [done|].
    destruct (bool_decide (requeue > 0)); [done|].
    by rewrite bind_eq. }
  assert (isProgressiveSyncDeletionOrderReversed applicationSetInfo = true →
          storeNamed w →
          match relisted.1 with
          | inl e => r = (({| RequeueAfter := 0 |}, Some e), relisted.2)
          | inr currentApplications =>
              currentApplications = []
              ∧ r = (({| RequeueAfter := 0 |},
                      (UpdateApplicationSet finalizerRemoved relisted.2).1),
                     (UpdateApplicationSet finalizerRemoved relisted.2).2)
          end) as Hdisowned.
  { intros Hrev Hnamed. specialize (Hreverse Hrev).
    pose proof (getCurrentApplications_listed applicationSetInfo removed.2)
      as Hlisted.
    fold relisted in Hlisted.
    destruct relisted.1 as [e|currentApplications]; [done|].
    assert (currentApplications = []) as ->.
    { destruct currentApplications as [|app rest]; [done|].
      destruct (proj1 (Hlisted _ eq_refl app) (list_elem_of_here _ _))
        as [Howned [name Hname]].
      by destruct (removeOwnerReferencesOnDeleteAppSet_disowned
                     applicationSetInfo w Hnamed Hok name app Hname). }
    split; [done|]. cbv zeta in Hreverse.
    rewrite performReverseDeletion_nil in Hreverse. cbn [fst snd] in Hreverse.
    by rewrite bool_decide_eq_false_2 in Hreverse by lia. }
  assert (∀ applications,
            (getCurrentApplications applicationSetInfo w).1
            = inr applications →
            ∀ app, app ∈ applications →
              WUpdateApplication
                (withMeta app (withOwnerReferences [] app.(Meta)))
              ∈ removed.2.(writes)) as Hupd.
  { clear Hextra. subst removed.
    unfold removeOwnerReferencesOnDeleteAppSet in *. rewrite bind_eq in *.
    destruct (getCurrentApplications applicationSetInfo w).1
      as [err|applications]; [done|].
    destruct (removeOwnerReferences_spec applications
                (getCurrentApplications applicationSetInfo w).2)
      as [_ Hdone].
    intros apps [= <-] app Happ. by apply Hdone. }
  assert (∀ x, x ∈ removed.2.(writes) → x ∈ r.2.(writes)) as Hgrow.
  { intros x Hx.
    assert (∀ v, x ∈ v.(writes) →
              x ∈ (UpdateApplicationSet finalizerRemoved v).2.(writes))
      as Hupdate.
    { intros v Hv.
      destruct (UpdateApplicationSet_writes finalizerRemoved v)
        as [[_ ->]|[_ ->]]; [done|].
      apply elem_of_app. by left. }
    destruct (isProgressiveSyncDeletionOrderReversed applicationSetInfo)
      eqn:Hrev.
    - specialize (Hreverse eq_refl).
      destruct (getCurrentApplications_sameStore applicationSetInfo removed.2)
        as (_ & _ & _ & Hw1).
      fold relisted in Hw1.
      destruct relisted.1 as [e|currentApplications];
        [by rewrite Hreverse; cbn [snd]; rewrite Hw1|].
      cbv zeta in Hreverse.
      assert (x ∈ (performReverseDeletion applicationSetInfo
                     currentApplications relisted.2).2.(writes)) as Hpass.
      { destruct (performReverseDeletion_writes applicationSetInfo
                    currentApplications relisted.2) as [->|[name ->]].
        - by rewrite Hw1.
        - apply elem_of_app. left. by rewrite Hw1. }
      destruct (performReverseDeletion applicationSetInfo currentApplications
                  relisted.2) as [[requeue [e|]] w2]; cbn [fst snd] in *.
      + by rewrite Hreverse.
      + destruct (bool_decide (requeue > 0)); rewrite Hreverse; cbn [snd];
          [done|by apply Hupdate].
    - rewrite (Hplain eq_refl). cbn [snd]. by apply Hupdate. }
  split; [|split; [exact Hplain|]].
  { intros applications Happs app Happ. by eapply Hgrow, Hupd. }
  split; [exact Hdisowned|].
  intros Hcase.
  assert (∃ v, sameStore removed.2 v
            ∧ ((r.1.2 = None
                ∧ r.2.(writes)
                  = v.(writes) ++ [WUpdateApplicationSet finalizerRemoved])
               ∨ (is_Some r.1.2 ∧ r.2.(writes) = v.(writes))))
    as (v & (_ & _ & _ & Hv) & Hr).
  { destruct (isProgressiveSyncDeletionOrderReversed applicationSetInfo)
      eqn:Hrev.
    - destruct Hcase as [?|Hnamed]; [done|].
      specialize (Hdisowned eq_refl Hnamed).
      pose proof (getCurrentApplications_sameStore applicationSetInfo
                    removed.2) as Hs.
      fold relisted in Hs. exists relisted.2. split; [done|].
      destruct relisted.1 as [e|currentApplications].
      + right. rewrite Hdisowned. cbn [fst snd]. split; [by eexists|done].
      + destruct Hdisowned as [_ ->]. cbn [fst snd].
        destruct (UpdateApplicationSet_writes finalizerRemoved relisted.2)
          as [[He Hw]|[He Hw]]; [by right|by left].
    - exists removed.2. split; [apply sameStore_refl|].
      rewrite (Hplain eq_refl). cbn [fst snd].
      destruct (UpdateApplicationSet_writes finalizerRemoved removed.2)
        as [[He Hw]|[He Hw]]; [by right|by left]. }
  split.
  - intros name Hin.
    assert (WDeleteApplication name ∈ removed.2.(writes)) as Hin'.
    { rewrite <- Hv.
      destruct Hr as [[_ Hw]|[_ Hw]]; rewrite Hw in Hin; [|done].
      apply elem_of_app in Hin as [Hin|Hin]; [done|].
      by apply list_elem_of_singleton in Hin. }
    rewrite Hextra in Hin'. apply elem_of_app in Hin' as [Hin'|Hin']; [done|].
    rewrite Forall_forall in Hall. by destruct (Hall _ Hin') as [app ?].
  - intros Hnone. destruct Hr as [[_ ->]|[[e He] _]]; [|congruence].
    apply elem_of_app. right. apply list_elem_of_here. }
  split; [exact Hfail|]. split.
  - intros Hok.
    destruct (Hsuccess Hok) as (Hupd & Hplain & Hreverse & Hwritten).
    split; [exact Hupd|]. split; [apply RemoveFinalizer_gone|].
    split; [exact Hplain|]. split; [exact Hreverse|].
    intros Hcase. by apply Hwritten.
  - intros Hcase name Hin. destruct removed.1 as [e|] eqn:Hremoved.
    + rewrite (Hfail e eq_refl) in Hin. cbn [snd] in Hin.
      rewrite Hextra in Hin. apply elem_of_app in Hin as [Hin|Hin]; [done|].
      rewrite Forall_forall in Hall. by destruct (Hall _ Hin) as [app ?].
    + destruct (Hsuccess eq_refl) as (_ & _ & _ & Hwritten).
      by apply Hwritten.
Qed.

Lemma reconcileDeletion_policy_forbids_delete_witness :
  let appset := sampleSet "Reverse" [envStep] [] in
  let apps := [sampleApp "a" "Healthy" "Synced" devLabel] in
  let w := sampleWorld (Some appset) apps [] in
  isProgressiveSyncDeletionOrderReversed appset = true
  ∧ WUpdateApplicationSet (RemoveFinalizer appset ResourcesFinalizerName)
    ∈ (reconcileDeletion false appset w).2.(writes)
  ∧ ∀ name,
      WDeleteApplication name ∉ (reconcileDeletion false appset w).2.(writes).
Proof.
  intros appset apps w. split; [vm_compute; reflexivity|].
  destruct (reconcileDeletion_policy_forbids_delete appset w)
    as (_ & Hsuccess & Hnone).
  destruct Hsuccess as (_ & _ & _ & _ & Hwritten);
    [vm_compute; reflexivity|].
  assert (storeNamed w) as Hnamed by apply sampleWorld_storeNamed.
  split.
  - apply Hwritten; [by right|]. vm_compute. reflexivity.
  - intros name Hin. apply Hnone in Hin; [|by right].
    by apply elem_of_nil in Hin.
Defined.

(** C7 (counterexample): the policy forbids delete and the reconciler, after
    removing the owner reference of the child, removes the resources
    finalizer of the parent in the same invocation; the parent is gone. *)
Lemma reconcileDeletion_removes_finalizer :
  let appset := sampleSet "" [envStep] [] in
  let child := sampleApp "a" "Healthy" "Synced" devLabel in
  let w := sampleWorld (Some appset) [child] [] in
  ResourcesFinalizerName ∈ appset.(SetMeta).(Finalizers)
  ∧ reconcileDeletion false appset w
    = (({| RequeueAfter := 0 |}, None),
       {| parent := None;
          children :=
            {[ "a" := withMeta child (withOwnerReferences [] child.(Meta)) ]};
          clock := w.(clock); faults := [];
          writes :=
            [WUpdateApplication
               (withMeta child (withOwnerReferences [] child.(Meta)));
             WUpdateApplicationSet
               (RemoveFinalizer appset ResourcesFinalizerName)] |})
  ∧ (RemoveFinalizer appset ResourcesFinalizerName).(SetMeta).(Finalizers) = [].
Proof.
  intros appset child w. split; [apply list_elem_of_here|].
  split; vm_compute; reflexivity.
Qed.

(** The create-or-update loop hands every desired child to
    [CreateOrUpdate] and returns the first error. *)
Lemma createOrUpdateLoop_spec CreateOrUpdate applicationSet
    desiredApplications : ∀ firstError w,
  createOrUpdateLoop CreateOrUpdate applicationSet desiredApplications
    firstError w
  = let r :=
      createOrUpdateAll CreateOrUpdate applicationSet desiredApplications w in
    (match firstError with Some e => Some e | None => head r.1 end, r.2).
Proof.
  induction desiredApplications as [|app rest IH]; intros firstError w;
    cbn [createOrUpdateLoop createOrUpdateAll].
  - cbv [mret M_ret]. cbn [fst snd head]. by destruct firstError.
  - rewrite !bind_eq.
    destruct (CreateOrUpdate applicationSet app w) as [[action err] w1].
    cbn [fst snd]. destruct err as [err|]; rewrite IH; cbv zeta;
      cbv [mret M_ret]; cbn [fst snd head]; by destruct firstError.
Qed.

Lemma createOrUpdateInCluster_first_error CreateOrUpdate applicationSet
    desiredApplications w :
  let r :=
    createOrUpdateAll CreateOrUpdate applicationSet desiredApplications w in
  createOrUpdateInCluster CreateOrUpdate applicationSet desiredApplications w
  = (head r.1, r.2).
Proof. apply createOrUpdateLoop_spec. Qed.

(** The delete loop started without an error ends without one, whatever the
    calls on the children returned: its guard records an error only when one
    is already recorded. *)
Lemma deleteLoop_no_error GetDestinationCluster m clusterList current : ∀ w,
  (deleteLoop GetDestinationCluster m clusterList current None w).1 = None.
Proof.
  induction current as [|app rest IH]; intros w; cbn [deleteLoop]; [done|].
  destruct (bool_decide (appName app ∈ m)); [apply IH|].
  rewrite bind_eq.
  destruct (removeFinalizerOnInvalidDestination _ app clusterList w).1.2;
    [apply IH|].
  rewrite bind_eq.
  by destruct (DeleteApplication _ _).1; apply IH.
Qed.

Lemma deleteInCluster_no_child_error ListClusters GetDestinationCluster
    applicationSet desiredApplications w clusterList current :
  (ListClusters w).1 = inr clusterList →
  (getCurrentApplications applicationSet (ListClusters w).2).1 = inr current →
  (deleteInCluster ListClusters GetDestinationCluster applicationSet
     desiredApplications w).1 = None.
Proof.
  intros Hl Hc. unfold deleteInCluster. rewrite bind_eq, Hl, bind_eq, Hc.
  apply deleteLoop_no_error.
Qed.

(** C6 (the code at the failing input): two children are on the cluster and
    none is desired.  The delete of the first one the loop visits fails; the
    loop goes on and deletes the other, and [deleteInCluster] returns no
    error although the failed child is still stored.  The create-or-update
    loop on the same children, failing on one of them, returns that error. *)
Theorem deleteInCluster_drops_child_error :
  let appset := sampleSet "" [] [] in
  let a := sampleApp "a" "Healthy" "Synced" noLabels in
  let b := sampleApp "b" "Healthy" "Synced" noLabels in
  let w := sampleWorld (Some appset) [a; b]
             [None; Some (FaultFailure "refused"); None] in
  let deleted := deleteInCluster noClusters inCluster appset [] w in
  deleted.1 = None
  ∧ deleted.2.(writes) = [WDeleteApplication "b"]
  ∧ deleted.2.(children) !! "a" = Some a
  ∧ deleted.2.(faults) = []
  ∧ (createOrUpdateInCluster (failingOn "a") appset [a; b] w).1
    = Some (Failure "rejected").
Proof.
  intros appset a b w deleted.
  split; [|split; [|split; [|split]]]; vm_compute; reflexivity.
Qed.

(** The deletion branch with the Reverse order and a policy that allows
    delete: the parent is updated without its finalizer only after a pass
    that found every child with a step gone from the store. *)
Lemma reconcileDeletion_reverse_finalizer applicationSetInfo w appset :
  let r := reconcileDeletion true applicationSetInfo w in
  isProgressiveSyncDeletionOrderReversed applicationSetInfo = true →
  WUpdateApplicationSet appset ∈ r.2.(writes) →
  WUpdateApplicationSet appset ∉ w.(writes) →
  appset = RemoveFinalizer applicationSetInfo ResourcesFinalizerName
  ∧ ∃ currentApps,
      (getCurrentApplications applicationSetInfo w).1 = inr currentApps
      ∧ ∀ app, app ∈ currentApps →
          is_Some ((buildAppDependencyList applicationSetInfo currentApps).2
                   !! appName app) →
          w.(children) !! appName app = None.
Proof.
  intros r Hrev Hin Hout. subst r. revert Hin.
  unfold reconcileDeletion. cbn [negb]. rewrite bind_eq.
  cbv [mret M_ret]. cbn [fst snd]. rewrite Hrev. rewrite !bind_eq.
  destruct (getCurrentApplications_sameStore applicationSetInfo w)
    as (_ & Hc & _ & Hw).
  destruct (getCurrentApplications applicationSetInfo w).1
    as [err|currentApps] eqn:Hcurrent; cbn [fst snd].
  { intros Hin. by rewrite Hw in Hin. }
  set (w1 := (getCurrentApplications applicationSetInfo w).2) in *.
  unfold performReverseDeletion, performReverseDeletionIn.
  set (stepLength := Z.of_nat (length (rollingSyncSteps applicationSetInfo))).
  set (appStepMap := (buildAppDependencyList applicationSetInfo currentApps).2).
  set (order := merge_sort stepLe (reversedSteps stepLength appStepMap)).
  pose proof (reverseDeletionWalk_spec (10 * Second)
                (applicationsByName currentApps) order w1
                (applicationsByName_appName currentApps)) as Hwalk.
  cbn zeta in Hwalk.
  destruct (reverseDeletionWalk (10 * Second) (applicationsByName currentApps)
              order w1) as [[requeue err] w2].
  cbn [fst snd] in *.
  destruct Hwalk as [(Hr & Hs & Hall)|[([e He] & _ & Hs)|(name & Hr & Hw2 & _)]].
  - injection Hr as -> ->. rewrite bool_decide_eq_false_2 by lia.
    rewrite bind_eq. cbn [fst snd]. intros Hin.
    destruct (UpdateApplicationSet_spec
                (RemoveFinalizer applicationSetInfo ResourcesFinalizerName) w2)
      as [[_ Hs']|(_ & Hw' & _)].
    + destruct Hs as (_ & _ & _ & Hw1). destruct Hs' as (_ & _ & _ & Hw2).
      rewrite Hw2, Hw1, Hw in Hin. done.
    + rewrite Hw' in Hin. destruct Hs as (_ & _ & _ & Hw1).
      rewrite Hw1, Hw in Hin.
      apply elem_of_app in Hin as [Hin|Hin]; [done|].
      apply list_elem_of_singleton in Hin as [= ->]. split; [done|].
      exists currentApps. split; [done|]. intros app Happ [k Hk].
      rewrite <- Hc.
      apply (Hall {| OrderAppName := appName app;
                     OrderStep := stepLength - k - 1 |}).
      subst order. rewrite merge_sort_Permutation.
      apply elem_of_reversedSteps. cbn [OrderAppName OrderStep].
      etrans; [exact Hk|f_equal; lia].
  - rewrite He. cbn [fst snd]. intros Hin.
    destruct Hs as (_ & _ & _ & Hw1). by rewrite Hw1, Hw in Hin.
  - injection Hr as -> ->. rewrite bool_decide_eq_true_2 by (unfold Second; lia).
    cbn [fst snd]. intros Hin. rewrite Hw2, Hw in Hin.
    apply elem_of_app in Hin as [Hin|Hin]; [done|].
    by apply list_elem_of_singleton in Hin.
Qed.

(** * Further properties *)

Lemma findApplicationStatusIndex_Some recorded application : ∀ i,
  findApplicationStatusIndex recorded application = Some i →
  ∃ entry, recorded !! i = Some entry ∧ entry.(AppName) = application
           ∧ ∀ j other, (j < i)%nat → recorded !! j = Some other →
                        other.(AppName) ≠ application.
Proof.
  induction recorded as [|s rest IH]; intros i; cbn [findApplicationStatusIndex];
    [done|].
  case_bool_decide as Hname.
  - intros [= <-]. exists s. split; [done|]. split; [done|]. intros; lia.
  - destruct (findApplicationStatusIndex rest application) as [k|] eqn:Hk;
      [|done].
    cbn [fmap option_fmap option_map]. intros [= <-].
    destruct (IH k eq_refl) as (entry & Hentry & Hn & Hfirst).
    exists entry. split; [done|]. split; [done|].
    intros [|j] other Hj Hother.
    + cbn in Hother. by injection Hother as <-.
    + cbn in Hother. apply (Hfirst j); [lia|done].
Qed.

Lemma findApplicationStatusIndex_None recorded application :
  findApplicationStatusIndex recorded application = None ↔
  ∀ entry, entry ∈ recorded → entry.(AppName) ≠ application.
Proof.
  induction recorded as [|s rest IH]; cbn [findApplicationStatusIndex].
  - split; [|done]. intros _ entry Hin. by apply elem_of_nil in Hin.
  - case_bool_decide as Hname.
    + split; [done|]. intros H. destruct (H s); [apply list_elem_of_here|done].
    + destruct (findApplicationStatusIndex rest application) as [k|].
      * split; [done|]. intros H.
        assert (Some k = None) as Hk; [|done].
        apply IH. intros entry Hin. apply H. by apply list_elem_of_further.
      * split; [|done]. intros _ entry [->|Hin]%elem_of_cons; [done|].
        by apply IH.
Qed.

Lemma recordedStatus_Some recorded application entry :
  recordedStatus recorded application = Some entry →
  entry ∈ recorded ∧ entry.(AppName) = application.
Proof.
  unfold recordedStatus.
  destruct (findApplicationStatusIndex recorded application) as [i|] eqn:Hi;
    [|done].
  cbn [mbind option_bind]. intros Hentry.
  destruct (findApplicationStatusIndex_Some _ _ _ Hi) as (e & He & Hn & _).
  assert (e = entry) as -> by congruence.
  split; [by eapply list_elem_of_lookup_2|done].
Qed.

Lemma recordedStatus_is_None recorded application :
  recordedStatus recorded application = None ↔
  ∀ entry, entry ∈ recorded → entry.(AppName) ≠ application.
Proof.
  rewrite <- findApplicationStatusIndex_None. unfold recordedStatus.
  destruct (findApplicationStatusIndex recorded application) as [i|] eqn:Hi;
    [|done].
  cbn [mbind option_bind].
  destruct (findApplicationStatusIndex_Some _ _ _ Hi) as (e & He & _).
  rewrite He. done.
Qed.

Lemma transitionTo_AppName now status message appStepMap cur :
  (transitionTo now status message appStepMap cur).(AppName) = cur.(AppName).
Proof. done. Qed.

Lemma transitionTo_TargetRevisions now status message appStepMap cur :
  (transitionTo now status message appStepMap cur).(TargetRevisions)
  = cur.(TargetRevisions).
Proof. done. Qed.

(** Every block after the comparison of the revisions keeps the name and the
    revisions of the entry. *)
Lemma updatedApplicationStatus_kept now applicationSet appStepMap app :
  let start :=
    observeRevisions now appStepMap app
      (startingStatus now applicationSet appStepMap app) in
  (updatedApplicationStatus now applicationSet appStepMap app).(AppName)
  = start.(AppName)
  ∧ (updatedApplicationStatus now applicationSet appStepMap app)
      .(TargetRevisions) = start.(TargetRevisions).
Proof.
  intros start. unfold updatedApplicationStatus. fold start.
  generalize start. intros cur.
  set (outdated := appOutdated applicationSet app).
  assert (∀ c, (outdatedToWaiting now appStepMap outdated c).(AppName)
               = c.(AppName)
               ∧ (outdatedToWaiting now appStepMap outdated c).(TargetRevisions)
                 = c.(TargetRevisions)) as H1.
  { intros c. unfold outdatedToWaiting. by destruct (_ && _). }
  assert (∀ c, (pendingToProgressing now appStepMap outdated app c).(AppName)
               = c.(AppName)
               ∧ (pendingToProgressing now appStepMap outdated app c)
                   .(TargetRevisions) = c.(TargetRevisions)) as H2.
  { intros c. unfold pendingToProgressing.
    destruct (statusStrings app) as [[h s] p].
    destruct (bool_decide (Status c = "Pending")); [|done].
    destruct (_ && _); [done|]. by destruct (_ || _). }
  assert (∀ c, (waitingToHealthy now appStepMap app c).(AppName) = c.(AppName)
               ∧ (waitingToHealthy now appStepMap app c).(TargetRevisions)
                 = c.(TargetRevisions)) as H3.
  { intros c. unfold waitingToHealthy. by destruct (_ && _). }
  assert (∀ c, (progressingToHealthy now appStepMap app c).(AppName)
               = c.(AppName)
               ∧ (progressingToHealthy now appStepMap app c).(TargetRevisions)
                 = c.(TargetRevisions)) as H4.
  { intros c. unfold progressingToHealthy. by destruct (_ && _). }
  split.
  - rewrite (proj1 (H4 _)), (proj1 (H3 _)), (proj1 (H2 _)), (proj1 (H1 _)).
    done.
  - rewrite (proj2 (H4 _)), (proj2 (H3 _)), (proj2 (H2 _)), (proj2 (H1 _)).
    done.
Qed.

(** X1: the list that [updateApplicationSetApplicationStatus] builds holds
    one entry for each application it is given, in their order and under
    their names, and each entry carries the revisions the application
    reports now.  Recorded entries of applications that are not in the list
    are not carried over. *)
Theorem updatedApplicationStatuses_one_per_application now applicationSet
    applications appStepMap :
  AppName <$> updatedApplicationStatuses now applicationSet applications
                appStepMap
  = appName <$> applications
  ∧ TargetRevisions <$> updatedApplicationStatuses now applicationSet
                          applications appStepMap
    = Revisions <$> applications.
Proof.
  unfold updatedApplicationStatuses. rewrite <- !list_fmap_compose.
  split; apply list_fmap_ext; intros _ app _; cbn [compose];
    destruct (updatedApplicationStatus_kept now applicationSet appStepMap app)
      as [Hname Hrev]; [rewrite Hname|rewrite Hrev]; clear Hname Hrev.
  - assert ((startingStatus now applicationSet appStepMap app).(AppName)
            = appName app) as Hstart.
    { unfold startingStatus. fold (recordedStatus
        applicationSet.(ApplicationStatus) (appName app)).
      destruct (recordedStatus _ _) as [existing|] eqn:Hrec; [|done].
      apply recordedStatus_Some in Hrec as [_ Hname].
      by destruct (bool_decide _). }
    unfold observeRevisions. by destruct (bool_decide _).
  - unfold observeRevisions. by case_bool_decide as Hrev.
Qed.

Lemma promoteStatuses_shape now steps sync m total l : ∀ c out,
  promoteStatuses now steps sync m total l c = Some out →
  Forall2 (λ old new,
             new = old
             ∨ (old.(Status) = "Waiting" ∧ sync !! old.(AppName) = Some true
                ∧ new = transitionTo now "Pending"
                          "Application moved to Pending status, watching for the Application resource to start Progressing."
                          m old))
          l out.
Proof.
  induction l as [|s rest IH]; intros c out; cbn [promoteStatuses].
  - intros [= <-]. constructor.
  - destruct (index steps _) as [step|]; [|done].
    destruct (index total _) as [t|]; [|done].
    destruct (index c _) as [ci|]; [|done]. cbn [mbind option_bind].
    destruct (bool_decide (Status s = "Waiting")) eqn:Hw; cbn [andb].
    2:{ destruct (promoteStatuses now steps sync m total rest c) as [rest'|]
          eqn:Hrest; [|done].
        cbn [mbind option_bind]. intros [= <-].
        constructor; [by left|by eapply IH]. }
    destruct (sync !! AppName s) as [[|]|] eqn:Hs; cbn [default andb].
    2,3: destruct (promoteStatuses now steps sync m total rest c) as [rest'|]
           eqn:Hrest; [|done];
         cbn [mbind option_bind]; intros [= <-];
         constructor; [by left|by eapply IH].
    destruct (maxUpdateAllowed _ _ _).
    + destruct (increment c _) as [c'|]; [|done]. cbn [mbind option_bind].
      destruct (promoteStatuses now steps sync m total rest c') as [rest'|]
        eqn:Hrest; [|done].
      cbn [mbind option_bind]. intros [= <-].
      constructor; [|by eapply IH].
      right. by apply bool_decide_eq_true in Hw.
    + destruct (promoteStatuses now steps sync m total rest c) as [rest'|]
        eqn:Hrest; [|done].
      cbn [mbind option_bind]. intros [= <-].
      constructor; [by left|by eapply IH].
Qed.

(** X2: the list that [updateApplicationSetApplicationStatusProgress]
    builds.  With a RollingSync strategy that has a step it holds the
    recorded entries in their order, each one unchanged or, when it was
    Waiting and its application is enabled for sync, moved to Pending (with
    the time, the message and the step of that transition).  Without such a
    strategy the list is empty. *)
Theorem promotion_only_waiting now applicationSet appSyncMap appStepMap
    appStatuses :
  progressedApplicationStatuses now applicationSet appSyncMap appStepMap
  = Some appStatuses →
  if progressiveSyncsRollingSyncStrategyEnabled applicationSet
  then
    Forall2 (λ old new,
               new = old
               ∨ (old.(Status) = "Waiting"
                  ∧ appSyncMap !! old.(AppName) = Some true
                  ∧ new = transitionTo now "Pending"
                            "Application moved to Pending status, watching for the Application resource to start Progressing."
                            appStepMap old))
            applicationSet.(ApplicationStatus) appStatuses
  else appStatuses = [].
Proof.
  unfold progressedApplicationStatuses.
  destruct (progressiveSyncsRollingSyncStrategyEnabled applicationSet);
    [|by intros [= <-]].
  destruct (countStatuses _ _ _ _) as [[updateCountMap totalCountMap]|];
    [|done].
  cbn [mbind option_bind]. apply promoteStatuses_shape.
Qed.

Lemma promotion_only_waiting_witness :
  let applicationSet :=
    sampleSet "" [cappedStep]
      [sampleEntry "a" "Healthy" "1"; sampleEntry "b" "Waiting" "1";
       sampleEntry "c" "Waiting" "1"] in
  let promoted :=
    transitionTo 1 "Pending"
      "Application moved to Pending status, watching for the Application resource to start Progressing."
      sampleStepMap (sampleEntry "b" "Waiting" "1") in
  let appStatuses :=
    [sampleEntry "a" "Healthy" "1"; promoted; sampleEntry "c" "Waiting" "1"] in
  progressedApplicationStatuses 1 applicationSet sampleSyncMap sampleStepMap
  = Some appStatuses
  ∧ Forall2 (λ old new,
               new = old
               ∨ (old.(Status) = "Waiting"
                  ∧ sampleSyncMap !! old.(AppName) = Some true
                  ∧ new = transitionTo 1 "Pending"
                            "Application moved to Pending status, watching for the Application resource to start Progressing."
                            sampleStepMap old))
            applicationSet.(ApplicationStatus) appStatuses.
Proof.
  intros applicationSet promoted appStatuses.
  assert (progressedApplicationStatuses 1 applicationSet sampleSyncMap
            sampleStepMap = Some appStatuses) as H
    by (vm_compute; reflexivity).
  split; [exact H|].
  exact (promotion_only_waiting 1 applicationSet sampleSyncMap sampleStepMap
           appStatuses H).
Defined.

(** One application against the steps from [i] on: the list of a step
    gains the name when the step selects the application. *)
Lemma assignApp_lists_lookup app steps : ∀ i acc k,
  (assignApp app i steps acc).1 !! k =
  match (if decide (i ≤ k)%nat then steps !! (k - i)%nat else None) with
  | Some step =>
      if stepSelects app.(Meta).(Labels) step.(MatchExpressions)
      then (λ names, names ++ [appName app]) <$> acc.1 !! k
      else acc.1 !! k
  | None => acc.1 !! k
  end.
Proof.
  induction steps as [|step rest IH]; intros i acc k; cbn [assignApp].
  - destruct (decide (i ≤ k)%nat); [|done]. by rewrite lookup_nil.
  - rewrite IH. clear IH.
    destruct (decide (S i ≤ k)%nat) as [Hk|Hk].
    + destruct (decide (i ≤ k)%nat); [|lia].
      replace (k - i)%nat with (S (k - S i)) by lia. cbn [lookup list_lookup].
      assert ((if stepSelects (Labels (Meta app)) (MatchExpressions step)
               then (alter (λ names, names ++ [appName app]) i acc.1,
                     match acc.2 !! appName app with
                     | Some _ => acc.2
                     | None => <[appName app := Z.of_nat i]> acc.2
                     end)
               else acc).1 !! k = acc.1 !! k) as ->; [|done].
      destruct (stepSelects _ _); [|done]. cbn [fst].
      apply list_lookup_alter_ne. lia.
    + destruct (decide (i ≤ k)%nat) as [Hi|Hi].
      * assert (k = i) as -> by lia. rewrite Nat.sub_diag.
        cbn [lookup list_lookup].
        destruct (stepSelects _ _); [|done]. cbn [fst].
        rewrite list_lookup_alter. by rewrite decide_True.
      * destruct (stepSelects _ _); [|done]. cbn [fst].
        apply list_lookup_alter_ne. lia.
Qed.

Lemma assignApps_lists_lookup steps applications : ∀ acc k,
  (foldl (λ acc app, assignApp app 0 steps acc) acc applications).1 !! k =
  match steps !! k with
  | Some step =>
      (λ names,
         names
         ++ (appName <$>
               filter (λ app, stepSelects app.(Meta).(Labels)
                                step.(MatchExpressions))
                      applications))
      <$> acc.1 !! k
  | None => acc.1 !! k
  end.
Proof.
  induction applications as [|app rest IH]; intros acc k; cbn [foldl].
  - destruct (steps !! k); [|done].
    rewrite filter_nil. cbn [fmap list_fmap].
    destruct (acc.1 !! k); [|done]. cbn. by rewrite app_nil_r.
  - rewrite IH, assignApp_lists_lookup. clear IH.
    destruct (decide (0 ≤ k)%nat); [|lia]. rewrite Nat.sub_0_r.
    destruct (steps !! k) as [step|]; [|done].
    rewrite filter_cons.
    destruct (stepSelects (Labels (Meta app)) (MatchExpressions step)) eqn:Hs.
    + rewrite decide_True by done.
      destruct (acc.1 !! k); [|done]. cbn. by rewrite <- app_assoc.
    + rewrite decide_False by (by intros []). done.
Qed.

(** A strategy of a type other than RollingSync has no step to assign. *)
Lemma enabled_strategy applicationSet :
  progressiveSyncsRollingSyncStrategyEnabled applicationSet = true →
  ∃ s, applicationSet.(Spec).(Strategy) = Some s
       ∧ s.(StrategyType) = "RollingSync".
Proof.
  unfold progressiveSyncsRollingSyncStrategyEnabled, isRollingSyncStrategy.
  destruct (Strategy (Spec applicationSet)) as [s|]; [|done].
  intros [[Ht _]%andb_true_iff _]%andb_true_iff.
  apply bool_decide_eq_true in Ht. by exists s.
Qed.

(** X3: the dependency list of [buildAppDependencyList].  With a
    RollingSync strategy that has a step, the list holds for every step, in
    the order of the steps, the names of the applications whose labels the
    step selects, in the order the applications were given; an application
    that several steps select is listed under each of them.  In every other
    case the list is empty. *)
Theorem buildAppDependencyList_lists applicationSet applications :
  (buildAppDependencyList applicationSet applications).1 =
  if progressiveSyncsRollingSyncStrategyEnabled applicationSet
  then (λ step,
          appName <$>
            filter (λ app, stepSelects app.(Meta).(Labels)
                             step.(MatchExpressions))
                   applications)
       <$> rollingSyncSteps applicationSet
  else [].
Proof.
  destruct (progressiveSyncsRollingSyncStrategyEnabled applicationSet)
    eqn:Henabled.
  - destruct (enabled_strategy _ Henabled) as (s & Hs & Htype).
    unfold buildAppDependencyList. rewrite Hs, Htype, Henabled.
    replace (bool_decide ("RollingSync" = "")) with false by done.
    replace (bool_decide ("RollingSync" = "AllAtOnce")) with false by done.
    cbn [orb]. apply list_eq. intros k.
    rewrite assignApps_lists_lookup, list_lookup_fmap. cbn [fst].
    destruct (rollingSyncSteps applicationSet !! k) as [step|] eqn:Hk.
    + rewrite lookup_replicate_2
        by (apply lookup_lt_Some in Hk; done). done.
    + apply lookup_replicate_None. by apply lookup_ge_None in Hk.
  - unfold buildAppDependencyList. rewrite Henabled.
    destruct (Strategy (Spec applicationSet)) as [s|]; [|done].
    destruct (_ || _); [done|]. cbn [length replicate].
    induction applications as [|app rest IH]; [done|]. exact IH.
Qed.

Lemma assignApp_length app steps : ∀ i acc,
  length (assignApp app i steps acc).1 = length acc.1.
Proof.
  induction steps as [|step rest IH]; intros i acc; cbn [assignApp]; [done|].
  rewrite IH. destruct (stepSelects _ _); [|done]. cbn [fst].
  apply length_alter.
Qed.

Lemma assignApp_stepMapListed app steps : ∀ i acc,
  (i + length steps ≤ length acc.1)%nat →
  stepMapListed acc → stepMapListed (assignApp app i steps acc).
Proof.
  induction steps as [|step rest IH]; intros i acc Hlen Hacc;
    cbn [assignApp]; [done|].
  cbn [length] in Hlen. apply IH.
  { destruct (stepSelects _ _); [|lia]. cbn [fst]. rewrite length_alter. lia. }
  destruct (stepSelects _ _); [|done].
  destruct Hacc as [Hmap Hlist].
  destruct (lookup_lt_is_Some_2 acc.1 i) as [old Hold]; [lia|].
  split; cbn [fst snd].
  - intros name j Hj.
    assert (acc.2 !! name = Some j
            ∨ (name = appName app ∧ j = Z.of_nat i)) as [Hin| [-> ->]].
    { destruct (acc.2 !! appName app) eqn:Happ; [by left|].
      destruct (decide (name = appName app)) as [->|Hne].
      - rewrite lookup_insert_eq in Hj. right. split; congruence.
      - rewrite lookup_insert_ne in Hj by done. by left. }
    + destruct (Hmap _ _ Hin) as (Hpos & names & Hnames & Hname).
      split; [done|].
      destruct (decide (Z.to_nat j = i)) as [Hji|Hji].
      * exists (names ++ [appName app]). split.
        -- rewrite Hji in *. rewrite list_lookup_alter, decide_True by done.
           by rewrite Hnames.
        -- apply elem_of_app. by left.
      * exists names. split; [|done].
        by rewrite list_lookup_alter_ne.
    + split; [lia|]. rewrite Nat2Z.id. exists (old ++ [appName app]). split.
      * rewrite list_lookup_alter, decide_True by done. by rewrite Hold.
      * apply elem_of_app. right. apply list_elem_of_here.
  - intros names name Hnames Hname.
    apply list_elem_of_lookup in Hnames as [k Hk].
    assert (is_Some (acc.2 !! name) ∨ name = appName app) as [Hsome| ->].
    { destruct (decide (k = i)) as [->|Hki].
      - rewrite list_lookup_alter, decide_True, Hold in Hk by done.
        injection Hk as <-.
        apply elem_of_app in Hname as [Hname|Hname].
        + left. apply (Hlist old); [by eapply list_elem_of_lookup_2|done].
        + right. by apply list_elem_of_singleton in Hname.
      - rewrite list_lookup_alter_ne in Hk by done.
        left. apply (Hlist names); [by eapply list_elem_of_lookup_2|done]. }
    + destruct (acc.2 !! appName app); [done|].
      destruct (decide (name = appName app)) as [->|Hne].
      * rewrite lookup_insert_eq. by eexists.
      * by rewrite lookup_insert_ne.
    + destruct (acc.2 !! appName app) eqn:Happ; [by rewrite Happ|].
      rewrite lookup_insert_eq. by eexists.
Qed.

Lemma assignApps_stepMapListed steps applications : ∀ acc,
  length acc.1 = length steps →
  stepMapListed acc →
  stepMapListed (foldl (λ acc app, assignApp app 0 steps acc) acc applications).
Proof.
  induction applications as [|app rest IH]; intros acc Hlen Hacc; [done|].
  cbn [foldl]. apply IH.
  - by rewrite assignApp_length.
  - apply assignApp_stepMapListed; [lia|done].
Qed.

Lemma buildAppDependencyList_stepMapListed applicationSet applications :
  stepMapListed (buildAppDependencyList applicationSet applications).
Proof.
  assert (stepMapListed ([], ∅)) as Hempty.
  { split.
    - intros name i Hi. cbn [snd] in Hi. by rewrite lookup_empty in Hi.
    - intros names name Hin. by apply elem_of_nil in Hin. }
  unfold buildAppDependencyList.
  destruct (Strategy (Spec applicationSet)) as [s|]; [|done].
  destruct (_ || _); [done|].
  apply assignApps_stepMapListed; [cbn [fst]; by rewrite length_replicate|].
  split.
  - intros name i Hi. cbn [snd] in Hi. by rewrite lookup_empty in Hi.
  - cbn [fst]. intros names name [-> _]%elem_of_replicate Hname.
    by apply elem_of_nil in Hname.
Qed.

(** X4: the step that [getAppStep] reports from the outcome of
    [buildAppDependencyList].  It is -1 exactly for the names that no step
    lists; any other value is the number, counted from 1 and at most the
    number of steps, of a step whose list holds the name. *)
Theorem getAppStep_listed applicationSet applications name :
  let appDependencyList :=
    (buildAppDependencyList applicationSet applications).1 in
  let step :=
    getAppStep name (buildAppDependencyList applicationSet applications).2 in
  (step = -1 ↔ ∀ names, names ∈ appDependencyList → name ∉ names)
  ∧ (step ≠ -1 →
     1 ≤ step ≤ Z.of_nat (length (rollingSyncSteps applicationSet))
     ∧ ∃ names, appDependencyList !! Z.to_nat (step - 1) = Some names
                ∧ name ∈ names).
Proof.
  intros appDependencyList step. subst appDependencyList step.
  destruct (buildAppDependencyList_stepMapListed applicationSet applications)
    as [Hmap Hlist].
  pose proof (buildAppDependencyList_range applicationSet applications)
    as Hrange.
  unfold getAppStep.
  destruct ((buildAppDependencyList applicationSet applications).2 !! name)
    as [i|] eqn:Hi.
  - destruct (Hmap _ _ Hi) as (Hpos & names & Hnames & Hname).
    specialize (Hrange _ _ Hi). cbn beta in Hrange.
    split.
    + split; [lia|]. intros Hnone.
      destruct (Hnone names); [by eapply list_elem_of_lookup_2|done].
    + intros _. split; [lia|]. exists names.
      by replace (i + 1 - 1) with i by lia.
  - split; [|done]. split; [|done]. intros _ names Hnames Hname.
    destruct (Hlist names name Hnames Hname) as [i Hsome]. congruence.
Qed.

Lemma getAppStep_listed_witness :
  let applicationSet := sampleSet "" [envStep; prodStep] [] in
  let applications :=
    [sampleApp "a" "Healthy" "Synced" devLabel;
     sampleApp "b" "Healthy" "Synced" prodLabel] in
  getAppStep "b" (buildAppDependencyList applicationSet applications).2 ≠ -1
  ∧ ∃ names,
      (buildAppDependencyList applicationSet applications).1
      !! Z.to_nat
           (getAppStep "b"
              (buildAppDependencyList applicationSet applications).2 - 1)
      = Some names
      ∧ "b" ∈ names.
Proof.
  intros applicationSet applications.
  assert (getAppStep "b"
            (buildAppDependencyList applicationSet applications).2 ≠ -1) as H
    by (vm_compute; discriminate).
  split; [exact H|].
  exact (proj2 (proj2 (getAppStep_listed applicationSet applications "b") H)).
Defined.

Lemma haltBeforeNextStep_spec applicationSet appMap names : ∀ syncEnabled,
  haltBeforeNextStep applicationSet appMap names syncEnabled =
  match names with
  | [] => syncEnabled
  | _ => forallb (readyForNextStep applicationSet appMap) names
  end.
Proof.
  induction names as [|name rest IH]; intros syncEnabled; [done|].
  cbn [haltBeforeNextStep forallb]. unfold readyForNextStep at 1.
  destruct (recordedStatus _ name) as [appStatus|]; [|done].
  destruct (appMap !! name) as [app|]; [|done].
  destruct (appSyncEnabledForNextStep applicationSet app appStatus);
    cbn [negb andb]; [|done].
  rewrite IH. by destruct rest.
Qed.

Lemma foldl_insert_lookup (names : list string) (b : bool) :
  ∀ (m : gmap string bool) name,
    foldl (λ m name, <[name := b]> m) m names !! name =
    if decide (name ∈ names) then Some b else m !! name.
Proof.
  induction names as [|n rest IH]; intros m name; cbn [foldl].
  - rewrite decide_False; [done|]. apply not_elem_of_nil.
  - rewrite IH. destruct (decide (name ∈ rest)) as [Hin|Hout].
    + rewrite decide_True; [done|]. by apply list_elem_of_further.
    + destruct (decide (name = n)) as [->|Hne].
      * rewrite lookup_insert_eq, decide_True; [done|apply list_elem_of_here].
      * rewrite lookup_insert_ne by done.
        rewrite decide_False; [done|].
        intros [?|?]%elem_of_cons; done.
Qed.

Lemma buildAppSyncMapFrom_lookup applicationSet appMap all name :
  ∀ rest pre m,
    all = pre ++ rest →
    let result :=
      buildAppSyncMapFrom applicationSet appMap rest
        (stepSyncEnabled applicationSet appMap all (length pre)) m in
    ((∀ names, names ∈ rest → name ∉ names) → result !! name = m !! name)
    ∧ (∀ i names,
         rest !! i = Some names → name ∈ names →
         (∀ j later, (i < j)%nat → rest !! j = Some later → name ∉ later) →
         result !! name
         = Some (stepSyncEnabled applicationSet appMap all (length pre + i))).
Proof.
  induction rest as [|names0 rest IH]; intros pre m Hall result.
  - split; [done|]. intros i names Hi. by rewrite lookup_nil in Hi.
  - subst result. cbn [buildAppSyncMapFrom].
    assert (haltBeforeNextStep applicationSet appMap names0
              (stepSyncEnabled applicationSet appMap all (length pre))
            = stepSyncEnabled applicationSet appMap all
                (length (pre ++ [names0]))) as ->.
    { rewrite haltBeforeNextStep_spec, length_app. cbn [length].
      replace (length pre + 1)%nat with (S (length pre)) by lia.
      cbn [stepSyncEnabled].
      assert (all !! length pre = Some names0) as ->.
      { rewrite Hall. by rewrite list_lookup_middle. }
      by destruct names0. }
    destruct (IH (pre ++ [names0])
                (foldl (λ m name, <[name := stepSyncEnabled applicationSet
                                              appMap all (length pre)]> m)
                       m names0))
      as [Hnone Hsome]; [by rewrite <- app_assoc|].
    split.
    + intros Hout. rewrite Hnone.
      * rewrite foldl_insert_lookup, decide_False; [done|].
        apply Hout, list_elem_of_here.
      * intros names Hnames. by apply Hout, list_elem_of_further.
    + intros [|i] names Hi Hname Hlast.
      * injection Hi as <-. rewrite Hnone.
        -- rewrite foldl_insert_lookup, decide_True by done.
           by rewrite Nat.add_0_r.
        -- intros later [j Hj]%list_elem_of_lookup.
           apply (Hlast (S j)); [lia|done].
      * rewrite (Hsome i names); [|done..|].
        -- rewrite length_app. cbn [length]. do 2 f_equal. lia.
        -- intros j later Hj Hlater. apply (Hlast (S j)); [lia|done].
Qed.

(** X5: the sync map of [buildAppSyncMap].  A name has an entry exactly
    when a step lists it, and the entry is the flag of the last step that
    lists it.  The flag of the first step is true; the flag of a later step
    is decided by the nearest step before it that lists a name: true when
    every name of that step has a recorded status and an application that
    [appSyncEnabledForNextStep] accepts, false otherwise, whatever the flags
    of the steps before were. *)
Theorem buildAppSyncMap_flags applicationSet appDependencyList appMap name :
  let appSyncMap := buildAppSyncMap applicationSet appDependencyList appMap in
  (appSyncMap !! name = None ↔
   ∀ names, names ∈ appDependencyList → name ∉ names)
  ∧ (∀ i names,
       appDependencyList !! i = Some names → name ∈ names →
       (∀ j later, (i < j)%nat → appDependencyList !! j = Some later →
                   name ∉ later) →
       appSyncMap !! name
       = Some (stepSyncEnabled applicationSet appMap appDependencyList i)).
Proof.
  intros appSyncMap. subst appSyncMap. unfold buildAppSyncMap.
  destruct (buildAppSyncMapFrom_lookup applicationSet appMap appDependencyList
              name appDependencyList [] ∅ eq_refl) as [Hnone Hsome].
  cbn [length stepSyncEnabled] in Hnone, Hsome.
  split; [|exact Hsome].
  split.
  - intros Hm names Hnames Hname.
    assert (∃ i listed, appDependencyList !! i = Some listed ∧ name ∈ listed
              ∧ ∀ j later, (i < j)%nat →
                  appDependencyList !! j = Some later → name ∉ later)
      as (i & listed & Hi & Hin & Hlast).
    { clear Hnone Hsome Hm. revert names Hnames Hname.
      induction appDependencyList as [|names0 rest IH]; intros names Hnames Hname;
        [by apply elem_of_nil in Hnames|].
      destruct (decide (Exists (λ later, name ∈ later) rest))
        as [(later & Hlater & Hin)%Exists_exists|Hno].
      - destruct (IH later Hlater Hin) as (i & listed & Hi & Hl & Hlast).
        exists (S i), listed. split; [done|]. split; [done|].
        intros [|j] l Hj Hl'; [lia|]. apply (Hlast j); [lia|done].
      - apply elem_of_cons in Hnames as [->|Hnames].
        + exists 0%nat, names0. split; [done|]. split; [done|].
          intros [|j] l Hj Hl Hin; [lia|]. apply Hno, Exists_exists.
          exists l. split; [by eapply list_elem_of_lookup_2|done].
        + destruct Hno. apply Exists_exists. by exists names. }
    rewrite (Hsome i listed Hi Hin Hlast) in Hm. done.
  - intros Hout. rewrite Hnone by done. apply lookup_empty.
Qed.

Lemma buildAppSyncMap_flags_witness :
  let applicationSet :=
    sampleSet "" [envStep; prodStep]
      [sampleEntry "a" "Healthy" "1"; sampleEntry "b" "Waiting" "2"] in
  let appMap : gmap string Application :=
    {[ "a" := sampleApp "a" "Healthy" "Synced" devLabel;
       "b" := sampleApp "b" "Healthy" "OutOfSync" prodLabel ]} in
  buildAppSyncMap applicationSet [["a"]; ["b"]] appMap !! "b" = Some true.
Proof.
  intros applicationSet appMap.
  refine (proj2 (buildAppSyncMap_flags applicationSet [["a"]; ["b"]] appMap
                   "b") 1%nat ["b"] eq_refl _ _).
  - apply list_elem_of_here.
  - intros [|[|[|j]]] later Hj Hlater; try lia; done.
Defined.

Lemma bool_decide_sym_eq {A} `{EqDecision A} (x y : A) :
  bool_decide (x = y) = bool_decide (y = x).
Proof. apply bool_decide_ext. split; congruence. Qed.

Lemma bool_decide_sym_ne {A} `{EqDecision A} (x y : A) :
  bool_decide (x ≠ y) = bool_decide (y ≠ x).
Proof. apply bool_decide_ext. split; congruence. Qed.

(** X6: [shouldRequeueForApplication] does not tell the old object from the
    new one: swapping them gives the same answer, with or without
    progressive syncs, and for nil objects too. *)
Theorem shouldRequeueForApplication_sym appOld appNew enableProgressiveSyncs :
  shouldRequeueForApplication appOld appNew enableProgressiveSyncs
  = shouldRequeueForApplication appNew appOld enableProgressiveSyncs.
Proof.
  destruct appOld as [appOld|], appNew as [appNew|]; try done.
  unfold shouldRequeueForApplication.
  rewrite (bool_decide_sym_eq (AppSpec appOld)),
    (bool_decide_sym_eq (Annotations (Meta appOld))),
    (bool_decide_sym_eq (Labels (Meta appOld))),
    (bool_decide_sym_eq (Finalizers (Meta appOld))),
    (bool_decide_sym_ne (HealthStatus appOld)),
    (bool_decide_sym_ne (SyncStatus appOld)).
  destruct (_ || _); [done|].
  destruct enableProgressiveSyncs; [|done].
  destruct (_ || _); [done|].
  destruct (OpState appOld) as [stateOld|], (OpState appNew) as [stateNew|];
    try done.
  by rewrite (bool_decide_sym_ne (Phase stateOld)),
    (bool_decide_sym_ne (StartedAt stateOld)).
Qed.

(** X7: an operation state that appears or goes away is not seen by
    [shouldRequeueForApplication].  When two applications agree on spec,
    annotations, labels, finalizers, health and sync status and one of them
    has no operation state, the answer is no, also with progressive syncs;
    owner references, deletion timestamp, operation and revisions are never
    looked at. *)
Theorem shouldRequeueForApplication_operation_state appOld appNew
    enableProgressiveSyncs :
  appOld.(AppSpec) = appNew.(AppSpec) →
  appOld.(Meta).(Annotations) = appNew.(Meta).(Annotations) →
  appOld.(Meta).(Labels) = appNew.(Meta).(Labels) →
  appOld.(Meta).(Finalizers) = appNew.(Meta).(Finalizers) →
  appOld.(HealthStatus) = appNew.(HealthStatus) →
  appOld.(SyncStatus) = appNew.(SyncStatus) →
  appOld.(OpState) = None ∨ appNew.(OpState) = None →
  shouldRequeueForApplication (Some appOld) (Some appNew)
    enableProgressiveSyncs = false.
Proof.
  intros Hspec Hann Hlab Hfin Hhealth Hsync Hstate.
  unfold shouldRequeueForApplication.
  rewrite !bool_decide_eq_true_2 by done. cbn [negb orb].
  destruct enableProgressiveSyncs; [|done].
  rewrite !bool_decide_eq_false_2 by (by intros []). cbn [orb].
  destruct Hstate as [-> | ->]; [done|]. by destruct (OpState appOld).
Qed.

Lemma shouldRequeueForApplication_operation_state_witness :
  let appOld := sampleApp "a" "Healthy" "Synced" devLabel in
  let appNew := withPhase "Running" appOld in
  appOld.(OpState) ≠ appNew.(OpState)
  ∧ shouldRequeueForApplication (Some appOld) (Some appNew) true = false.
Proof.
  intros appOld appNew. split; [done|].
  apply shouldRequeueForApplication_operation_state; try reflexivity.
  by left.
Defined.

Lemma foldl_minRequeueAfter ts : ∀ res,
  let out := foldl minRequeueAfter res ts in
  (out = 0 ↔ res = 0 ∧ ∀ t, t ∈ ts → t = 0)
  ∧ (out ≠ 0 →
     (out = res ∨ out ∈ ts) ∧ (res ≠ 0 → out ≤ res)
     ∧ ∀ t, t ∈ ts → t ≠ 0 → out ≤ t).
Proof.
  induction ts as [|t rest IH]; intros res out; subst out; cbn [foldl].
  - split.
    + split; [|by intros [-> _]]. intros ->. split; [done|].
      intros t Ht. by apply elem_of_nil in Ht.
    + intros Hres. split; [by left|]. split; [lia|].
      intros t Ht. by apply elem_of_nil in Ht.
  - destruct (IH (minRequeueAfter res t)) as [Hzero Hmin]. clear IH.
    assert (minRequeueAfter res t = 0 ↔ res = 0 ∧ t = 0) as Hstep0.
    { unfold minRequeueAfter. repeat case_bool_decide; cbn [andb]; lia. }
    assert (minRequeueAfter res t ≠ 0 →
            (minRequeueAfter res t = res ∨ minRequeueAfter res t = t)
            ∧ (res ≠ 0 → minRequeueAfter res t ≤ res)
            ∧ (t ≠ 0 → minRequeueAfter res t ≤ t)) as Hstep.
    { unfold minRequeueAfter. repeat case_bool_decide; cbn [andb]; lia. }
    split.
    + rewrite Hzero, Hstep0. split.
      * intros [[-> ->] Hrest]. split; [done|].
        intros t' [->|Hin]%elem_of_cons; [done|by apply Hrest].
      * intros [-> Hall]. split.
        -- split; [done|]. apply Hall, list_elem_of_here.
        -- intros t' Hin. by apply Hall, list_elem_of_further.
    + intros Hout. destruct (Hmin Hout) as (Hfrom & Hle & Hrest).
      destruct (decide (minRequeueAfter res t = 0)) as [Hz|Hnz].
      * apply Hstep0 in Hz as [-> ->].
        destruct Hfrom as [Hfrom|Hfrom].
        { change (minRequeueAfter 0 0) with 0 in *. done. }
        split; [right; by apply list_elem_of_further|]. split; [done|].
        intros t' [->|Hin]%elem_of_cons Ht'; [done|by apply Hrest].
      * destruct (Hstep Hnz) as (Hwhich & Hres & Ht). specialize (Hle Hnz).
        split.
        -- destruct Hfrom as [->|Hin]; [|right; by apply list_elem_of_further].
           destruct Hwhich as [->| ->]; [by left|].
           right. apply list_elem_of_here.
        -- split; [intros Hr; specialize (Hres Hr); lia|].
           intros t' [->|Hin]%elem_of_cons Ht';
             [specialize (Ht Ht'); lia|by apply Hrest].
Qed.

Lemma foldl_nested_requeue {ApplicationSetGenerator Generator : Type}
    (GetRelevantGenerators : ApplicationSetGenerator → list Generator)
    (GetRequeueAfter : Generator → ApplicationSetGenerator → Z)
    (requested : list ApplicationSetGenerator) : ∀ res,
  foldl (λ res requestedGenerator,
           foldl (λ res g,
                    minRequeueAfter res (GetRequeueAfter g requestedGenerator))
                 res (GetRelevantGenerators requestedGenerator))
        res requested
  = foldl minRequeueAfter res
      (requestedGenerator ← requested;
       (λ g, GetRequeueAfter g requestedGenerator)
       <$> GetRelevantGenerators requestedGenerator).
Proof.
  induction requested as [|gen rest IH]; intros res; [done|].
  cbn [foldl mbind list_bind]. rewrite foldl_app, IH. f_equal.
  generalize (GetRelevantGenerators gen) res.
  induction l as [|g gs IHg]; intros r; [done|].
  cbn [foldl fmap list_fmap]. apply IHg.
Qed.

(** X8: [getMinRequeueAfter] returns the smallest interval that is not
    zero among those the relevant generators of the requested generators
    ask for, and zero exactly when all of them are zero (or there is none):
    a generator that asks for no requeue never hides one that does. *)
Theorem getMinRequeueAfter_min {ApplicationSetGenerator Generator : Type}
    (SpecGenerators : ApplicationSetSpec → list ApplicationSetGenerator)
    (GetRelevantGenerators : ApplicationSetGenerator → list Generator)
    (GetRequeueAfter : Generator → ApplicationSetGenerator → Z)
    (applicationSetInfo : ApplicationSet) :
  let res :=
    getMinRequeueAfter SpecGenerators GetRelevantGenerators GetRequeueAfter
      applicationSetInfo in
  let requested :=
    requestedRequeue SpecGenerators GetRelevantGenerators GetRequeueAfter
      applicationSetInfo in
  (res = 0 ↔ ∀ t, requested t → t = 0)
  ∧ (res ≠ 0 → requested res ∧ ∀ t, requested t → t ≠ 0 → res ≤ t).
Proof.
  intros res requested. subst res. unfold getMinRequeueAfter.
  rewrite foldl_nested_requeue.
  set (ts := _ ≫= _).
  assert (∀ t, requested t ↔ t ∈ ts) as Hts.
  { intros t. subst ts requested. unfold requestedRequeue.
    rewrite list_elem_of_bind. split.
    - intros (gen & g & Hgen & Hg & ->). exists gen. split; [|done].
      apply list_elem_of_fmap. by exists g.
    - intros (gen & (g & -> & Hg)%list_elem_of_fmap & Hgen). by exists gen, g. }
  destruct (foldl_minRequeueAfter ts 0) as [Hzero Hmin].
  split.
  - rewrite Hzero. split.
    + intros [_ Hall] t Ht. by apply Hall, Hts.
    + intros Hall. split; [done|]. intros t Ht. by apply Hall, Hts.
  - intros Hres. destruct (Hmin Hres) as ([Hz|Hin] & _ & Hle); [done|].
    split; [by apply Hts|]. intros t Ht. by apply Hle, Hts.
Qed.

Lemma getMinRequeueAfter_min_witness :
  let SpecGenerators (_ : ApplicationSetSpec) : list Z := [180; 0; 60] in
  let GetRelevantGenerators (_ : Z) : list unit := [()] in
  let GetRequeueAfter (_ : unit) (requestedGenerator : Z) : Z :=
    requestedGenerator in
  let res :=
    getMinRequeueAfter SpecGenerators GetRelevantGenerators GetRequeueAfter
      (plainSet []) in
  res = 60
  ∧ ∀ t, requestedRequeue SpecGenerators GetRelevantGenerators
           GetRequeueAfter (plainSet []) t → t ≠ 0 → res ≤ t.
Proof.
  intros SpecGenerators GetRelevantGenerators GetRequeueAfter res.
  split; [reflexivity|].
  refine (proj2 (proj2 (getMinRequeueAfter_min SpecGenerators
                          GetRelevantGenerators GetRequeueAfter (plainSet []))
                   _)).
  vm_compute. discriminate.
Defined.

Section ValidationProperties.
Variable QualifiedName : Application → string.
Variable Project : string → string.
Variable GetAppProject : string → M (option error).
Variable GetDestinationCluster : string → error + ClusterSpecifier.
Variable Error : error → string.

(** What the loop of [validateGeneratedApplications] guarantees from any
    point on: the map only grows, an application whose name was seen
    before gets an entry, and the applications left without an entry have
    names that are new and pairwise distinct. *)
Lemma validateLoop_spec applicationSetInfo desiredApplications :
  ∀ errorsByApp namesSet w,
    match (validateLoop QualifiedName Project GetAppProject
             GetDestinationCluster Error applicationSetInfo
             desiredApplications errorsByApp namesSet w).1 with
    | inl e => IsNotFound e = false
    | inr errors =>
        (∀ key, is_Some (errorsByApp !! key) → is_Some (errors !! key))
        ∧ (∀ key, is_Some (errors !! key) →
             is_Some (errorsByApp !! key)
             ∨ ∃ app, app ∈ desiredApplications ∧ key = QualifiedName app)
        ∧ NoDup (appName <$> validApplications QualifiedName errors
                               desiredApplications)
        ∧ (∀ app, app ∈ validApplications QualifiedName errors
                          desiredApplications →
                  appName app ∉ namesSet)
    end.
Proof.
  induction desiredApplications as [|app rest IH];
    intros errorsByApp namesSet w.
  { cbn. split; [done|]. split; [by left|]. split; [constructor|].
    intros app Happ. by apply elem_of_nil in Happ. }
  assert (∀ errors1 namesSet1 w1,
            (∀ key, is_Some (errorsByApp !! key) → is_Some (errors1 !! key)) →
            (∀ key, is_Some (errors1 !! key) →
               is_Some (errorsByApp !! key) ∨ key = QualifiedName app) →
            (appName app ∈ namesSet1) →
            (∀ name, name ∈ namesSet → name ∈ namesSet1) →
            (appName app ∈ namesSet → is_Some (errors1 !! QualifiedName app)) →
            match (validateLoop QualifiedName Project GetAppProject
                     GetDestinationCluster Error applicationSetInfo rest
                     errors1 namesSet1 w1).1 with
            | inl e => IsNotFound e = false
            | inr errors =>
                (∀ key, is_Some (errorsByApp !! key) → is_Some (errors !! key))
                ∧ (∀ key, is_Some (errors !! key) →
                     is_Some (errorsByApp !! key)
                     ∨ ∃ a, a ∈ app :: rest ∧ key = QualifiedName a)
                ∧ NoDup (appName <$> validApplications QualifiedName errors
                                       (app :: rest))
                ∧ (∀ a, a ∈ validApplications QualifiedName errors
                              (app :: rest) →
                        appName a ∉ namesSet)
            end) as Hstep.
  { intros errors1 namesSet1 w1 Hgrow Hkeys Hseen Hsub Hdup.
    specialize (IH errors1 namesSet1 w1).
    destruct (validateLoop _ _ _ _ _ _ rest errors1 namesSet1 w1).1
      as [e|errors]; [done|].
    destruct IH as (Hmono & Hfrom & Hnodup & Hnew).
    split; [intros key Hkey; by apply Hmono, Hgrow|].
    split.
    { intros key Hkey. destruct (Hfrom key Hkey) as [H1|(a & Ha & ->)].
      - destruct (Hkeys key H1) as [?| ->]; [by left|].
        right. exists app. split; [apply list_elem_of_here|done].
      - right. exists a. split; [by apply list_elem_of_further|done]. }
    unfold validApplications in *. rewrite filter_cons.
    destruct (decide (errors !! QualifiedName app = None)) as [Hvalid|Hinvalid].
    - assert (appName app ∉ namesSet) as Hfresh.
      { intros Hin. destruct (Hmono _ (Hdup Hin)) as [x Hx]. congruence. }
      split.
      + cbn [fmap list_fmap]. constructor; [|done].
        intros (a & Heq & Ha)%list_elem_of_fmap.
        apply (Hnew a Ha). by rewrite <- Heq.
      + intros a [->|Ha]%elem_of_cons; [done|].
        intros Hin. by apply (Hnew a Ha), Hsub.
    - split; [done|]. intros a Ha Hin. by apply (Hnew a Ha), Hsub. }
  cbn [validateLoop]. case_bool_decide as Hseen.
  { apply Hstep.
    - intros key [x Hx]. destruct (decide (key = QualifiedName app)) as [->|Hne].
      + rewrite lookup_insert_eq. by eexists.
      + rewrite lookup_insert_ne by done. by eexists.
    - intros key. destruct (decide (key = QualifiedName app)) as [->|Hne];
        [by right|]. rewrite lookup_insert_ne by done. by left.
    - done.
    - done.
    - intros _. rewrite lookup_insert_eq. by eexists. }
  rewrite bind_eq.
  destruct (GetAppProject (Project (AppSpec app)) w).1 as [e|].
  - destruct (IsNotFound e) eqn:Hnf; [|exact Hnf].
    apply Hstep.
    + intros key [x Hx]. destruct (decide (key = QualifiedName app)) as [->|Hne].
      * rewrite lookup_insert_eq. by eexists.
      * rewrite lookup_insert_ne by done. by eexists.
    + intros key. destruct (decide (key = QualifiedName app)) as [->|Hne];
        [by right|]. rewrite lookup_insert_ne by done. by left.
    + set_solver.
    + set_solver.
    + done.
  - destruct (GetDestinationCluster (AppSpec app)) as [e|cluster].
    + apply Hstep.
      * intros key [x Hx].
        destruct (decide (key = QualifiedName app)) as [->|Hne].
        -- rewrite lookup_insert_eq. by eexists.
        -- rewrite lookup_insert_ne by done. by eexists.
      * intros key. destruct (decide (key = QualifiedName app)) as [->|Hne];
          [by right|]. rewrite lookup_insert_ne by done. by left.
      * set_solver.
      * set_solver.
      * done.
    + apply Hstep; [done|by left|set_solver|set_solver|done].
Qed.

(** X9: [validateGeneratedApplications] and the filter of [Reconcile] on
    its outcome.  The call fails only with an error of the project lookup
    that is not a not-found error.  Otherwise every key of the error map is
    the qualified name of a generated application, and the applications
    that [Reconcile] keeps (those whose qualified name has no error) have
    pairwise distinct names: of the applications that share a name, at most
    the first survives. *)
Theorem validApplications_distinct_names desiredApplications
    applicationSetInfo w :
  match (validateGeneratedApplications QualifiedName Project GetAppProject
           GetDestinationCluster Error desiredApplications
           applicationSetInfo w).1 with
  | inl e => IsNotFound e = false
  | inr validateErrors =>
      (∀ key, is_Some (validateErrors !! key) →
         ∃ app, app ∈ desiredApplications ∧ key = QualifiedName app)
      ∧ NoDup (appName <$> validApplications QualifiedName validateErrors
                             desiredApplications)
  end.
Proof.
  unfold validateGeneratedApplications.
  pose proof (validateLoop_spec applicationSetInfo desiredApplications ∅ ∅ w)
    as H.
  destruct (validateLoop _ _ _ _ _ _ _ _ _ _).1 as [e|errors]; [done|].
  destruct H as (_ & Hkeys & Hnodup & _). split; [|done].
  intros key Hkey. destruct (Hkeys key Hkey) as [[x Hx]|?]; [|done].
  by rewrite lookup_empty in Hx.
Qed.
End ValidationProperties.

Lemma validApplications_distinct_names_witness :
  let a := sampleApp "a" "Healthy" "Synced" devLabel in
  let b := sampleApp "b" "Healthy" "Synced" prodLabel in
  let applicationSetInfo := sampleSet "" [] [] in
  let w := sampleWorld (Some applicationSetInfo) [] [] in
  ∃ validateErrors,
    (validateGeneratedApplications sampleQualifiedName sampleProject
       projectFound inCluster sampleErrorText [a; b; a]
       applicationSetInfo w).1 = inr validateErrors
    ∧ validApplications sampleQualifiedName validateErrors [a; b; a] = [b]
    ∧ NoDup (appName <$> validApplications sampleQualifiedName validateErrors
                           [a; b; a]).
Proof.
  intros a b applicationSetInfo w.
  pose proof (validApplications_distinct_names sampleQualifiedName
                sampleProject projectFound inCluster sampleErrorText
                [a; b; a] applicationSetInfo w) as H.
  destruct (validateGeneratedApplications _ _ _ _ _ _ _ _).1
    as [e|validateErrors] eqn:Hr; [by vm_compute in Hr|].
  exists validateErrors. split; [reflexivity|].
  split; [|exact (proj2 H)].
  vm_compute in Hr. injection Hr as <-. vm_compute. reflexivity.
Defined.

Lemma completedWaves_from statuses step : ∀ (waves : gmap string bool),
  foldl (λ waves appStatus,
           match waves !! appStatus.(Step) with
           | None =>
               <[appStatus.(Step) :=
                   bool_decide (appStatus.(Status) = "Healthy")]> waves
           | Some v =>
               <[appStatus.(Step) :=
                   v && bool_decide (appStatus.(Status) = "Healthy")]> waves
           end)
        waves statuses !! step
  = match filter (λ s, s.(Step) = step) statuses with
    | [] => waves !! step
    | recorded =>
        Some (default true (waves !! step)
              && forallb (λ s, bool_decide (s.(Status) = "Healthy")) recorded)
    end.
Proof.
  induction statuses as [|s rest IH]; intros waves; [done|].
  cbn [foldl]. rewrite IH, filter_cons. clear IH.
  destruct (decide (Step s = step)) as [<-|Hne].
  - assert ((match waves !! Step s with
                  | None => <[Step s := bool_decide (Status s = "Healthy")]> waves
                  | Some v0 =>
                      <[Step s := v0 && bool_decide (Status s = "Healthy")]>
                        waves
                  end) !! Step s
                 = Some (default true (waves !! Step s)
                         && bool_decide (Status s = "Healthy"))) as Hs.
    { destruct (waves !! Step s); by rewrite lookup_insert_eq. }
    rewrite Hs. cbn [default forallb].
    destruct (filter _ rest); cbn [forallb].
    + by rewrite andb_true_r.
    + by destruct (default true (waves !! Step s)),
        (bool_decide (Status s = "Healthy")).
  - assert ((match waves !! Step s with
             | None => <[Step s := bool_decide (Status s = "Healthy")]> waves
             | Some v0 =>
                 <[Step s := v0 && bool_decide (Status s = "Healthy")]> waves
             end) !! step = waves !! step) as ->; [|done].
    destruct (waves !! Step s); by rewrite lookup_insert_ne.
Qed.

Lemma forallb_false {A} (f : A → bool) (l : list A) :
  forallb f l = false ↔ ∃ x, x ∈ l ∧ f x = false.
Proof.
  induction l as [|a l IH]; cbn [forallb].
  - split; [done|]. intros (x & Hin & _). by apply elem_of_nil in Hin.
  - rewrite andb_false_iff, IH. split.
    + intros [Ha|(x & Hin & Hx)].
      * exists a. split; [apply list_elem_of_here|done].
      * exists x. split; [by apply list_elem_of_further|done].
    + intros (x & [->|Hin]%elem_of_cons & Hx); [by left|].
      right. by exists x.
Qed.

(** A step is recorded as not completed exactly when an entry of that step
    is not Healthy. *)
Lemma completedWaves_false statuses step :
  completedWaves statuses !! step = Some false ↔
  ∃ s, s ∈ statuses ∧ s.(Step) = step ∧ s.(Status) ≠ "Healthy".
Proof.
  unfold completedWaves. rewrite completedWaves_from, lookup_empty.
  cbn [default andb].
  assert (forallb (λ s, bool_decide (Status s = "Healthy"))
            (filter (λ s, Step s = step) statuses) = false ↔
          ∃ s, s ∈ statuses ∧ Step s = step ∧ Status s ≠ "Healthy") as Hall.
  { rewrite forallb_false. split.
    - intros (s & [Hstep Hin]%list_elem_of_filter & Hs). exists s.
      split; [done|]. split; [done|]. by apply bool_decide_eq_false in Hs.
    - intros (s & Hin & Hstep & Hs). exists s.
      split; [by apply list_elem_of_filter|]. by apply bool_decide_eq_false. }
  destruct (filter (λ s, Step s = step) statuses) eqn:Hf.
  - split; [done|]. intros Hex. apply Hall in Hex. done.
  - cbn [forallb] in *. rewrite <- Hall.
    split; [by intros [= ->]|by intros ->].
Qed.

Lemma progressingStepFrom_Some waves steps step : ∀ i,
  progressingStepFrom waves i steps = Some step ↔
  ∃ k, (k < length steps)%nat
       ∧ step = Itoa (Z.of_nat (i + k) + 1)
       ∧ waves !! step = Some false
       ∧ ∀ j, (j < k)%nat → waves !! Itoa (Z.of_nat (i + j) + 1) ≠ Some false.
Proof.
  induction steps as [|s rest IH]; intros i; cbn [progressingStepFrom].
  - split; [done|]. intros (k & Hk & _). cbn in Hk. lia.
  - destruct (waves !! Itoa (Z.of_nat i + 1)) as [[|]|] eqn:Hi; cbn [negb].
    2:{ split.
        - intros [= <-]. exists 0%nat. cbn [length]. split; [lia|].
          rewrite Nat.add_0_r. split; [done|]. split; [done|]. intros; lia.
        - intros ([|k] & Hk & -> & Hfalse & Hbefore).
          + by rewrite Nat.add_0_r.
          + destruct (Hbefore 0%nat); [lia|]. by rewrite Nat.add_0_r. }
    all: rewrite IH; split.
    all: try (intros (k & Hk & -> & Hfalse & Hbefore); exists (S k);
              cbn [length];
              replace (i + S k)%nat with (S i + k)%nat by lia;
              split; [lia|]; split; [done|]; split; [done|];
              intros [|j] Hj;
                [rewrite Nat.add_0_r, Hi; done|];
              replace (i + S j)%nat with (S i + j)%nat by lia;
              apply Hbefore; lia).
    all: intros ([|k] & Hk & -> & Hfalse & Hbefore);
           [rewrite Nat.add_0_r in Hfalse; congruence|];
         exists k; cbn [length] in Hk;
         replace (S i + k)%nat with (i + S k)%nat by lia;
         split; [lia|]; split; [done|]; split; [done|];
         intros j Hj; replace (S i + j)%nat with (i + S j)%nat by lia;
         apply Hbefore; lia.
Qed.

(** X10: the step that [updateApplicationSetApplicationStatusConditions]
    reports as progressing.  It is the first step, in the order of the
    steps of the strategy, for which some recorded entry carries the number
    of the step (counted from 1, in decimal) and a status other than
    Healthy.  Steps without an entry count as completed, and entries whose
    step is not the number of a step of the strategy are not looked at.
    When there is no such step the rollout is reported as completed. *)
Theorem progressingStep_first_unhealthy applicationSet step :
  progressingStep applicationSet = Some step ↔
  ∃ k, (k < length (rollingSyncSteps applicationSet))%nat
       ∧ step = Itoa (Z.of_nat k + 1)
       ∧ (∃ s, s ∈ applicationSet.(ApplicationStatus)
               ∧ s.(Step) = step ∧ s.(Status) ≠ "Healthy")
       ∧ ∀ j s, (j < k)%nat → s ∈ applicationSet.(ApplicationStatus) →
                s.(Step) = Itoa (Z.of_nat j + 1) → s.(Status) = "Healthy".
Proof.
  unfold progressingStep. rewrite progressingStepFrom_Some.
  split; intros (k & Hk & -> & Hfalse & Hbefore); exists k; cbn [Nat.add] in *.
  - split; [done|]. split; [done|].
    split; [by apply completedWaves_false|].
    intros j s Hj Hs Hstep. destruct (decide (Status s = "Healthy")); [done|].
    destruct (Hbefore j Hj). apply completedWaves_false. by exists s.
  - split; [done|]. split; [done|].
    split; [by apply completedWaves_false|].
    intros j Hj (s & Hs & Hstep & Hstatus)%completedWaves_false.
    by apply Hstatus, (Hbefore j s).
Qed.

Lemma progressingStep_first_unhealthy_witness :
  progressingStep
    (sampleSet "" [envStep; prodStep]
       [sampleEntry "a" "Healthy" "1"; sampleEntry "b" "Progressing" "2";
        sampleEntry "c" "Waiting" "-1"])
  = Some "2".
Proof.
  apply progressingStep_first_unhealthy. exists 1%nat.
  split; [cbn; lia|]. split; [reflexivity|]. split.
  - exists (sampleEntry "b" "Progressing" "2").
    split; [|done]. apply list_elem_of_further, list_elem_of_here.
  - intros j s Hj Hs Hstep. assert (j = 0%nat) as -> by lia.
    apply elem_of_cons in Hs as [->|Hs]; [done|].
    apply elem_of_cons in Hs as [->|Hs]; [done|].
    apply list_elem_of_singleton in Hs as ->. done.
Defined.

(** The loop of [migrateStatus] fills the target revisions that are nil
    and raises [update] when it filled one. *)
Lemma migrateTargetRevisions_spec statusList : ∀ update,
  (migrateTargetRevisions statusList update).1
  = (λ s, withTargetRevisions (Some (default [] s.(TargetRevisions))) s)
    <$> statusList
  ∧ (migrateTargetRevisions statusList update).2
    = update || existsb (λ s, bool_decide (s.(TargetRevisions) = None))
                        statusList.
Proof.
  induction statusList as [|s rest IH]; intros update;
    cbn [migrateTargetRevisions fmap list_fmap existsb].
  - split; [done|]. by rewrite orb_false_r.
  - destruct s as [n t m st sp [revisions|]]; cbn [TargetRevisions].
    + destruct (IH update) as [-> ->]. done.
    + destruct (IH true) as [-> ->]. cbn. split; [done|].
      by rewrite orb_true_r.
Qed.

Lemma migrateTargetRevisions_done statusList :
  Forall (λ s, is_Some s.(TargetRevisions)) statusList →
  migrateTargetRevisions statusList false = (statusList, false).
Proof.
  induction 1 as [|s rest [revisions Hs] _ IH]; [done|].
  cbn [migrateTargetRevisions]. rewrite Hs, IH. done.
Qed.

Lemma RetryOnConflict_status_writtenOnce statuses w :
  writtenOnce (λ a, a.(ApplicationStatus) = statuses) w
    (RetryOnConflict (statusUpdateAttempt statuses) w).1
    (RetryOnConflict (statusUpdateAttempt statuses) w).2.
Proof.
  exact (retryOnConflict_invariant (statusUpdateAttempt statuses)
           (λ w, writtenOnce (λ a, a.(ApplicationStatus) = statuses) w)
           (statusUpdateAttempt_writtenOnce statuses)
           (writtenOnce_trans (λ _ a, a.(ApplicationStatus) = statuses)
              (λ _ _ _ _ H, H))
           4%nat w).
Qed.

(** X11: [migrateStatus] leaves in the parent it was given the recorded
    entries with every nil list of target revisions replaced by the empty
    list and nothing else changed, whether its write succeeded or not.  When
    no entry had a nil list it calls nothing and returns no error, so a
    second migration of its result is a no-op.  It writes the status at
    most once. *)
Theorem migrateStatus_fills_revisions appset w :
  let r := migrateStatus appset w in
  r.1.1.(ApplicationStatus)
  = (λ s, withTargetRevisions (Some (default [] s.(TargetRevisions))) s)
    <$> appset.(ApplicationStatus)
  ∧ (Forall (λ s, is_Some s.(TargetRevisions)) appset.(ApplicationStatus) →
     r = ((appset, None), w))
  ∧ migrateStatus r.1.1 r.2 = ((r.1.1, None), r.2)
  ∧ (r.2.(writes) = w.(writes)
     ∨ r.2.(writes) = w.(writes) ++ [WUpdateStatus r.1.1]).
Proof.
  intros r.
  assert (∀ a v, Forall (λ s, is_Some s.(TargetRevisions))
                   a.(ApplicationStatus) →
                 migrateStatus a v = ((a, None), v)) as Hdone.
  { intros a v Hall. unfold migrateStatus.
    rewrite (migrateTargetRevisions_done _ Hall). by destruct a. }
  assert (r.1.1.(ApplicationStatus)
          = (λ s, withTargetRevisions (Some (default [] s.(TargetRevisions))) s)
            <$> appset.(ApplicationStatus)
          ∧ (r.2.(writes) = w.(writes)
             ∨ r.2.(writes) = w.(writes) ++ [WUpdateStatus r.1.1]))
    as [Hfilled Hwrites].
  { subst r. unfold migrateStatus.
    destruct (migrateTargetRevisions_spec appset.(ApplicationStatus) false)
      as [Hlist _].
    destruct (migrateTargetRevisions _ false) as [statusList update].
    cbn [fst] in Hlist.
    destruct update; [|split; [done|by left]].
    rewrite bind_eq.
    pose proof (RetryOnConflict_status_writtenOnce
                  (withApplicationStatus statusList appset).(ApplicationStatus)
                  w) as Hr.
    destruct (RetryOnConflict _ w) as [[ra re] w'].
    unfold writtenOnce in Hr.
    cbn [fst snd ApplicationStatus withApplicationStatus] in *.
    destruct Hr as [[-> (_ & _ & _ & Hs)]|(a & p & [= -> ->] & Ha & Hwr & _)];
      cbn [default from_option id].
    - destruct re as [err|]; [destruct (IsNotFound err)|];
        (split; [done|by left]).
    - cbv [mret M_ret]. cbn [fst snd]. split; [by rewrite Ha|by right]. }
  split; [done|]. split; [apply Hdone|]. split; [|done].
  apply Hdone. rewrite Hfilled. apply Forall_fmap, Forall_true.
  intros s. by eexists.
Qed.

Lemma migrateStatus_fills_revisions_witness :
  let appset :=
    sampleSet "" [envStep]
      [withTargetRevisions None (sampleEntry "a" "Healthy" "1");
       sampleEntry "b" "Waiting" "1"] in
  let w := sampleWorld (Some appset) [] [] in
  (migrateStatus appset w).1.1.(ApplicationStatus)
  = [withTargetRevisions (Some []) (sampleEntry "a" "Healthy" "1");
     sampleEntry "b" "Waiting" "1"]
  ∧ (migrateStatus appset w).2.(writes)
    = [WUpdateStatus (migrateStatus appset w).1.1].
Proof.
  intros appset w.
  destruct (migrateStatus_fills_revisions appset w)
    as (Hfilled & _ & _ & Hwrites).
  split; [exact Hfilled|].
  destruct Hwrites as [Hnone|Hone]; [by vm_compute in Hnone|exact Hone].
Defined.

(** With no parent in the store, reading it again fails: with the injected
    fault, or with a not-found error. *)
Lemma GetApplicationSet_missing w :
  w.(parent) = None →
  ∃ err, (GetApplicationSet w).1 = inl err
         ∧ (IsNotFound err = false → ∃ f rest, w.(faults) = Some f :: rest).
Proof.
  intros Hp. unfold GetApplicationSet. rewrite bind_eq.
  unfold nextFault. destruct (faults w) as [|[f|] rest] eqn:Hf; cbn.
  - rewrite Hp. by eexists.
  - eexists. split; [done|]. intros _. by eexists _, _.
  - rewrite Hp. by eexists.
Qed.

Lemma parentMissing_trans w1 r0 w2 r w3 :
  parentMissing w1 r0 w2 → is_Some r0.2 → parentMissing w2 r w3 →
  parentMissing w1 r w3.
Proof.
  intros H1 _ H2 Hp. destruct (H1 Hp) as (Hs & _ & _ & Hf).
  destruct Hs as (Hp2 & Hc & Hcl & Hw).
  destruct H2 as (Hs' & Hr & He & Hf'); [congruence|].
  split; [by eapply sameStore_trans|]. split; [done|]. split; [done|].
  intros Hfaults. destruct (Hf Hfaults) as [_ Hf2]. by apply Hf'.
Qed.

Lemma faults_consumed_empty w :
  w.(faults) = [] → (GetApplicationSet w).2.(faults) = [].
Proof.
  intros Hf. unfold GetApplicationSet. rewrite bind_eq.
  unfold nextFault. rewrite Hf. cbn. by destruct (parent w).
Qed.

Lemma statusUpdateAttempt_parentMissing statuses w :
  parentMissing w (statusUpdateAttempt statuses w).1
    (statusUpdateAttempt statuses w).2.
Proof.
  intros Hp. unfold statusUpdateAttempt. rewrite bind_eq.
  pose proof (GetApplicationSet_sameStore w) as Hs.
  pose proof (faults_consumed_empty w) as Hfaults.
  destruct (GetApplicationSet_missing w Hp) as (err & -> & Hnf).
  unfold IgnoreNotFound. destruct (IsNotFound err) eqn:Herr;
    cbv [mret M_ret]; cbn [fst snd].
  - split; [done|]. split; [done|]. split; [by intros e [= <-]|].
    intros Hf. split; [by eexists|by apply Hfaults].
  - split; [done|]. split; [done|]. split; [done|].
    intros Hf. destruct (Hnf eq_refl) as (f & rest & Hfs). congruence.
Qed.

Lemma conditionUpdateAttempt_parentMissing newConditions evaluatedTypes w :
  parentMissing w (conditionUpdateAttempt newConditions evaluatedTypes w).1
    (conditionUpdateAttempt newConditions evaluatedTypes w).2.
Proof.
  intros Hp. unfold conditionUpdateAttempt. rewrite bind_eq.
  pose proof (GetApplicationSet_sameStore w) as Hs.
  pose proof (faults_consumed_empty w) as Hfaults.
  destruct (GetApplicationSet_missing w Hp) as (err & -> & Hnf).
  unfold IgnoreNotFound. destruct (IsNotFound err) eqn:Herr;
    cbv [mret M_ret]; cbn [fst snd].
  - split; [done|]. split; [done|]. split; [by intros e [= <-]|].
    intros Hf. split; [by eexists|by apply Hfaults].
  - split; [done|]. split; [done|]. split; [done|].
    intros Hf. destruct (Hnf eq_refl) as (f & rest & Hfs). congruence.
Qed.

(** X12: the three writers of the status when the parent is no longer in
    the store.  None of them writes.  [migrateStatus] and
    [setApplicationSetStatusCondition] return no error.
    [setAppSetApplicationStatus] returns nothing but a not-found error, and
    it does return one when it has a change to write and no call fails for
    another reason. *)
Theorem status_writers_missing_parent appset condition parametersGenerated
    applicationStatuses w :
  w.(parent) = None →
  let migrated := migrateStatus appset w in
  let conditioned :=
    setApplicationSetStatusCondition appset condition parametersGenerated w in
  let written := setAppSetApplicationStatus appset applicationStatuses w in
  (migrated.1.2 = None ∧ sameStore w migrated.2)
  ∧ (conditioned.1.2 = None ∧ sameStore w conditioned.2)
  ∧ sameStore w written.2
  ∧ (∀ e, written.1.2 = Some e → IsNotFound e = true)
  ∧ (w.(faults) = [] →
     needToUpdateStatus appset.(ApplicationStatus) applicationStatuses = true →
     is_Some written.1.2).
Proof.
  intros Hp migrated conditioned written.
  assert (∀ statuses,
            parentMissing w (RetryOnConflict (statusUpdateAttempt statuses) w).1
              (RetryOnConflict (statusUpdateAttempt statuses) w).2) as Hstatus.
  { intros statuses.
    exact (retryOnConflict_invariant (statusUpdateAttempt statuses)
             parentMissing (statusUpdateAttempt_parentMissing statuses)
             parentMissing_trans 4%nat w). }
  split; [|split].
  - subst migrated. unfold migrateStatus.
    destruct (migrateTargetRevisions _ false) as [statusList [|]];
      [|split; [done|apply sameStore_refl]].
    rewrite bind_eq.
    destruct (Hstatus (withApplicationStatus statusList appset)
                        .(ApplicationStatus) Hp) as (Hs & _ & He & _).
    destruct (RetryOnConflict _ w) as [[ra [err|]] w']; cbn [fst snd] in *;
      [|done].
    by rewrite (He err eq_refl).
  - subst conditioned. unfold setApplicationSetStatusCondition.
    destruct (evaluatedConditions _ _ _) as [evaluatedTypes newConditions].
    rewrite bind_eq. cbn [Now fst snd].
    destruct (needToUpdateConditions _ _); cbn [negb];
      [|split; [done|apply sameStore_refl]].
    rewrite bind_eq.
    destruct (retryOnConflict_invariant
                (conditionUpdateAttempt newConditions evaluatedTypes)
                parentMissing
                (conditionUpdateAttempt_parentMissing newConditions
                   evaluatedTypes)
                parentMissing_trans 4%nat w Hp) as (Hs & _ & He & _).
    fold (RetryOnConflict
            (conditionUpdateAttempt newConditions evaluatedTypes)) in *.
    destruct (RetryOnConflict _ w) as [[ra [err|]] w']; cbn [fst snd] in *;
      [|done].
    by rewrite (He err eq_refl).
  - subst written. unfold setAppSetApplicationStatus.
    destruct (needToUpdateStatus _ _);
      [|split; [apply sameStore_refl|split; done]].
    rewrite bind_eq.
    destruct (Hstatus (withApplicationStatus (sortByName applicationStatuses)
                         appset).(ApplicationStatus) Hp)
      as (Hs & _ & He & Hf).
    destruct (RetryOnConflict _ w) as [[ra [err|]] w']; cbn [fst snd] in *.
    + split; [done|]. split; [|by eexists].
      intros e [= <-]. cbn [IsNotFound]. by apply He.
    + split; [done|]. split; [done|]. intros Hfaults _.
      by destruct (Hf Hfaults) as [[? ?] _].
Qed.

Lemma status_writers_missing_parent_witness :
  let appset := sampleSet "" [envStep] [] in
  let w := sampleWorld None [] [] in
  (setApplicationSetStatusCondition appset
     (sampleCondition "ErrorOccurred" "True" "ErrorOccurred" "failed") false
     w).1.2 = None
  ∧ is_Some (setAppSetApplicationStatus appset
               [sampleEntry "a" "Waiting" "1"] w).1.2.
Proof.
  intros appset w.
  destruct (status_writers_missing_parent appset
              (sampleCondition "ErrorOccurred" "True" "ErrorOccurred" "failed")
              false [sampleEntry "a" "Waiting" "1"] w eq_refl)
    as (_ & [Hcond _] & _ & _ & Hwritten).
  split; [exact Hcond|]. apply Hwritten; reflexivity.
Defined.

(** ** Creating, updating and deleting children *)

(** A write of a child touches no other child. *)
Lemma writeApplication_frame wr app w other :
  other ≠ appName app →
  (writeApplication wr app w).2.(children) !! other = w.(children) !! other.
Proof.
  intros Hne. unfold writeApplication. rewrite bind_eq.
  destruct (nextFault_sameStore w) as (_ & Hc & _).
  destruct (nextFault w).1; cbv [mret M_ret]; cbn [fst snd];
    [by rewrite Hc|].
  destruct (children (nextFault w).2 !! appName app); cbn [fst snd];
    [|by rewrite Hc].
  cbn [fst snd setChildren children]. unfold storeChild.
  destruct (_ && _).
  - by rewrite lookup_delete_ne, Hc.
  - by rewrite lookup_insert_ne, Hc.
Qed.

Lemma DeleteApplication_frame name w other :
  other ≠ name →
  (DeleteApplication name w).2.(children) !! other = w.(children) !! other.
Proof.
  intros Hne. unfold DeleteApplication. rewrite bind_eq.
  destruct (nextFault_sameStore w) as (_ & Hc & _).
  destruct (nextFault w).1; cbv [mret M_ret]; cbn [fst snd];
    [by rewrite Hc|].
  destruct (children (nextFault w).2 !! name) as [app|]; cbn [fst snd];
    [|by rewrite Hc].
  cbn [fst snd setChildren children].
  destruct (bool_decide _).
  - by rewrite lookup_delete_ne, Hc.
  - destruct (DeletionTimestamp (Meta app)); [by rewrite Hc|].
    by rewrite lookup_insert_ne, Hc.
Qed.

(** X13: [removeFinalizerOnInvalidDestination] never touches a finalizer
    other than the resources finalizer and never renames the application.
    It leaves the application and the store alone unless the application
    holds the resources finalizer and its destination does not resolve to a
    cluster of the list (same server and same name); then it patches the
    application without that finalizer, once.  Its only error is the one of
    that patch, wrapped, and then the application is left as it was. *)
Theorem removeFinalizerOnInvalidDestination_spec GetDestinationCluster app
    clusterList w :
  let r :=
    removeFinalizerOnInvalidDestination GetDestinationCluster app clusterList
      w in
  (∀ f, f ≠ ResourcesFinalizerName →
     f ∈ r.1.1.(Meta).(Finalizers) ↔ f ∈ app.(Meta).(Finalizers))
  ∧ appName r.1.1 = appName app
  ∧ ((r.1.1 = app ∧ sameStore w r.2)
     ∨ (r.1.2 = None
        ∧ r.1.1 = withMeta app
                    (withFinalizers
                       (filter (λ f, f ≠ ResourcesFinalizerName)
                               app.(Meta).(Finalizers))
                       app.(Meta))
        ∧ ResourcesFinalizerName ∈ app.(Meta).(Finalizers)
        ∧ r.2.(writes) = w.(writes) ++ [WPatchApplication r.1.1]
        ∧ (∀ destCluster cluster,
             GetDestinationCluster app.(AppSpec) = inr destCluster →
             cluster ∈ clusterList →
             ¬ (destCluster.(Server) = cluster.(Server)
                ∧ destCluster.(ClusterName) = cluster.(ClusterName)))))
  ∧ (∀ e, r.1.2 = Some e →
       ∃ cause, e = Wrapped "error updating finalizers" cause).
Proof.
  intros r. subst r. unfold removeFinalizerOnInvalidDestination.
  assert (∀ v : World,
            (∀ f, f ≠ ResourcesFinalizerName →
               f ∈ Finalizers (Meta app) ↔ f ∈ Finalizers (Meta app))
            ∧ appName app = appName app
            ∧ ((app = app ∧ sameStore v v)
               ∨ (@None error = None
                  ∧ app = withMeta app
                            (withFinalizers
                               (filter (λ f, f ≠ ResourcesFinalizerName)
                                       app.(Meta).(Finalizers))
                               app.(Meta))
                  ∧ ResourcesFinalizerName ∈ app.(Meta).(Finalizers)
                  ∧ v.(writes) = v.(writes) ++ [WPatchApplication app]
                  ∧ (∀ destCluster cluster,
                       GetDestinationCluster app.(AppSpec) = inr destCluster →
                       cluster ∈ clusterList →
                       ¬ (destCluster.(Server) = cluster.(Server)
                          ∧ destCluster.(ClusterName)
                            = cluster.(ClusterName)))))
            ∧ (∀ e, @None error = Some e →
                 ∃ cause, e = Wrapped "error updating finalizers" cause))
    as Hkeep.
  { intros v. split; [done|]. split; [done|].
    split; [left; split; [done|apply sameStore_refl]|done]. }
  case_bool_decide as Hlen; [apply Hkeep|].
  set (valid := match GetDestinationCluster (AppSpec app) with
                | inl _ => false
                | inr destCluster => existsb _ clusterList
                end).
  destruct valid eqn:Hvalid; cbn [negb]; [apply Hkeep|].
  case_bool_decide as Hchanged; [|apply Hkeep].
  rewrite bind_eq. unfold PatchApplication.
  set (updated := withMeta app _).
  pose proof (writeApplication_spec WPatchApplication updated w) as Hpatch.
  cbn zeta in Hpatch.
  destruct Hpatch as [[[e He] Hs]|(He & Hw & _)]; rewrite He;
    cbv [mret M_ret]; cbn [fst snd].
  - split; [done|]. split; [done|].
    split; [by left|]. intros e' [= <-]. by eexists.
  - split.
    { intros f Hf. subst updated.
      cbn [withMeta Meta withFinalizers Finalizers].
      rewrite list_elem_of_filter. tauto. }
    split; [done|]. split; [|done].
    right. split; [done|]. split; [done|].
    split.
    { destruct (decide (ResourcesFinalizerName ∈ Finalizers (Meta app)))
        as [Hin|Hout]; [done|].
      destruct Hchanged. f_equal.
      clear -Hout. induction (Finalizers (Meta app)) as [|f fs IH]; [done|].
      rewrite filter_cons.
      destruct (decide (f ≠ ResourcesFinalizerName)) as [Hf|Hf].
      - f_equal. apply IH. intros Hin. apply Hout.
        by apply list_elem_of_further.
      - destruct Hout. apply dec_stable in Hf. rewrite Hf.
        apply list_elem_of_here. }
    split; [done|].
    intros destCluster cluster Hdest Hcluster [Hserver Hname].
    subst valid. rewrite Hdest in Hvalid.
    apply not_true_iff_false in Hvalid. apply Hvalid.
    apply existsb_exists. exists cluster.
    split; [by apply list_elem_of_In|].
    by rewrite !bool_decide_eq_true_2.
Qed.

Lemma removeFinalizerOnInvalidDestination_spec_witness :
  let app :=
    withMeta (sampleApp "a" "Healthy" "Synced" devLabel)
      (withFinalizers [ResourcesFinalizerName; "keep"] (sampleMeta "a")) in
  let w := sampleWorld None [app] [] in
  let r := removeFinalizerOnInvalidDestination inCluster app [] w in
  r.1.1.(Meta).(Finalizers) = ["keep"]
  ∧ ("keep" ∈ r.1.1.(Meta).(Finalizers) ↔ "keep" ∈ app.(Meta).(Finalizers)).
Proof.
  intros app w r. split; [reflexivity|].
  apply (removeFinalizerOnInvalidDestination_spec inCluster app [] w).
  done.
Defined.

Lemma sparing_refl names w w' : sameStore w w' → sparing names w w'.
Proof.
  intros (Hp & Hc & _ & Hw). split; [|split; [by rewrite Hc|done]].
  exists []. by rewrite app_nil_r.
Qed.

Lemma sparing_trans names w1 w2 w3 :
  sparing names w1 w2 → sparing names w2 w3 → sparing names w1 w3.
Proof.
  intros ((e1 & Hw1 & He1) & Hc1 & Hp1) ((e2 & Hw2 & He2) & Hc2 & Hp2).
  split; [|split; [|congruence]].
  - exists (e1 ++ e2). rewrite Hw2, Hw1, app_assoc. split; [done|].
    by apply Forall_app.
  - intros name Hname. by rewrite Hc2, Hc1.
Qed.

Lemma removeFinalizerOnInvalidDestination_sparing GetDestinationCluster names
    app clusterList w :
  appName app ∉ names →
  let r :=
    removeFinalizerOnInvalidDestination GetDestinationCluster app clusterList
      w in
  sparing names w r.2 ∧ appName r.1.1 = appName app.
Proof.
  intros Hout r. subst r. unfold removeFinalizerOnInvalidDestination.
  case_bool_decide; [split; [apply sparing_refl, sameStore_refl|done]|].
  destruct (negb _); [|split; [apply sparing_refl, sameStore_refl|done]].
  case_bool_decide; [|split; [apply sparing_refl, sameStore_refl|done]].
  rewrite bind_eq. unfold PatchApplication.
  set (updated := withMeta app _).
  pose proof (writeApplication_spec WPatchApplication updated w) as Hpatch.
  pose proof (writeApplication_frame WPatchApplication updated w) as Hframe.
  cbn zeta in Hpatch.
  destruct Hpatch as [[[e He] Hs]|(He & Hw & Hp)]; rewrite He;
    cbv [mret M_ret]; cbn [fst snd].
  - split; [by apply sparing_refl|done].
  - split; [|done]. split; [|split; [|done]].
    + exists [WPatchApplication updated]. split; [done|].
      constructor; [exact Hout|constructor].
    + intros name Hname. apply Hframe. intros ->. by apply Hout.
Qed.

Lemma DeleteApplication_sparing names name w :
  name ∉ names → sparing names w (DeleteApplication name w).2.
Proof.
  intros Hout.
  pose proof (DeleteApplication_frame name w) as Hframe.
  destruct (DeleteApplication_spec name w) as [[_ Hs]|(_ & Hw & Hp & _)].
  - by apply sparing_refl.
  - split; [|split; [|done]].
    + exists [WDeleteApplication name]. split; [done|].
      constructor; [exact Hout|constructor].
    + intros other Hother. apply Hframe. intros ->. by apply Hout.
Qed.

Lemma deleteLoop_sparing GetDestinationCluster (names : list string)
    clusterList current : ∀ firstError w,
  sparing names w
    (deleteLoop GetDestinationCluster (list_to_set names) clusterList current
       firstError w).2.
Proof.
  induction current as [|app rest IH]; intros firstError w;
    cbn [deleteLoop]; [apply sparing_refl, sameStore_refl|].
  case_bool_decide as Hin; [apply IH|].
  rewrite elem_of_list_to_set in Hin.
  rewrite bind_eq.
  destruct (removeFinalizerOnInvalidDestination_sparing GetDestinationCluster
              names app clusterList w Hin) as [Hfin Hname].
  destruct (removeFinalizerOnInvalidDestination _ app clusterList w)
    as [[app' err] w1].
  cbn [fst snd] in *.
  destruct err as [err|]; [by eapply sparing_trans|].
  rewrite bind_eq.
  pose proof (DeleteApplication_sparing names (appName app') w1) as Hdel.
  rewrite Hname in Hdel. specialize (Hdel Hin). rewrite <- Hname in Hdel.
  destruct (DeleteApplication (appName app') w1) as [err w2].
  cbn [fst snd] in *.
  destruct err; (eapply sparing_trans; [exact Hfin|]);
    (eapply sparing_trans; [exact Hdel|apply IH]).
Qed.

(** X14: [deleteInCluster] spares the desired applications.  After the
    list of the clusters, the only writes it issues are deletes and patches
    of applications whose name is not the name of a desired application;
    the desired applications that the store holds, and the parent, are
    left as they are. *)
Theorem deleteInCluster_spares_desired ListClusters GetDestinationCluster
    applicationSet desiredApplications w :
  let listed := (ListClusters w).2 in
  let r :=
    deleteInCluster ListClusters GetDestinationCluster applicationSet
      desiredApplications w in
  (∃ extra,
     r.2.(writes) = listed.(writes) ++ extra
     ∧ Forall (sparesNames (appName <$> desiredApplications)) extra)
  ∧ (∀ app, app ∈ desiredApplications →
       r.2.(children) !! appName app = listed.(children) !! appName app)
  ∧ r.2.(parent) = listed.(parent).
Proof.
  intros listed r.
  assert (sparing (appName <$> desiredApplications) listed r.2) as Hr.
  { subst r listed. unfold deleteInCluster. rewrite bind_eq.
    destruct (ListClusters w).1 as [err|clusterList];
      [apply sparing_refl, sameStore_refl|].
    rewrite bind_eq.
    pose proof (getCurrentApplications_sameStore applicationSet
                  (ListClusters w).2) as Hs.
    destruct (getCurrentApplications applicationSet (ListClusters w).2).1
      as [err|current]; [by apply sparing_refl|].
    eapply sparing_trans; [by apply sparing_refl|].
    apply deleteLoop_sparing. }
  destruct Hr as (Hw & Hc & Hp). split; [done|]. split; [|done].
  intros app Happ. apply Hc. by apply list_elem_of_fmap_2.
Qed.

Lemma deleteInCluster_spares_desired_witness :
  let appset := sampleSet "" [] [] in
  let a := sampleApp "a" "Healthy" "Synced" noLabels in
  let b := sampleApp "b" "Healthy" "Synced" noLabels in
  let w := sampleWorld (Some appset) [a; b] [] in
  let r := deleteInCluster noClusters inCluster appset [a] w in
  r.2.(writes) = [WDeleteApplication "b"]
  ∧ r.2.(children) !! "a" = Some a.
Proof.
  intros appset a b w r. split; [reflexivity|].
  destruct (deleteInCluster_spares_desired noClusters inCluster appset [a] w)
    as (_ & Hkept & _).
  transitivity ((noClusters w).2.(children) !! appName a);
    [exact (Hkept a (list_elem_of_here a []))|reflexivity].
Defined.

(** X15: [createInCluster] hands to [CreateOrUpdate] exactly the desired
    applications whose name is not the name of an application the parent
    owns now, in their order, whatever the earlier ones returned, and
    returns the first error; an application that exists is never handed
    over.  When the listing of the current applications fails, nothing is
    handed over and the error is returned wrapped. *)
Theorem createInCluster_only_new CreateOrUpdate applicationSet
    desiredApplications w :
  let listed := getCurrentApplications applicationSet w in
  match listed.1 with
  | inl err =>
      createInCluster CreateOrUpdate applicationSet desiredApplications w
      = (Some (Wrapped "error getting current applications" err), listed.2)
  | inr current =>
      let createApps :=
        filter (λ app, appName app ∉ appName <$> current)
               desiredApplications in
      let created :=
        createOrUpdateAll CreateOrUpdate applicationSet createApps listed.2 in
      createInCluster CreateOrUpdate applicationSet desiredApplications w
      = (head created.1, created.2)
  end.
Proof.
  intros listed. subst listed. unfold createInCluster. rewrite bind_eq.
  destruct (getCurrentApplications applicationSet w).1 as [err|current];
    [done|].
  cbv zeta.
  assert (filter (λ app, appName app ∉ (list_to_set (appName <$> current)
                                          : gset string))
                 desiredApplications
          = filter (λ app, appName app ∉ appName <$> current)
                   desiredApplications) as ->.
  { apply list_filter_iff. intros app. by rewrite elem_of_list_to_set. }
  apply createOrUpdateLoop_spec.
Qed.

Lemma createInCluster_only_new_witness :
  let appset := sampleSet "" [] [] in
  let a := sampleApp "a" "Healthy" "Synced" noLabels in
  let b := sampleApp "b" "Healthy" "Synced" noLabels in
  let w := sampleWorld (Some appset) [a] [] in
  createInCluster (failingOn "a") appset [a; b] w = (None, w).
Proof.
  intros appset a b w.
  exact (createInCluster_only_new (failingOn "a") appset [a; b] w).
Defined.

(** The updates of the loop that removes the owner references: one for
    each application of a prefix of the list, in order. *)
Lemma removeOwnerReferences_prefix applications : ∀ w,
  let r := removeOwnerReferences applications w in
  ∃ k : nat,
    r.2.(writes)
    = w.(writes)
      ++ ((λ app, WUpdateApplication
                    (withMeta app (withOwnerReferences [] app.(Meta))))
          <$> take k applications)
    ∧ r.2.(parent) = w.(parent)
    ∧ (r.1 = None → k = length applications)
    ∧ (∀ e, r.1 = Some e →
         (k < length applications)%nat
         ∧ ∃ cause, e = Wrapped "error updating application" cause).
Proof.
  induction applications as [|app rest IH]; intros w;
    cbn [removeOwnerReferences].
  - exists 0%nat. cbn. rewrite app_nil_r. by repeat split.
  - rewrite bind_eq. unfold UpdateApplication.
    set (stripped := withMeta app (withOwnerReferences [] (Meta app))).
    destruct (writeApplication_spec WUpdateApplication stripped w)
      as [[[e He] (Hp & _ & _ & Hw)]|(He & Hw & Hp)]; rewrite He;
      cbv [mret M_ret]; cbn [fst snd].
    + exists 0%nat. cbn [take fmap list_fmap length].
      rewrite app_nil_r. split; [done|]. split; [done|]. split; [done|].
      intros e' [= <-]. split; [lia|by eexists].
    + destruct (IH (writeApplication WUpdateApplication stripped w).2)
        as (k & Hwrites & Hparent & Hnone & Hsome).
      exists (S k). cbn [take fmap list_fmap length].
      rewrite Hwrites, Hw, <- app_assoc. split; [done|].
      split; [congruence|]. split.
      * intros Hr. by rewrite (Hnone Hr).
      * intros e Hr. destruct (Hsome e Hr) as [Hk Hcause]. split; [lia|done].
Qed.

(** X16: [removeOwnerReferencesOnDeleteAppSet] stops at the first update
    that fails.  It updates, without owner references and in the order of
    the listing, the applications before the failing one and none after
    it; with no failure it updates all of them and returns no error.  Its
    errors are the error of the listing and the error of the failing
    update, each wrapped. *)
Theorem removeOwnerReferences_stops_at_first_failure applicationSet w :
  let listed := getCurrentApplications applicationSet w in
  let r := removeOwnerReferencesOnDeleteAppSet applicationSet w in
  match listed.1 with
  | inl err =>
      r = (Some (Wrapped
                   "error getting current applications for ApplicationSet"
                   err), listed.2)
  | inr applications =>
      ∃ k : nat,
        r.2.(writes)
        = w.(writes)
          ++ ((λ app, WUpdateApplication
                        (withMeta app (withOwnerReferences [] app.(Meta))))
              <$> take k applications)
        ∧ (r.1 = None → k = length applications)
        ∧ (∀ e, r.1 = Some e →
             (k < length applications)%nat
             ∧ ∃ cause, e = Wrapped "error updating application" cause)
  end.
Proof.
  intros listed r. subst listed r.
  unfold removeOwnerReferencesOnDeleteAppSet. rewrite bind_eq.
  destruct (getCurrentApplications_sameStore applicationSet w)
    as (_ & _ & _ & Hw).
  destruct (getCurrentApplications applicationSet w).1
    as [err|applications]; [done|].
  destruct (removeOwnerReferences_prefix applications
              (getCurrentApplications applicationSet w).2)
    as (k & Hwrites & _ & Hnone & Hsome).
  exists k. rewrite Hwrites, Hw. done.
Qed.

Lemma removeOwnerReferences_stops_at_first_failure_witness :
  let appset := sampleSet "" [] [] in
  let a := sampleApp "a" "Healthy" "Synced" noLabels in
  let b := sampleApp "b" "Healthy" "Synced" noLabels in
  let w := sampleWorld (Some appset) [a; b]
             [None; None; Some (FaultFailure "refused")] in
  ∃ applications (k : nat),
    (getCurrentApplications appset w).1 = inr applications
    ∧ (removeOwnerReferencesOnDeleteAppSet appset w).2.(writes)
      = w.(writes)
        ++ ((λ app, WUpdateApplication
                      (withMeta app (withOwnerReferences [] app.(Meta))))
            <$> take k applications)
    ∧ (k < length applications)%nat.
Proof.
  intros appset a b w.
  pose proof (removeOwnerReferences_stops_at_first_failure appset w) as H.
  cbv zeta in H.
  destruct (getCurrentApplications appset w).1 as [err|applications] eqn:Hl;
    [by vm_compute in Hl|].
  destruct H as (k & Hwrites & _ & Hsome).
  exists applications, k. split; [reflexivity|]. split; [exact Hwrites|].
  destruct (removeOwnerReferencesOnDeleteAppSet appset w).1 as [e|] eqn:Hr;
    [|by vm_compute in Hr].
  exact (proj1 (Hsome e eq_refl)).
Defined.

Section RollingSyncTriggerProperties.
Variable automatedPrune : string → option bool.
Variable withoutAutomated : string → string.
Variable syncOperation : string → bool → string.

(** One application of the loop of [syncValidApplications]: its metadata
    and status are kept, and its operation changes only under the three
    conditions of the loop. *)
Lemma syncValidApplication_gated applicationSet appSyncMap appMap validApp :
  let synced :=
    syncValidApplication automatedPrune withoutAutomated syncOperation
      applicationSet appSyncMap appMap validApp in
  synced.(Meta) = validApp.(Meta)
  ∧ (synced.(Operation) ≠ validApp.(Operation) →
     appSyncMap !! appName validApp = Some true
     ∧ (∃ s, s ∈ applicationSet.(ApplicationStatus)
             ∧ s.(AppName) = appName validApp ∧ s.(Status) = "Pending")
     ∧ (∃ current, appMap !! appName validApp = Some current
                   ∧ current.(SyncStatus) = "OutOfSync")).
Proof.
  intros synced. subst synced. unfold syncValidApplication.
  set (pruned := match automatedPrune (AppSpec validApp) with
                 | Some prune =>
                     (prune, withSpec (withoutAutomated (AppSpec validApp))
                               validApp)
                 | None => (false, validApp)
                 end).
  assert (pruned.2.(Meta) = validApp.(Meta)
          ∧ pruned.2.(Operation) = validApp.(Operation)) as [Hmeta Hop].
  { subst pruned. by destruct (automatedPrune _). }
  destruct pruned as [pruneEnabled validApp1]. cbn [snd] in Hmeta, Hop.
  assert (appName validApp1 = appName validApp) as Hname
    by (unfold appName; by rewrite Hmeta).
  rewrite Hname.
  destruct (default false (appSyncMap !! appName validApp)) eqn:Hsync;
    cbn [andb]; [|done].
  case_bool_decide as Hout; cbn [andb]; [|done].
  destruct (recordedStatus _ _) as [s|] eqn:Hrec; [|done].
  case_bool_decide as Hpending; [|done].
  cbn [syncApplication Meta Operation]. split; [done|]. intros _.
  split; [by destruct (appSyncMap !! appName validApp) as [[|]|]|].
  split.
  - apply recordedStatus_Some in Hrec as [Hin Hs]. by exists s.
  - destruct (appMap !! appName validApp) as [current|]; [|done].
    by exists current.
Qed.

(** X17: [syncValidApplications] returns the applications it is given, in
    their order and with their metadata.  It sets a sync operation only on
    an application that the sync map enables, that has a recorded entry in
    Pending and whose copy on the cluster is OutOfSync.  When the names are
    pairwise distinct, the number of applications whose operation it
    changes is at most the number of recorded entries in Pending. *)
Theorem syncValidApplications_gated applicationSet appSyncMap appMap
    validApps :
  let rolloutApps :=
    syncValidApplications automatedPrune withoutAutomated syncOperation
      applicationSet appSyncMap appMap validApps in
  let triggered :=
    filter (λ app,
              (syncValidApplication automatedPrune withoutAutomated
                 syncOperation applicationSet appSyncMap appMap app)
                .(Operation) ≠ app.(Operation))
           validApps in
  Meta <$> rolloutApps = Meta <$> validApps
  ∧ (∀ app, app ∈ triggered →
       appSyncMap !! appName app = Some true
       ∧ (∃ s, s ∈ applicationSet.(ApplicationStatus)
               ∧ s.(AppName) = appName app ∧ s.(Status) = "Pending")
       ∧ (∃ current, appMap !! appName app = Some current
                     ∧ current.(SyncStatus) = "OutOfSync"))
  ∧ (NoDup (appName <$> validApps) →
     (length triggered
      ≤ length (filter (λ s, s.(Status) = "Pending")
                       applicationSet.(ApplicationStatus)))%nat).
Proof.
  intros rolloutApps triggered.
  assert (∀ app, app ∈ triggered →
            appSyncMap !! appName app = Some true
            ∧ (∃ s, s ∈ applicationSet.(ApplicationStatus)
                    ∧ s.(AppName) = appName app ∧ s.(Status) = "Pending")
            ∧ (∃ current, appMap !! appName app = Some current
                          ∧ current.(SyncStatus) = "OutOfSync")) as Hgated.
  { intros app [Hop _]%list_elem_of_filter.
    by apply (syncValidApplication_gated applicationSet appSyncMap appMap). }
  split; [|split; [done|]].
  - subst rolloutApps. unfold syncValidApplications.
    rewrite <- list_fmap_compose. apply list_fmap_ext. intros _ app _.
    apply (syncValidApplication_gated applicationSet appSyncMap appMap app).
  - intros Hnodup.
    rewrite <- (length_fmap appName triggered),
      <- (length_fmap AppName (filter _ _)).
    apply submseteq_length, NoDup_submseteq.
    + eapply sublist_NoDup; [exact Hnodup|].
      apply fmap_sublist, sublist_filter.
    + intros name (app & -> & Happ)%list_elem_of_fmap.
      destruct (Hgated app Happ) as (_ & (s & Hs & Hname & Hpending) & _).
      apply list_elem_of_fmap. exists s. split; [done|].
      by apply list_elem_of_filter.
Qed.
End RollingSyncTriggerProperties.

Lemma syncValidApplications_gated_witness :
  let automatedPrune (_ : string) : option bool := Some true in
  let withoutAutomated (spec : string) : string := spec in
  let syncOperation (_ : string) (prune : bool) : string :=
    if prune then "sync with prune" else "sync" in
  let applicationSet :=
    sampleSet "" [envStep]
      [sampleEntry "a" "Pending" "1"; sampleEntry "b" "Waiting" "1"] in
  let a := sampleApp "a" "Healthy" "OutOfSync" devLabel in
  let b := sampleApp "b" "Healthy" "OutOfSync" devLabel in
  let appMap : gmap string Application := {[ "a" := a; "b" := b ]} in
  Operation <$> syncValidApplications automatedPrune withoutAutomated
                  syncOperation applicationSet sampleSyncMap appMap [a; b]
  = [Some "sync with prune"; None]
  ∧ (length (filter (λ app,
               (syncValidApplication automatedPrune withoutAutomated
                  syncOperation applicationSet sampleSyncMap appMap app)
                 .(Operation) ≠ app.(Operation)) [a; b])
     ≤ length (filter (λ s, s.(Status) = "Pending")
                      applicationSet.(ApplicationStatus)))%nat.
Proof.
  intros automatedPrune withoutAutomated syncOperation applicationSet a b
    appMap.
  split; [reflexivity|].
  apply (syncValidApplications_gated automatedPrune withoutAutomated
           syncOperation applicationSet sampleSyncMap appMap [a; b]).
  apply (bool_decide_unpack _). vm_compute. reflexivity.
Defined.

(** ** Retrying on conflict *)

Lemma statusUpdateAttempt_conflict statuses w stored rest :
  w.(parent) = Some stored →
  w.(faults) = None :: Some FaultConflict :: rest →
  statusUpdateAttempt statuses w
  = ((None, Some (faultError FaultConflict)), withFaults rest w).
Proof.
  destruct w as [p c cl f wr]. cbn [parent faults]. intros -> ->. done.
Qed.

Lemma statusUpdateAttempt_written statuses w stored rest :
  w.(parent) = Some stored →
  w.(faults) = None :: None :: rest →
  statusUpdateAttempt statuses w
  = ((Some (withApplicationStatus statuses stored), None),
     {| parent := Some (withApplicationStatus statuses stored);
        children := w.(children); clock := w.(clock); faults := rest;
        writes := w.(writes)
                  ++ [WUpdateStatus (withApplicationStatus statuses stored)] |}).
Proof.
  destruct w as [p c cl f wr]. cbn [parent faults]. intros -> ->.
  by destruct stored.
Qed.

Lemma retryOnConflict_gives_up statuses stored rest : ∀ n w,
  w.(parent) = Some stored →
  w.(faults) = conflictRounds (S n) ++ rest →
  retryOnConflict n (statusUpdateAttempt statuses) w
  = ((None, Some (faultError FaultConflict)), withFaults rest w).
Proof.
  induction n as [|n IH]; intros w Hp Hf; cbn [retryOnConflict];
    rewrite bind_eq, (statusUpdateAttempt_conflict statuses w stored _ Hp Hf);
    cbn [fst snd IsConflict faultError]; [done|].
  rewrite (IH (withFaults _ w)); [by destruct w|done|done].
Qed.

Lemma retryOnConflict_succeeds statuses stored rest : ∀ n k w,
  (k ≤ n)%nat →
  w.(parent) = Some stored →
  w.(faults) = conflictRounds k ++ None :: None :: rest →
  retryOnConflict n (statusUpdateAttempt statuses) w
  = ((Some (withApplicationStatus statuses stored), None),
     {| parent := Some (withApplicationStatus statuses stored);
        children := w.(children); clock := w.(clock); faults := rest;
        writes := w.(writes)
                  ++ [WUpdateStatus (withApplicationStatus statuses stored)] |}).
Proof.
  assert (∀ n w, w.(parent) = Some stored →
            w.(faults) = None :: None :: rest →
            retryOnConflict n (statusUpdateAttempt statuses) w
            = ((Some (withApplicationStatus statuses stored), None),
               {| parent := Some (withApplicationStatus statuses stored);
                  children := w.(children); clock := w.(clock);
                  faults := rest;
                  writes :=
                    w.(writes)
                    ++ [WUpdateStatus
                          (withApplicationStatus statuses stored)] |}))
    as Hnow.
  { intros n w Hp Hf.
    destruct n; cbn [retryOnConflict];
      by rewrite bind_eq, (statusUpdateAttempt_written statuses w stored _ Hp Hf). }
  induction n as [|n IH]; intros k w Hk Hp Hf.
  - assert (k = 0%nat) as -> by lia. by apply Hnow.
  - destruct k as [|k]; [by apply Hnow|].
    cbn [retryOnConflict].
    rewrite bind_eq, (statusUpdateAttempt_conflict statuses w stored _ Hp Hf).
    cbn [fst snd IsConflict faultError].
    rewrite (IH k (withFaults _ w)); [by destruct w|lia|done|done].
Qed.

(** X18: [setAppSetApplicationStatus] under conflicts, when it has a change
    to write and the parent is in the store.  While the write of the status
    conflicts, the parent is read and the write tried again; after up to
    four conflicts it succeeds, with one write of the sorted list on the
    parent read last, and no error.  At the fifth conflict in a row it
    gives up: nothing is written and the conflict is returned, wrapped. *)
Theorem setAppSetApplicationStatus_retries_conflicts applicationSet
    applicationStatuses stored rest w :
  needToUpdateStatus applicationSet.(ApplicationStatus) applicationStatuses
  = true →
  w.(parent) = Some stored →
  let written :=
    withApplicationStatus (sortByName applicationStatuses) stored in
  (∀ k, (k ≤ 4)%nat →
     w.(faults) = conflictRounds k ++ None :: None :: rest →
     let r :=
       setAppSetApplicationStatus applicationSet applicationStatuses w in
     r.1 = (written, None)
     ∧ r.2.(writes) = w.(writes) ++ [WUpdateStatus written]
     ∧ r.2.(parent) = Some written
     ∧ r.2.(faults) = rest)
  ∧ (w.(faults) = conflictRounds 5 ++ rest →
     setAppSetApplicationStatus applicationSet applicationStatuses w
     = ((withApplicationStatus (sortByName applicationStatuses)
           applicationSet,
         Some (Wrapped "unable to set application set status"
                 (faultError FaultConflict))),
        withFaults rest w)).
Proof.
  intros Hneed Hp written. split.
  - intros k Hk Hf r. subst r. unfold setAppSetApplicationStatus.
    rewrite Hneed, bind_eq. unfold RetryOnConflict.
    rewrite (retryOnConflict_succeeds _ stored rest 4 k w Hk Hp Hf).
    done.
  - intros Hf. unfold setAppSetApplicationStatus.
    rewrite Hneed, bind_eq. unfold RetryOnConflict.
    rewrite (retryOnConflict_gives_up _ stored rest 4 w Hp Hf). done.
Qed.

Lemma setAppSetApplicationStatus_retries_conflicts_witness :
  let applicationSet := sampleSet "" [envStep] [] in
  let w := sampleWorld (Some applicationSet) [] (conflictRounds 5) in
  (setAppSetApplicationStatus applicationSet [sampleEntry "a" "Waiting" "1"]
     w).1.2
  = Some (Wrapped "unable to set application set status"
            (faultError FaultConflict))
  ∧ (setAppSetApplicationStatus applicationSet [sampleEntry "a" "Waiting" "1"]
       w).2.(writes) = [].
Proof.
  intros applicationSet w.
  rewrite (proj2 (setAppSetApplicationStatus_retries_conflicts applicationSet
                    [sampleEntry "a" "Waiting" "1"] applicationSet [] w
                    eq_refl eq_refl) eq_refl).
  split; reflexivity.
Defined.

(** ** The progressive sync of one reconciliation *)

Lemma rollingSyncSteps_Spec a b :
  a.(Spec) = b.(Spec) →
  rollingSyncSteps a = rollingSyncSteps b
  ∧ progressiveSyncsRollingSyncStrategyEnabled a
    = progressiveSyncsRollingSyncStrategyEnabled b.
Proof.
  intros H.
  unfold progressiveSyncsRollingSyncStrategyEnabled, isRollingSyncStrategy,
    rollingSyncSteps.
  by rewrite H.
Qed.

(** The promotion pass does not run out of the bounds of its counters when
    the step map points into the step list. *)
Lemma progressedApplicationStatuses_is_Some now applicationSet appSyncMap
    appStepMap :
  map_Forall (λ _ j, 0 ≤ j < Z.of_nat (length (rollingSyncSteps applicationSet)))
    appStepMap →
  is_Some (progressedApplicationStatuses now applicationSet appSyncMap
             appStepMap).
Proof.
  intros Hmap. unfold progressedApplicationStatuses.
  destruct (progressiveSyncsRollingSyncStrategyEnabled applicationSet)
    eqn:Hen; [|by eexists].
  pose proof (enabled_has_steps _ Hen) as Hsteps.
  set (steps := rollingSyncSteps applicationSet) in *.
  set (recorded := applicationSet.(ApplicationStatus)).
  assert (Forall (λ s, 0 ≤ stepIndex appStepMap s.(AppName)
                         < Z.of_nat (length steps)) recorded) as Hall.
  { apply Forall_forall. intros s _. unfold stepIndex.
    destruct (appStepMap !! AppName s) as [j|] eqn:Hj; simpl; [|lia].
    by apply (Hmap _ _ Hj). }
  destruct (countStatuses_is_Some appStepMap recorded
              (replicate (length steps) 0) (replicate (length steps) 0))
    as [[u t] Hcount].
  { done. }
  { by rewrite length_replicate. }
  rewrite Hcount. cbn [mbind option_bind].
  apply countStatuses_Some in Hcount as (Hlu & Hlt & _).
  rewrite length_replicate in Hlu, Hlt.
  by apply promoteStatuses_is_Some.
Qed.

Lemma UpdateStatus_storedSpec spec appset w :
  storedSpec spec w → storedSpec spec (UpdateStatus appset w).2.
Proof.
  intros Hw. unfold UpdateStatus. rewrite bind_eq.
  destruct (nextFault_sameStore w) as (Hp & _).
  destruct (nextFault w).1; cbv [mret M_ret]; cbn [fst snd].
  { intros stored Hs. apply Hw. congruence. }
  destruct (parent (nextFault w).2) as [stored|] eqn:Hstored; cbn [fst snd].
  - intros stored' [= <-]. cbn [Spec]. apply Hw. congruence.
  - intros stored' Hs. apply Hw. congruence.
Qed.

Lemma statusUpdateAttempt_specKept spec statuses w :
  specKept spec w (statusUpdateAttempt statuses w).1
    (statusUpdateAttempt statuses w).2.
Proof.
  intros Hw. unfold statusUpdateAttempt. rewrite bind_eq.
  pose proof (GetApplicationSet_sameStore w) as (Hp & _).
  pose proof (GetApplicationSet_result w) as Hres.
  assert (storedSpec spec (GetApplicationSet w).2) as Hw1.
  { intros stored Hs. apply Hw. congruence. }
  destruct (GetApplicationSet w).1 as [err|updatedAppset].
  - destruct (IgnoreNotFound err); cbv [mret M_ret]; cbn [fst snd];
      by split.
  - rewrite bind_eq.
    pose proof (UpdateStatus_storedSpec spec
                  (withApplicationStatus statuses updatedAppset) _ Hw1) as Hw2.
    destruct (UpdateStatus _ _).1; cbv [mret M_ret]; cbn [fst snd].
    + by split.
    + split; [done|]. intros a [= <-]. cbn [Spec withApplicationStatus].
      by apply Hw, Hres.
Qed.

Lemma specKept_trans spec w1 r0 w2 r w3 :
  specKept spec w1 r0 w2 → is_Some r0.2 → specKept spec w2 r w3 →
  specKept spec w1 r w3.
Proof. intros H1 _ H2 Hw. destruct (H1 Hw) as [Hw2 _]. by apply H2. Qed.

(** The status writer hands back a parent with the spec it was given, when
    the stored parent has that spec, and leaves such a parent in the
    store. *)
Lemma setAppSetApplicationStatus_Spec applicationSet applicationStatuses w :
  storedSpec applicationSet.(Spec) w →
  let r := setAppSetApplicationStatus applicationSet applicationStatuses w in
  r.1.1.(Spec) = applicationSet.(Spec)
  ∧ storedSpec applicationSet.(Spec) r.2.
Proof.
  intros Hw r. subst r. unfold setAppSetApplicationStatus.
  destruct (needToUpdateStatus _ _); [|by split].
  rewrite bind_eq. unfold RetryOnConflict.
  destruct (retryOnConflict_invariant
              (statusUpdateAttempt
                 (withApplicationStatus (sortByName applicationStatuses)
                    applicationSet).(ApplicationStatus))
              (specKept applicationSet.(Spec))
              (statusUpdateAttempt_specKept _ _)
              (specKept_trans _) 4%nat w Hw) as [Hw' Ha].
  destruct (retryOnConflict 4 _ w) as [[ra re] w']. cbn [fst snd] in *.
  assert ((default (withApplicationStatus (sortByName applicationStatuses)
                      applicationSet) ra).(Spec) = applicationSet.(Spec))
    as Hspec.
  { destruct ra as [a|]; [by apply Ha|done]. }
  by destruct re.
Qed.

Lemma updateApplicationSetApplicationStatus_Spec applicationSet applications
    appStepMap w :
  storedSpec applicationSet.(Spec) w →
  let r :=
    updateApplicationSetApplicationStatus applicationSet applications
      appStepMap w in
  r.1.1.(Spec) = applicationSet.(Spec)
  ∧ storedSpec applicationSet.(Spec) r.2.
Proof.
  intros Hw r. subst r. unfold updateApplicationSetApplicationStatus.
  rewrite !bind_eq. cbn [Now fst snd].
  destruct (setAppSetApplicationStatus_Spec applicationSet
              (updatedApplicationStatuses (clock w) applicationSet
                 applications appStepMap) w Hw) as [Hspec Hw1].
  destruct (setAppSetApplicationStatus applicationSet _ w)
    as [[applicationSet1 err] w1].
  cbn [fst snd] in *. by destruct err.
Qed.

(** The promotion pass with a step map that points into the step list:
    it returns its list or the wrapped error of the status writer. *)
Lemma updateApplicationSetApplicationStatusProgress_result applicationSet
    appSyncMap appStepMap w :
  map_Forall (λ _ j, 0 ≤ j < Z.of_nat (length (rollingSyncSteps applicationSet)))
    appStepMap →
  let r :=
    updateApplicationSetApplicationStatusProgress applicationSet appSyncMap
      appStepMap w in
  (∃ appStatuses, r.1.2 = inl appStatuses)
  ∨ (∃ cause, r.1.2 = inr (Wrapped "failed to set AppSet app status" cause)).
Proof.
  intros Hrange r. subst r.
  unfold updateApplicationSetApplicationStatusProgress.
  rewrite bind_eq. cbn [Now fst snd].
  destruct (progressedApplicationStatuses_is_Some (clock w) applicationSet
              appSyncMap appStepMap Hrange) as [appStatuses ->].
  rewrite bind_eq.
  destruct (setAppSetApplicationStatus applicationSet appStatuses w)
    as [[applicationSet1 err] w1].
  cbn [fst snd]. destruct err; cbv [mret M_ret]; cbn [fst snd].
  - right. by eexists.
  - left. by eexists.
Qed.

(** X19: the errors of [performProgressiveSyncs].  When the parent in the
    store, if there is one, has the spec of the parent the function was
    given, the promotion pass stays within the bounds of its counters: the
    function does not panic, and an error it returns is the error of one of
    its two status passes, wrapped. *)
Theorem performProgressiveSyncs_errors appset applications
    desiredApplications appMap w e :
  storedSpec appset.(Spec) w →
  (performProgressiveSyncs appset applications desiredApplications appMap
     w).1 = inr e →
  ∃ cause,
    e = Wrapped "failed to update applicationset app status" cause
    ∨ e = Wrapped
            "failed to update applicationset application status progress"
            cause.
Proof.
  intros Hw. unfold performProgressiveSyncs.
  pose proof (buildAppDependencyList_range appset desiredApplications)
    as Hrange.
  destruct (buildAppDependencyList appset desiredApplications)
    as [appDependencyList appStepMap].
  cbn [snd] in Hrange. rewrite bind_eq.
  destruct (updateApplicationSetApplicationStatus_Spec appset applications
              appStepMap w Hw) as [Hspec Hw1].
  destruct (updateApplicationSetApplicationStatus appset applications
              appStepMap w) as [[appset1 res1] w1].
  cbn [fst snd] in *.
  destruct res1 as [statuses|err]; cbv [mret M_ret]; cbn [fst snd].
  2:{ intros [= <-]. eexists. by left. }
  rewrite bind_eq.
  destruct (rollingSyncSteps_Spec appset1 appset Hspec) as [Hsteps _].
  pose proof (updateApplicationSetApplicationStatusProgress_result appset1
                (buildAppSyncMap appset1 appDependencyList appMap) appStepMap
                w1) as Hprogress.
  rewrite Hsteps in Hprogress. specialize (Hprogress Hrange).
  cbn zeta in Hprogress.
  destruct (updateApplicationSetApplicationStatusProgress appset1 _ appStepMap
              w1) as [[appset2 res2] w2].
  cbn [fst snd] in *.
  destruct Hprogress as [[appStatuses ->]|[cause ->]].
  - rewrite bind_eq. cbv [mret M_ret]. cbn [fst snd]. done.
  - cbv [mret M_ret]. cbn [fst snd]. intros [= <-]. eexists. by right.
Qed.

Lemma performProgressiveSyncs_errors_witness :
  let appset := sampleSet "" [envStep; prodStep] [] in
  let a := sampleApp "a" "Healthy" "Synced" devLabel in
  let w := sampleWorld (Some appset) [a] [None; Some (FaultFailure "refused")] in
  ∃ e cause,
    (performProgressiveSyncs appset [a] [a] {[ "a" := a ]} w).1 = inr e
    ∧ (e = Wrapped "failed to update applicationset app status" cause
       ∨ e = Wrapped
               "failed to update applicationset application status progress"
               cause).
Proof.
  intros appset a w.
  destruct (performProgressiveSyncs appset [a] [a] {[ "a" := a ]} w).1
    as [m|e] eqn:Hr; [by vm_compute in Hr|].
  destruct (performProgressiveSyncs_errors appset [a] [a] {[ "a" := a ]} w e)
    as [cause Hcause].
  - intros stored [= <-]. reflexivity.
  - exact Hr.
  - by exists e, cause.
Defined.

Lemma GetApplicationSet_fault w f rest :
  w.(faults) = Some f :: rest →
  GetApplicationSet w = (inl (faultError f), withFaults rest w).
Proof. destruct w as [p c cl fs wr]. cbn [faults]. by intros ->. Qed.

Lemma faultError_not_NotFound f : IsNotFound (faultError f) = false.
Proof. by destruct f. Qed.

Lemma retryOnConflict_done {A} (fn : M (A * option error)) n w :
  (fn w).1.2 = None → retryOnConflict n fn w = fn w.
Proof.
  intros H. destruct n; cbn [retryOnConflict]; rewrite bind_eq, H;
    by destruct (fn w).
Qed.

(** X20: a read of the parent that fails with anything but a not-found
    error is not reported.  When the first call on the client fails so,
    [migrateStatus], [setAppSetApplicationStatus] and
    [setApplicationSetStatusCondition] return no error and write nothing,
    also when they had a change to write; the first two hand back the parent
    with the list they meant to write. *)
Theorem status_writers_swallow_read_failure appset condition
    parametersGenerated applicationStatuses w f rest :
  w.(faults) = Some f :: rest →
  let migrated := migrateStatus appset w in
  let written := setAppSetApplicationStatus appset applicationStatuses w in
  let conditioned :=
    setApplicationSetStatusCondition appset condition parametersGenerated w in
  (migrated.1.2 = None ∧ sameStore w migrated.2)
  ∧ (written.1.2 = None ∧ sameStore w written.2
     ∧ (needToUpdateStatus appset.(ApplicationStatus) applicationStatuses
        = true →
        written.1.1
        = withApplicationStatus (sortByName applicationStatuses) appset
        ∧ written.2.(faults) = rest))
  ∧ (conditioned.1.2 = None ∧ sameStore w conditioned.2).
Proof.
  intros Hf migrated written conditioned.
  assert (sameStore w (withFaults rest w)) as Hsame by done.
  assert (∀ statuses,
            RetryOnConflict (statusUpdateAttempt statuses) w
            = ((None, None), withFaults rest w)) as Hstatus.
  { intros statuses.
    assert (statusUpdateAttempt statuses w = ((None, None), withFaults rest w))
      as Hattempt.
    { unfold statusUpdateAttempt.
      rewrite bind_eq, (GetApplicationSet_fault w f rest Hf).
      cbn [fst snd]. unfold IgnoreNotFound.
      by rewrite faultError_not_NotFound. }
    unfold RetryOnConflict. rewrite retryOnConflict_done; by rewrite Hattempt. }
  split; [|split].
  - subst migrated. unfold migrateStatus.
    destruct (migrateTargetRevisions _ false) as [statusList [|]];
      [|split; [done|apply sameStore_refl]].
    by rewrite bind_eq, Hstatus.
  - subst written. unfold setAppSetApplicationStatus.
    destruct (needToUpdateStatus _ _);
      [|split; [done|split; [apply sameStore_refl|done]]].
    by rewrite bind_eq, Hstatus.
  - subst conditioned. unfold setApplicationSetStatusCondition.
    destruct (evaluatedConditions _ _ _) as [evaluatedTypes newConditions].
    rewrite bind_eq. cbn [Now fst snd].
    destruct (needToUpdateConditions _ _); cbn [negb];
      [|split; [done|apply sameStore_refl]].
    assert (conditionUpdateAttempt newConditions evaluatedTypes w
            = ((None, None), withFaults rest w)) as Hattempt.
    { unfold conditionUpdateAttempt.
      rewrite bind_eq, (GetApplicationSet_fault w f rest Hf).
      cbn [fst snd]. unfold IgnoreNotFound.
      by rewrite faultError_not_NotFound. }
    rewrite bind_eq. unfold RetryOnConflict.
    rewrite retryOnConflict_done; by rewrite Hattempt.
Qed.

Lemma status_writers_swallow_read_failure_witness :
  let appset := sampleSet "" [envStep] [] in
  let w := sampleWorld (Some appset) [] [Some (FaultFailure "timeout")] in
  let written :=
    setAppSetApplicationStatus appset [sampleEntry "a" "Waiting" "1"] w in
  written.1.2 = None ∧ written.2.(parent) = Some appset.
Proof.
  intros appset w written.
  destruct (status_writers_swallow_read_failure appset
              (sampleCondition "ErrorOccurred" "True" "ErrorOccurred" "failed")
              false [sampleEntry "a" "Waiting" "1"] w
              (FaultFailure "timeout") [] eq_refl)
    as (_ & (Herr & (Hp & _) & _) & _).
  split; [exact Herr|exact Hp].
Defined.

(** ** More on the rollout status and the steps *)

(** X21: the time of the last transition moves only with the entry.  The
    entry that [updateApplicationSetApplicationStatus] builds for an
    application is the recorded entry of the application, unchanged, or an
    entry whose last transition time is the time of the pass. *)
Theorem updatedApplicationStatus_transition_time now applicationSet
    appStepMap app :
  let appStatus :=
    updatedApplicationStatus now applicationSet appStepMap app in
  recordedStatus applicationSet.(ApplicationStatus) (appName app)
  = Some appStatus
  ∨ appStatus.(LastTransitionTime) = Some now.
Proof.
  intros appStatus. subst appStatus. unfold updatedApplicationStatus.
  set (recorded := recordedStatus applicationSet.(ApplicationStatus)
                     (appName app)).
  set (kept cur := recorded = Some cur ∨ cur.(LastTransitionTime) = Some now).
  set (outdated := appOutdated applicationSet app).
  assert (kept (observeRevisions now appStepMap app
                  (startingStatus now applicationSet appStepMap app)))
    as Hstart.
  { unfold startingStatus.
    fold (recordedStatus applicationSet.(ApplicationStatus) (appName app)).
    fold recorded. subst kept. cbn beta.
    destruct recorded as [existing|].
    - destruct (decide (TargetRevisions existing = Revisions app))
        as [Hrev|Hrev].
      + rewrite (bool_decide_eq_false_2
                   (TargetRevisions existing ≠ Revisions app))
          by (by intros []).
        unfold observeRevisions.
        rewrite (bool_decide_eq_false_2
                   (TargetRevisions existing ≠ Revisions app))
          by (by intros []).
        by left.
      + rewrite (bool_decide_eq_true_2
                   (TargetRevisions existing ≠ Revisions app)) by done.
        unfold observeRevisions. cbn [setMessage TargetRevisions].
        rewrite (bool_decide_eq_true_2
                   (TargetRevisions existing ≠ Revisions app)) by done.
        by right.
    - right. unfold observeRevisions. by destruct (bool_decide _). }
  assert (∀ cur, kept cur →
            kept (outdatedToWaiting now appStepMap outdated cur)) as H1.
  { intros cur Hcur. unfold outdatedToWaiting.
    destruct (_ && _); [by right|done]. }
  assert (∀ cur, kept cur →
            kept (pendingToProgressing now appStepMap outdated app cur))
    as H2.
  { intros cur Hcur. unfold pendingToProgressing.
    destruct (statusStrings app) as [[h s] p].
    destruct (bool_decide (Status cur = "Pending")); [|done].
    destruct (_ && _); [by right|]. destruct (_ || _); [by right|done]. }
  assert (∀ cur, kept cur → kept (waitingToHealthy now appStepMap app cur))
    as H3.
  { intros cur Hcur. unfold waitingToHealthy.
    destruct (_ && _); [by right|done]. }
  assert (∀ cur, kept cur →
            kept (progressingToHealthy now appStepMap app cur)) as H4.
  { intros cur Hcur. unfold progressingToHealthy.
    destruct (_ && _); [by right|done]. }
  by apply H4, H3, H2, H1.
Qed.

Lemma assignedStepMap_first_step step rest applications : ∀ acc,
  step.(MatchExpressions) = [] →
  map_Forall (λ _ j, j = 0) acc.2 →
  map_Forall (λ _ j, j = 0) (assignedStepMap (step :: rest) applications acc)
  ∧ (∀ name, is_Some (acc.2 !! name) →
       is_Some (assignedStepMap (step :: rest) applications acc !! name))
  ∧ ∀ app, app ∈ applications →
      is_Some (assignedStepMap (step :: rest) applications acc
               !! appName app).
Proof.
  intros acc Hstep. revert acc.
  induction applications as [|app apps IH]; intros acc Hacc.
  - split; [done|]. split; [done|]. intros app Happ.
    by apply elem_of_nil in Happ.
  - unfold assignedStepMap in *. cbn [foldl].
    pose proof (assignApp_map app (step :: rest) 0 acc) as Hmap.
    cbn [firstSelected] in Hmap. rewrite Hstep in Hmap.
    cbn [stepSelects] in Hmap.
    destruct (IH (assignApp app 0 (step :: rest) acc)) as (Hall & Hkeep & Hin).
    { rewrite Hmap. destruct (acc.2 !! appName app); [done|].
      by apply map_Forall_insert_2. }
    split; [done|]. split.
    + intros name Hname. apply Hkeep. rewrite Hmap.
      destruct (acc.2 !! appName app) eqn:Happ; [done|].
      destruct (decide (name = appName app)) as [->|Hne].
      * rewrite lookup_insert_eq. by eexists.
      * by rewrite lookup_insert_ne.
    + intros a [->|Ha]%elem_of_cons; [|by apply Hin].
      apply Hkeep. rewrite Hmap.
      destruct (acc.2 !! appName app) eqn:Happ; [by rewrite Happ|].
      rewrite lookup_insert_eq. by eexists.
Qed.

(** X22: a first step without match expressions takes every application.
    With a RollingSync strategy whose first step has an empty list of
    match expressions, [buildAppDependencyList] gives every application of
    its list the first step, whatever its labels and whatever the later
    steps select. *)
Theorem buildAppDependencyList_empty_selector applicationSet applications
    step rest app :
  progressiveSyncsRollingSyncStrategyEnabled applicationSet = true →
  rollingSyncSteps applicationSet = step :: rest →
  step.(MatchExpressions) = [] →
  app ∈ applications →
  getAppStep (appName app)
    (buildAppDependencyList applicationSet applications).2 = 1.
Proof.
  intros Hen Hsteps Hstep Happ.
  rewrite buildAppDependencyList_map, Hen, Hsteps.
  destruct (assignedStepMap_first_step step rest applications
              (replicate (length (step :: rest)) [], ∅) Hstep)
    as (Hall & _ & Hin); [apply map_Forall_empty|].
  destruct (Hin app Happ) as [j Hj]. unfold getAppStep. rewrite Hj.
  by rewrite (Hall _ _ Hj).
Qed.

Lemma buildAppDependencyList_empty_selector_witness :
  let everyone := {| MatchExpressions := []; MaxUpdate := None |} in
  let applicationSet := sampleSet "" [everyone; prodStep] [] in
  let b := sampleApp "b" "Healthy" "Synced" prodLabel in
  getAppStep "b" (buildAppDependencyList applicationSet [b]).2 = 1.
Proof.
  intros everyone applicationSet b.
  apply (buildAppDependencyList_empty_selector applicationSet [b] everyone
           [prodStep] b); [reflexivity..|apply list_elem_of_here].
Defined.
